(** * itspedro.github.io: a shallow embedding of the site's logic

    The repository has three pieces of logic worth stating theorems about:

    - the Game of Life backdrop (grid initialisation, toroidal neighbour
      count, double-buffered generation step, resize handling);
    - the notes loader ([load], [formatTitle], [MARKDOWN_PATTERN]);
    - the article viewer ([parseFrontMatter], [selectArticle] and its
      request counter).

    JavaScript values are modelled as the code uses them: integral numbers
    as [Z], a remainder that may be [NaN] as [option Z], the two products
    [cols * 0.3] and [cols * 0.7] as binary64 floats, strings as lists of
    UTF-16 code units, arrays as lists, the row arrays of the grid as
    objects in a store so that aliasing is visible, thrown exceptions as
    [None] or as an explicit outcome. *)

From Stdlib Require Import ZArith NArith Lia Bool Floats Uint63.
From Stdlib Require Import Strings.String Strings.Ascii Sorting.Sorted.
From stdpp Require Import base option list gmap.

Set Warnings "-inexact-float,-register-all".
Local Open Scope Z_scope.

(** ** Loops

    [for (let i = a; i < b; i++) body] runs [body] over [seqZ a (b - a)];
    a body that throws aborts the loop. *)

Fixpoint forM {S : Type} (l : list Z) (body : Z → S → option S) (s : S)
  : option S :=
  match l with
  | [] => Some s
  | i :: l' =>
      match body i s with
      | Some s' => forM l' body s'
      | None => None
      end
  end.

(** ** The Game of Life backdrop (the canvas component) *)

Module Life.

(** A grid cell as JavaScript sees it: reading past the end of a row
    gives [undefined], every stored value is a boolean. *)
Inductive cell : Type :=
  | Undefined
  | Bool (b : bool).

Definition truthy (c : cell) : bool :=
  match c with
  | Bool b => b
  | Undefined => false
  end.

Abbreviation loc := nat.
Abbreviation row := (list cell).

Record canvas_el : Type := mkCanvas { width : Z; height : Z }.

(** The component's variables, the row arrays they point to, the window
    and the number of [Math.random] draws made so far.  [grid] and
    [nextGrid] hold the outer arrays, which the code never writes after
    building them, as the list of their row references; the row arrays
    are written in place and live in [heap]. *)
Record state : Type := mkState {
  cols : Z;
  rows : Z;
  cellSize : Z;
  grid : list loc;
  nextGrid : list loc;
  isRunning : bool;
  canvas : option canvas_el;
  browser : bool;
  heap : gmap loc row;
  draws : nat;
  innerWidth : Z;
  innerHeight : Z
}.

Definition set_heap (h : gmap loc row) (s : state) : state :=
  mkState (cols s) (rows s) (cellSize s) (grid s) (nextGrid s) (isRunning s)
          (canvas s) (browser s) h (draws s) (innerWidth s) (innerHeight s).

Definition set_grids (g ng : list loc) (s : state) : state :=
  mkState (cols s) (rows s) (cellSize s) g ng (isRunning s)
          (canvas s) (browser s) (heap s) (draws s) (innerWidth s)
          (innerHeight s).

Definition set_draws (n : nat) (s : state) : state :=
  mkState (cols s) (rows s) (cellSize s) (grid s) (nextGrid s) (isRunning s)
          (canvas s) (browser s) (heap s) n (innerWidth s) (innerHeight s).

Definition set_dims (c r : Z) (s : state) : state :=
  mkState c r (cellSize s) (grid s) (nextGrid s) (isRunning s)
          (canvas s) (browser s) (heap s) (draws s) (innerWidth s)
          (innerHeight s).

Definition set_canvas (c : option canvas_el) (s : state) : state :=
  mkState (cols s) (rows s) (cellSize s) (grid s) (nextGrid s) (isRunning s)
          c (browser s) (heap s) (draws s) (innerWidth s) (innerHeight s).

Definition set_browser (b : bool) (s : state) : state :=
  mkState (cols s) (rows s) (cellSize s) (grid s) (nextGrid s) (isRunning s)
          (canvas s) b (heap s) (draws s) (innerWidth s) (innerHeight s).

Definition set_window (w h : Z) (s : state) : state :=
  mkState (cols s) (rows s) (cellSize s) (grid s) (nextGrid s) (isRunning s)
          (canvas s) (browser s) (heap s) (draws s) w h.

(** *** Numbers *)

(** [a % b]: [NaN] when [b] is zero, else the remainder with the sign of
    the dividend. *)
Definition js_rem (a b : Z) : option Z :=
  if b =? 0 then None else Some (Z.rem a b).

(** [Math.floor(a / b)] for integers [a] and [b > 0]: the quotient is at
    least [1 / b] away from the next integer unless it is one, so the
    rounding of the division never changes the floor. *)
Definition floor_div (a b : Z) : Z := a / b.

Definition float_of_Z (n : Z) : float :=
  if n <? 0 then (- PrimFloat.of_uint63 (Uint63.of_Z (- n)))%float
  else PrimFloat.of_uint63 (Uint63.of_Z n).

(** [Math.floor] of a binary64 value; [None] is [NaN] or an infinity. *)
Definition Math_floor (f : float) : option Z :=
  match Prim2SF f with
  | S754_zero _ => Some 0
  | S754_finite sgn m e =>
      let mag_floor := if 0 <=? e then Z.pos m * 2 ^ e
                       else Z.pos m / 2 ^ (- e) in
      let mag_ceil := if 0 <=? e then Z.pos m * 2 ^ e
                      else - ((- Z.pos m) / 2 ^ (- e)) in
      Some (if sgn then - mag_ceil else mag_floor)
  | S754_infinity _ => None
  | S754_nan => None
  end.

(** [j < e] and [j >= e] where [e] may be [NaN]: both are false then. *)
Definition lt_num (j : Z) (e : option Z) : bool :=
  match e with Some e => j <? e | None => false end.
Definition ge_num (j : Z) (e : option Z) : bool :=
  match e with Some e => e <=? j | None => false end.

(** *** Arrays *)

(** [l[i]] for an index that may be [NaN], negative or past the end:
    [None] is [undefined]. *)
Definition elem {A : Type} (l : list A) (i : option Z) : option A :=
  match i with
  | Some z => if z <? 0 then None else l !! Z.to_nat z
  | None => None
  end.

(** [g[r][c]]: throws a [TypeError] ([None]) when [g[r]] is [undefined]. *)
Definition read_cell (h : gmap loc row) (g : list loc) (r c : option Z)
  : option cell :=
  match elem g r with
  | None => None
  | Some l =>
      match h !! l with
      | None => None
      | Some rw => Some (default Undefined (elem rw c))
      end
  end.

(** [rw[j] = v]: in range it overwrites, past the end the array grows and
    the skipped slots read as [undefined]; a negative [j] sets a property
    that is no element. *)
Definition row_set (rw : row) (j : Z) (v : cell) : row :=
  if j <? 0 then rw
  else if (Z.to_nat j <? length rw)%nat then <[Z.to_nat j := v]> rw
  else rw ++ replicate (Z.to_nat j - length rw) Undefined ++ [v].

(** [g[i][j] = v]: throws when [g[i]] is [undefined]. *)
Definition write_cell (g : list loc) (i j : Z) (v : cell) (s : state)
  : option state :=
  match elem g (Some i) with
  | None => None
  | Some l =>
      match heap s !! l with
      | None => None
      | Some rw => Some (set_heap (<[l := row_set rw j v]> (heap s)) s)
      end
  end.

(** [Array(n)] throws a [RangeError] unless [n] is an array length. *)
Definition Array_valid (n : Z) : bool := (0 <=? n) && (n <? 2 ^ 32).

Definition alloc (rw : row) (s : state) : loc * state :=
  let l := fresh (dom (heap s)) in
  (l, set_heap (<[l := rw]> (heap s)) s).

(** [Array(n).fill(null).map(() => Array(c).fill(..))]: [n] fresh rows of
    [c] dead cells.  The callback runs once per row, so [Array(c)] is only
    evaluated when there is a row to build. *)
Fixpoint new_rows (n : nat) (c : Z) (s : state) : option (list loc * state) :=
  match n with
  | O => Some ([], s)
  | S n' =>
      if Array_valid c then
        let '(l, s1) := alloc (replicate (Z.to_nat c) (Bool false)) s in
        match new_rows n' c s1 with
        | Some (ls, s2) => Some (l :: ls, s2)
        | None => None
        end
      else None
  end.

Definition new_grid (r c : Z) (s : state) : option (list loc * state) :=
  if Array_valid r then new_rows (Z.to_nat r) c s else None.

Section WithRandom.

(** The successive results of [Math.random()]. *)
Variable Math_random : nat → float.

Definition leftColumnEnd (c : Z) : option Z :=
  Math_floor (float_of_Z c * 0.3)%float.
Definition rightColumnStart (c : Z) : option Z :=
  Math_floor (float_of_Z c * 0.7)%float.

Definition initializeGrid (s : state) : option state :=
  match new_grid (rows s) (cols s) s with
  | None => None
  | Some (g, s1) =>
      match new_grid (rows s1) (cols s1) s1 with
      | None => None
      | Some (ng, s2) =>
          let s3 := set_grids g ng s2 in
          let leftEnd := leftColumnEnd (cols s3) in
          let rightStart := rightColumnStart (cols s3) in
          forM (seqZ 0 (rows s3)) (fun i =>
            forM (seqZ 0 (cols s3)) (fun j st =>
              if lt_num j leftEnd || ge_num j rightStart then
                let r := Math_random (draws st) in
                write_cell (grid st) i j (Bool (0.8 <? r)%float)
                           (set_draws (S (draws st)) st)
              else Some st)) s3
      end
  end.

(** [countNeighbors(grid, x, y)] reads the component's [cols] and [rows]. *)
Definition countNeighbors (s : state) (g : list loc) (x y : Z) : option Z :=
  forM (seqZ (-1) 3) (fun i =>
    forM (seqZ (-1) 3) (fun j sum =>
      if (i =? 0) && (j =? 0) then Some sum
      else
        let col := js_rem (x + i + cols s) (cols s) in
        let row := js_rem (y + j + rows s) (rows s) in
        match read_cell (heap s) g row col with
        | None => None
        | Some c => Some (if truthy c then sum + 1 else sum)
        end)) 0.

(** The value written to [nextGrid[i][j]]. *)
Definition rule (currentCell : cell) (neighbors : Z) : cell :=
  if truthy currentCell && ((neighbors <? 2) || (3 <? neighbors)) then
    Bool false
  else if negb (truthy currentCell) && (neighbors =? 3) then Bool true
  else currentCell.

Definition computeNextGeneration (s : state) : option state :=
  match
    forM (seqZ 0 (rows s)) (fun i =>
      forM (seqZ 0 (cols s)) (fun j st =>
        match countNeighbors st (grid st) j i with
        | None => None
        | Some neighbors =>
            match read_cell (heap st) (grid st) (Some i) (Some j) with
            | None => None
            | Some currentCell =>
                write_cell (nextGrid st) i j (rule currentCell neighbors) st
            end
        end)) s
  with
  | None => None
  | Some s' => Some (set_grids (nextGrid s') (grid s') s')
  end.

(** [animate]: one tick (drawing reads the grid and changes nothing in
    it; the timer is re-armed after the body has run). *)
Definition animate (s : state) : option state :=
  if isRunning s then computeNextGeneration s else Some s.

Definition resize_canvas (s : state) : state :=
  match canvas s with
  | Some _ =>
      set_canvas (Some (mkCanvas (cols s * cellSize s) (rows s * cellSize s))) s
  | None => s
  end.

Definition handleResize (s : state) : option state :=
  if negb (browser s) then Some s
  else
    let s1 := set_dims (floor_div (innerWidth s) (cellSize s))
                       (floor_div (innerHeight s) (cellSize s)) s in
    initializeGrid (resize_canvas s1).

Definition onMount (s : state) : option state :=
  let s0 := set_browser true s in
  let s1 := set_dims (floor_div (innerWidth s0) (cellSize s0))
                     (floor_div (innerHeight s0) (cellSize s0)) s0 in
  initializeGrid (resize_canvas s1).

(** The component before it is mounted in a window of [w] by [h] pixels;
    [cv] is the element bound to [canvas]. *)
Definition initial (cv : option canvas_el) (w h : Z) : state :=
  mkState 100 60 15 [] [] true cv false ∅ 0 w h.

(** What can happen after mounting: the window is resized to [w] by [h]
    and the listener runs, or the timer fires. *)
Inductive event : Type :=
  | Resize (w h : Z)
  | Tick.

Definition step (e : event) (s : state) : option state :=
  match e with
  | Resize w h => handleResize (set_window w h s)
  | Tick => animate s
  end.

Fixpoint run (es : list event) (s : state) : option state :=
  match es with
  | [] => Some s
  | e :: es' =>
      match step e s with
      | Some s' => run es' s'
      | None => None
      end
  end.

End WithRandom.

End Life.

(** ** JavaScript strings

    A string is its sequence of UTF-16 code units; [length], [slice] and
    the regular expressions (none has the [u] flag) all work on code
    units. *)

Module JS.

Abbreviation jstring := (list N).

(** An ASCII literal. *)
Definition lit (s : string) : jstring :=
  map N_of_ascii (list_ascii_of_string s).

(** White space and line terminators: what [\s] matches and what
    [trimStart] removes. *)
Definition is_space (c : N) : bool :=
  ((0x09 <=? c) && (c <=? 0x0D) || (c =? 0x20) || (c =? 0xA0)
   || (c =? 0x1680) || (0x2000 <=? c) && (c <=? 0x200A)
   || (c =? 0x2028) || (c =? 0x2029) || (c =? 0x202F) || (c =? 0x205F)
   || (c =? 0x3000) || (c =? 0xFEFF))%N.

Fixpoint trimStart (s : jstring) : jstring :=
  match s with
  | c :: s' => if is_space c then trimStart s' else s
  | [] => []
  end.

Fixpoint startsWith (s prefix : jstring) {struct prefix} : bool :=
  match prefix, s with
  | [], _ => true
  | p :: prefix', c :: s' => (c =? p)%N && startsWith s' prefix'
  | _ :: _, [] => false
  end.

(** [s.slice(n)] for [0 <= n]. *)
Definition slice (s : jstring) (n : nat) : jstring := drop n s.

(** A string is falsy exactly when it is empty. *)
Definition nonempty (s : jstring) : bool :=
  match s with [] => false | _ :: _ => true end.

(** What a call can do: return, or throw a value.  Of a thrown value the
    code only asks whether it is an [Error] and, if so, for its
    message. *)
Inductive thrown : Type :=
  | ErrorObject (message : jstring)
  | OtherValue.

Inductive outcome (A : Type) : Type :=
  | Returned (a : A)
  | Threw (e : thrown).
Arguments Returned {A} a.
Arguments Threw {A} e.

(** A data value, as far as the code inspects it with [typeof],
    [Array.isArray] and property reads. *)
Inductive value : Type :=
  | VUndefined
  | VNull
  | VBool (b : bool)
  | VNumber (x : float)
  | VString (s : jstring)
  | VArray (xs : list value)
  | VObject (fields : list (jstring * value)).

(** [typeof v === "object" && v]: arrays are objects, [null] is falsy. *)
Definition is_object (v : value) : bool :=
  match v with
  | VArray _ | VObject _ => true
  | _ => false
  end.

(** A line written with [console.error]. *)
Abbreviation console := (list jstring).

End JS.

(** ** Drawing and the life cycle of the canvas component *)

Module LifeComponent.
Import JS Life.

(** What [drawGrid] asks of the 2D context, in order. *)
Inductive canvas_op : Type :=
  | ClearRect (x y w h : Z)
  | StrokeStyle (colour : jstring)
  | LineWidth (n : Z)
  | BeginPath
  | Rect (x y w h : Z)
  | Stroke.

(** [grid[i].length]; [None] when [grid[i]] is [undefined]. *)
Definition row_length (h : gmap loc row) (g : list loc) (i : Z) : option Z :=
  match elem g (Some i) with
  | None => None
  | Some l =>
      match h !! l with
      | None => None
      | Some rw => Some (Z.of_nat (length rw))
      end
  end.

(** [drawGrid]: the operations issued, none when there is no canvas or
    no 2D context ([has_context] is whether [getContext("2d")] gives
    one). *)
Definition drawGrid (has_context : bool) (s : state)
  : option (list canvas_op) :=
  match canvas s with
  | None => Some []
  | Some cv =>
      if negb has_context then Some []
      else
        forM (seqZ 0 (Z.of_nat (length (grid s)))) (λ i ops,
          match row_length (heap s) (grid s) i with
          | None => None
          | Some n =>
              forM (seqZ 0 n) (λ j ops,
                match read_cell (heap s) (grid s) (Some i) (Some j) with
                | None => None
                | Some c =>
                    if truthy c then
                      Some (ops ++ [BeginPath;
                                    Rect (j * cellSize s) (i * cellSize s)
                                         (cellSize s - 1) (cellSize s - 1);
                                    Stroke])
                    else Some ops
                end) ops
          end)
          [ClearRect 0 0 (width cv) (height cv);
           StrokeStyle (lit "#b6b6b6cc");
           LineWidth 1]
  end.

(** The component with its canvas, its timer and its listener.  Every
    timeout the component sets calls [animate]; [timers] are those still
    pending. *)
Record component : Type := mkComponent {
  vars : state;
  drawn : list canvas_op;      (* what the last [drawGrid] issued *)
  animationTimer : option Z;   (* [None]: never assigned *)
  timers : list Z;
  next_timer : Z;              (* the id the next [setTimeout] returns *)
  listening : bool             (* [handleResize] listens to "resize" *)
}.

(** Before mounting; timer ids are positive. *)
Definition unmounted (cv : option canvas_el) (w h : Z) : component :=
  mkComponent (initial cv w h) [] None [] 1 false.

(** [animationTimer = setTimeout(animate, updateInterval)] *)
Definition schedule_animate (c : component) : component :=
  mkComponent (vars c) (drawn c) (Some (next_timer c))
              (timers c ++ [next_timer c]) (next_timer c + 1) (listening c).

Definition clearTimeout (id : Z) (c : component) : component :=
  mkComponent (vars c) (drawn c) (animationTimer c)
              (filter (λ t, t ≠ id) (timers c)) (next_timer c) (listening c).

Section WithRandom.
Variable Math_random : nat → float.
Variable has_context : bool.

(** The callback of [onMount]: the grid is built and drawn, the timer is
    started, the listener is added. *)
Definition mount (c : component) : option component :=
  match onMount Math_random (vars c) with
  | None => None
  | Some s =>
      match drawGrid has_context s with
      | None => None
      | Some ops =>
          Some (mkComponent s ops (Some (next_timer c))
                            (timers c ++ [next_timer c]) (next_timer c + 1)
                            true)
      end
  end.

(** [animate] in full: the generation step, the drawing, the next
    timeout. *)
Definition animate_and_draw (c : component) : option component :=
  if isRunning (vars c) then
    match computeNextGeneration (vars c) with
    | None => None
    | Some s =>
        match drawGrid has_context s with
        | None => None
        | Some ops =>
            Some (schedule_animate
                    (mkComponent s ops (animationTimer c) (timers c)
                                 (next_timer c) (listening c)))
        end
    end
  else Some (schedule_animate c).

(** The timeout [id] elapses and [animate] runs; an exception in it would
    leave the timer unset. *)
Definition timer_fires (id : Z) (c : component) : option component :=
  animate_and_draw
    (mkComponent (vars c) (drawn c) (animationTimer c)
                 (filter (λ t, t ≠ id) (timers c)) (next_timer c)
                 (listening c)).

Definition window_resized (w h : Z) (c : component) : option component :=
  match handleResize Math_random (set_window w h (vars c)) with
  | None => None
  | Some s =>
      Some (mkComponent s (drawn c) (animationTimer c) (timers c)
                        (next_timer c) (listening c))
  end.

Definition onDestroy (c : component) : component :=
  if negb (browser (vars c)) then c
  else
    let c1 :=
      match animationTimer c with
      | Some id => if id =? 0 then c else clearTimeout id c
      | None => c
      end in
    mkComponent (vars c1) (drawn c1) (animationTimer c1) (timers c1)
                (next_timer c1) false.

Inductive event : Type :=
  | TimerFires (id : Z)
  | WindowResized (w h : Z)
  | Destroyed.

(** The event can happen: only a pending timeout elapses, only a
    registered listener is called. *)
Definition enabled (e : event) (c : component) : bool :=
  match e with
  | TimerFires id => bool_decide (id ∈ timers c)
  | WindowResized _ _ => listening c
  | Destroyed => true
  end.

Definition step (e : event) (c : component) : option component :=
  if enabled e c then
    match e with
    | TimerFires id => timer_fires id c
    | WindowResized w h => window_resized w h c
    | Destroyed => Some (onDestroy c)
    end
  else None.

Fixpoint run (es : list event) (c : component) : option component :=
  match es with
  | [] => Some c
  | e :: es' =>
      match step e c with
      | Some c' => run es' c'
      | None => None
      end
  end.

End WithRandom.

End LifeComponent.

(** ** Regular expressions

    The two patterns of the repository use literals, character classes,
    [*], [+], [?] and [*?] on single characters, one capturing group,
    alternation, [^] and [$] (no [m] flag).  [Regex.run] is a backtracking
    matcher in continuation-passing style with the priorities of the
    language: the left alternative first, a greedy star the longest
    repetition first, a lazy star the shortest. *)

Module Regex.
Import JS.

Inductive re : Type :=
  | Eps
  | Chr (p : N → bool)
  | Cat (r1 r2 : re)
  | Alt (r1 r2 : re)
  | Star (greedy : bool) (p : N → bool)
  | Group (n : nat) (r : re)
  | Bos
  | Eos.

Abbreviation captures := (gmap nat jstring).

(** A continuation receives the position reached, the input left and the
    captures, and gives the end of the match and the final captures. *)
Abbreviation cont := (nat → jstring → captures → option (nat * captures)).

Fixpoint star_greedy (p : N → bool) (pos : nat) (s : jstring)
    (k : nat → jstring → option (nat * captures)) : option (nat * captures) :=
  match s with
  | c :: s' =>
      if p c then
        match star_greedy p (S pos) s' k with
        | Some res => Some res
        | None => k pos s
        end
      else k pos s
  | [] => k pos s
  end.

Fixpoint star_lazy (p : N → bool) (pos : nat) (s : jstring)
    (k : nat → jstring → option (nat * captures)) : option (nat * captures) :=
  match k pos s with
  | Some res => Some res
  | None =>
      match s with
      | c :: s' => if p c then star_lazy p (S pos) s' k else None
      | [] => None
      end
  end.

Fixpoint run (r : re) (pos : nat) (s : jstring) (caps : captures) (k : cont)
  : option (nat * captures) :=
  match r with
  | Eps => k pos s caps
  | Chr p =>
      match s with
      | c :: s' => if p c then k (S pos) s' caps else None
      | [] => None
      end
  | Cat r1 r2 => run r1 pos s caps (λ pos' s' caps', run r2 pos' s' caps' k)
  | Alt r1 r2 =>
      match run r1 pos s caps k with
      | Some res => Some res
      | None => run r2 pos s caps k
      end
  | Star true p => star_greedy p pos s (λ pos' s', k pos' s' caps)
  | Star false p => star_lazy p pos s (λ pos' s', k pos' s' caps)
  | Group n r =>
      run r pos s caps
          (λ pos' s' caps', k pos' s' (<[n := take (pos' - pos) s]> caps'))
  | Bos => if (pos =? 0)%nat then k pos s caps else None
  | Eos => match s with [] => k pos s caps | _ :: _ => None end
  end.

Definition accept : cont := λ pos _ caps, Some (pos, caps).

Record match_result : Type := mkMatch {
  index : nat;
  last : nat;
  groups : captures
}.

(** [RegExpBuiltinExec] without the [g] and [y] flags: the first start
    position, from 0 on, at which the pattern matches. *)
Fixpoint exec_from (r : re) (pos : nat) (s : jstring) : option match_result :=
  match run r pos s ∅ accept with
  | Some (e, caps) => Some (mkMatch pos e caps)
  | None =>
      match s with
      | [] => None
      | _ :: s' => exec_from r (S pos) s'
      end
  end.

Definition exec (r : re) (s : jstring) : option match_result :=
  exec_from r 0 s.

(** The matched text, element 0 of the array [match] returns. *)
Definition matched (s : jstring) (m : match_result) : jstring :=
  take (last m - index m) (drop (index m) s).

Definition test (r : re) (s : jstring) : bool :=
  match exec r s with Some _ => true | None => false end.

(** [s.replace(r, "")]: the first match is cut out. *)
Definition remove_first (r : re) (s : jstring) : jstring :=
  match exec r s with
  | Some m => take (index m) s ++ drop (last m) s
  | None => s
  end.

(** Pattern syntax. *)
Definition chr (c : N) : re := Chr (N.eqb c).
Fixpoint str (s : jstring) : re :=
  match s with
  | [] => Eps
  | c :: s' => Cat (chr c) (str s')
  end.
Definition plus (p : N → bool) : re := Cat (Chr p) (Star true p).
Definition opt (r : re) : re := Alt r Eps.

(** A letter under the [i] flag: two characters match when their
    canonical (upper-case) forms agree, and no character outside ASCII
    has an ASCII canonical form. *)
Definition letter (lower upper : N) : re :=
  Chr (λ c, (c =? lower)%N || (c =? upper)%N).

(** [s.split(/[..]/)] for a class [p] of single characters. *)
Fixpoint split_on (p : N → bool) (s : jstring) : list jstring :=
  match s with
  | [] => [[]]
  | c :: s' =>
      if p c then [] :: split_on p s'
      else
        match split_on p s' with
        | chunk :: chunks => (c :: chunk) :: chunks
        | [] => [[c]]
        end
  end.

End Regex.

(** ** The notes loader (the page's [load] function) *)

Module Notes.
Import JS Regex.

Record GitHubFile : Type := mkFile {
  name : jstring;
  path : jstring;
  type : jstring;
  download_url : option jstring   (* [None] is [null] *)
}.

(** An article; [article_url] and [article_path] are its [download_url]
    and [path] properties (the names are taken by [GitHubFile]). *)
Record Article : Type := mkArticle {
  title : jstring;
  slug : jstring;
  article_url : option jstring;   (* [None] is [null] *)
  article_path : jstring
}.

(** [/\.(md|mdx)$/i] *)
Definition MARKDOWN_PATTERN : re :=
  Cat (chr 0x2E)
      (Cat (Group 1 (Alt (Cat (letter 0x6D 0x4D) (letter 0x64 0x44))
                         (Cat (letter 0x6D 0x4D)
                              (Cat (letter 0x64 0x44) (letter 0x78 0x58)))))
           Eos).

(** [Boolean(url)]: neither [null] nor the empty string. *)
Definition truthy_url (u : option jstring) : bool :=
  match u with
  | Some s => nonempty s
  | None => false
  end.

Definition join_space (chunks : list jstring) : jstring :=
  match chunks with
  | [] => []
  | c :: cs => c ++ concat (map (λ x, 0x20%N :: x) cs)
  end.

(** The response of the listing endpoint, as [load] looks at it. *)
Inductive listing_response : Type :=
  | Rejected (e : thrown)
  | Answered (ok : bool) (status : Z) (json : outcome (list GitHubFile)).

Record page_data : Type := mkData {
  articles : list Article;
  introHtml : option jstring   (* [None]: the property is absent *)
}.

Section WithRuntime.

(** [String.prototype.toUpperCase], the markdown renderer and the static
    introduction imported by the page. *)
Variable toUpperCase : jstring → jstring.
Variable marked_parse : jstring → outcome jstring.
Variable introMarkdown : jstring.

Definition capitalize (chunk : jstring) : jstring :=
  toUpperCase (take 1 chunk) ++ slice chunk 1.

Definition formatTitle (filename : jstring) : jstring :=
  join_space
    (map capitalize
         (split_on (λ c, (c =? 0x2D)%N || (c =? 0x5F)%N)
                   (remove_first MARKDOWN_PATTERN filename))).

Definition is_markdown_file (file : GitHubFile) : bool :=
  bool_decide (type file = lit "file") && test MARKDOWN_PATTERN (name file).

Definition to_article (file : GitHubFile) : Article :=
  mkArticle (formatTitle (name file))
            (remove_first MARKDOWN_PATTERN (name file))
            (download_url file)
            (path file).

Definition select_articles (files : list GitHubFile) : list Article :=
  filter (λ a, truthy_url (article_url a) = true)
         (map to_article (filter (λ f, is_markdown_file f = true) files)).

(** [load] returns the page data and what it wrote to the console; the
    [catch] turns every exception into an empty result. *)
Definition load (response : listing_response) : page_data * console :=
  match response with
  | Rejected e =>
      (mkData [] None, [lit "Unexpected error while loading Notes articles"])
  | Answered ok status json =>
      if negb ok then
        (mkData [] None, [lit "Failed to fetch Notes repository contents"])
      else
        match json with
        | Threw e =>
            (mkData [] None,
             [lit "Unexpected error while loading Notes articles"])
        | Returned files =>
            let articles := select_articles files in
            match marked_parse introMarkdown with
            | Threw e =>
                (mkData [] None,
                 [lit "Unexpected error while loading Notes articles"])
            | Returned html => (mkData articles (Some html), [])
            end
        end
  end.

End WithRuntime.

End Notes.

(** ** The article viewer (MainSection.svelte) *)

Module MainSection.
Import JS Regex.

(** The [Article] objects are those [load] builds; the page hands
    [data.articles] and [data.introHtml] to this component as props. *)
Abbreviation Article := Notes.Article.
Abbreviation slug := Notes.slug.
Abbreviation download_url := Notes.article_url.

Record ArticleMeta : Type := mkMeta {
  meta_title : option jstring;
  meta_date : option jstring;
  meta_description : option jstring;
  meta_lang : option jstring;
  meta_tags : option (list jstring)
}.

(** The reactive state of the component. *)
Record state : Type := mkState {
  activeSlug : option jstring;
  renderedHtml : jstring;
  isLoading : bool;
  errorMessage : jstring;
  currentRequest : Z;
  activeMeta : option ArticleMeta
}.

Definition initial : state := mkState None [] false [] 0 None.

Definition CR : N := 0x0D.
Definition LF : N := 0x0A.
Definition is_newline (c : N) : bool := (c =? CR)%N || (c =? LF)%N.
Definition any_char (c : N) : bool := true.

(** [/^---\s*[\r\n]+([\s\S]*?)\r?\n---\s*(?:[\r\n]+|$)/] *)
Definition FRONT_MATTER_PATTERN : re :=
  Cat Bos
  (Cat (str (lit "---"))
  (Cat (Star true is_space)
  (Cat (plus is_newline)
  (Cat (Group 1 (Star false any_char))
  (Cat (opt (chr CR))
  (Cat (chr LF)
  (Cat (str (lit "---"))
  (Cat (Star true is_space)
       (Alt (plus is_newline) Eos))))))))).

Record parsed : Type := mkParsed {
  content : jstring;
  data : option value   (* [None] is [undefined] *)
}.

(** [obj[key]] for a key that is no array index. *)
Fixpoint get_field (fields : list (jstring * value)) (key : jstring) : value :=
  match fields with
  | [] => VUndefined
  | (k, v) :: rest => if bool_decide (k = key) then v else get_field rest key
  end.

Definition get_prop (v : value) (key : jstring) : value :=
  match v with
  | VObject fields => get_field fields key
  | _ => VUndefined
  end.

Definition string_prop (v : value) (key : jstring) : option jstring :=
  match get_prop v key with
  | VString s => Some s
  | _ => None
  end.

(** The property has been assigned. *)
Definition is_set {A : Type} (o : option A) : bool :=
  match o with Some _ => true | None => false end.

(** [Object.keys(meta).length] is not zero. *)
Definition has_keys (m : ArticleMeta) : bool :=
  is_set (meta_title m) || is_set (meta_date m)
  || is_set (meta_description m) || is_set (meta_lang m)
  || is_set (meta_tags m).

Section WithRuntime.

(** [$app/environment]'s [browser], js-yaml's [load], [marked.parse] and
    the conversion [String(v)]. *)
Variable browser : bool.
Variable parseYaml : option jstring → outcome value.
Variable marked_parse : jstring → outcome jstring.
Variable ToString : value → jstring.

(** The [articles] prop. *)
Variable articles : list Article.

Definition toMeta (data : option value) : option ArticleMeta :=
  match data with
  | None => None
  | Some d =>
      let meta :=
        mkMeta (string_prop d (lit "title"))
               (string_prop d (lit "date"))
               (string_prop d (lit "description"))
               (string_prop d (lit "lang"))
               (match get_prop d (lit "tags") with
                | VArray tags =>
                    Some (filter (λ t, nonempty t = true) (map ToString tags))
                | _ => None
                end) in
      if has_keys meta then Some meta else None
  end.

(** [parseFrontMatter] with the lines it writes to the console. *)
Definition parseFrontMatter (markdown : jstring) : parsed * console :=
  if negb (startsWith (trimStart markdown) (lit "---")) then
    (mkParsed markdown None, [])
  else
    match exec FRONT_MATTER_PATTERN markdown with
    | None => (mkParsed markdown None, [])
    | Some m =>
        let fullMatch := matched markdown m in
        let rawFrontMatter := groups m !! 1%nat in
        let content := slice markdown (length fullMatch) in
        match parseYaml rawFrontMatter with
        | Returned d =>
            (mkParsed (trimStart content)
                      (if is_object d then Some d else None), [])
        | Threw e =>
            (mkParsed markdown None, [lit "Could not parse front matter"])
        end
    end.

(** *** [selectArticle]

    The function runs in two atomic pieces of the event loop.  The first
    runs up to the call of [fetch]; the second starts when the last
    [await] resumes.  Between the three awaits ([fetch], [response.text],
    [marked.parse]) the function neither reads nor writes the component's
    state, so the second piece is one step taking what the awaits
    produced. *)

Record request : Type := mkRequest {
  requestId : Z;
  url : jstring
}.

(** What the awaited [fetch] and [response.text()] produce. *)
Inductive response : Type :=
  | Rejected (e : thrown)
  | Answered (ok : bool) (text : outcome jstring).

Definition selectArticle_begin (article : option Article) (s : state)
  : state * option request :=
  match article with
  | None => (s, None)
  | Some a =>
      match download_url a with
      | None => (s, None)
      | Some u =>
          if negb browser || negb (nonempty u) then (s, None)
          else
            let currentRequest' := currentRequest s + 1 in
            let requestId := currentRequest' in
            (mkState (Some (slug a)) (renderedHtml s) true [] currentRequest'
                     None,
             Some (mkRequest requestId u))
      end
  end.

(** The body of the [try] up to the staleness check: the HTML and the
    metadata, or the exception that reaches [catch]. *)
Definition render (r : response)
  : outcome (jstring * option ArticleMeta) * console :=
  match r with
  | Rejected e => (Threw e, [])
  | Answered ok text =>
      if negb ok then
        (Threw (ErrorObject (lit "Unable to fetch the selected article.")), [])
      else
        match text with
        | Threw e => (Threw e, [])
        | Returned markdown =>
            let '(p, logged) := parseFrontMatter markdown in
            let source := if nonempty (content p) then content p
                          else markdown in
            match marked_parse source with
            | Threw e => (Threw e, logged)
            | Returned html => (Returned (html, toMeta (data p)), logged)
            end
        end
  end.

Definition error_text (e : thrown) : jstring :=
  match e with
  | ErrorObject message => message
  | OtherValue => lit "An unexpected error occurred while loading."
  end.

Definition selectArticle_settle (requestId : Z) (r : response) (s : state)
  : state * console :=
  let '(result, logged) := render r in
  let s1 :=
    match result with
    | Returned (html, meta) =>
        if negb (requestId =? currentRequest s) then s
        else mkState (activeSlug s) html (isLoading s) (errorMessage s)
                     (currentRequest s) meta
    | Threw e =>
        mkState (activeSlug s) (renderedHtml s) (isLoading s) (error_text e)
                (currentRequest s) (activeMeta s)
    end in
  let s2 :=
    if requestId =? currentRequest s1 then
      mkState (activeSlug s1) (renderedHtml s1) false (errorMessage s1)
              (currentRequest s1) (activeMeta s1)
    else s1 in
  (s2, logged).

(** *** The component with its fetches in flight *)

Record system : Type := mkSystem {
  comp : state;
  inflight : list request;      (* issued and not yet settled *)
  issued : list Z;              (* every request id given out, newest first *)
  logged : console
}.

Definition start : system := mkSystem initial [] [] [].

(** What happens to the component: it is mounted, the user clicks an
    article of the list, a fetch completes, or one of the two effects
    runs (an effect whose condition fails does nothing). *)
Inductive event : Type :=
  | Mounted
  | Select (article : option Article)
  | Settle (id : Z) (r : response)
  | FirstArticleEffect
  | StaleSlugEffect.

Definition remove_request (id : Z) (l : list request) : list request :=
  filter (λ q, requestId q ≠ id) l.

(** A call [selectArticle(article)] and the fetch it may issue. *)
Definition call_selectArticle (article : option Article) (sys : system)
  : system :=
  match selectArticle_begin article (comp sys) with
  | (s', Some q) =>
      mkSystem s' (inflight sys ++ [q]) (requestId q :: issued sys)
               (logged sys)
  | (s', None) => mkSystem s' (inflight sys) (issued sys) (logged sys)
  end.

(** [activeSlug] is a non-empty string. *)
Definition slug_set (s : state) : bool :=
  match activeSlug s with
  | Some sl => nonempty sl
  | None => false
  end.

(** [articles.some((article) => article.slug === activeSlug)] *)
Definition slug_listed (s : state) : bool :=
  match activeSlug s with
  | Some sl => bool_decide (sl ∈ map slug articles)
  | None => false
  end.

Definition step (e : event) (sys : system) : option system :=
  match e with
  | Mounted =>
      match articles with
      | [] => Some sys
      | first :: _ => Some (call_selectArticle (Some first) sys)
      end
  | Select article => Some (call_selectArticle article sys)
  | Settle id r =>
      if bool_decide (id ∈ map requestId (inflight sys)) then
        let '(s', out) := selectArticle_settle id r (comp sys) in
        Some (mkSystem s' (remove_request id (inflight sys)) (issued sys)
                       (logged sys ++ out))
      else None   (* only a fetch in flight can complete *)
  | FirstArticleEffect =>
      match articles with
      | first :: _ =>
          if browser && negb (slug_set (comp sys))
             && negb (isLoading (comp sys)) then
            Some (call_selectArticle (Some first) sys)
          else Some sys
      | [] => Some sys
      end
  | StaleSlugEffect =>
      if slug_set (comp sys) && negb (slug_listed (comp sys)) then
        let s := comp sys in
        Some (mkSystem (mkState None [] (isLoading s) (errorMessage s)
                                (currentRequest s) None)
                       (inflight sys) (issued sys) (logged sys))
      else Some sys
  end.

Fixpoint run (es : list event) (sys : system) : option system :=
  match es with
  | [] => Some sys
  | e :: es' =>
      match step e sys with
      | Some sys' => run es' sys'
      | None => None
      end
  end.

End WithRuntime.

(** *** What the main panel shows *)

Inductive panel : Type :=
  | AddFilesHint          (* "Add markdown files to the Notes repo ..." *)
  | LoadingNote           (* "Loading article..." *)
  | ErrorText (message : jstring)
  | ArticleBody (html : jstring)
  | SelectHint.           (* "Select an article on the left ..." *)

Definition main_panel (articles : list Article) (s : state) : panel :=
  match articles with
  | [] => AddFilesHint
  | _ :: _ =>
      if isLoading s then LoadingNote
      else if nonempty (errorMessage s) then ErrorText (errorMessage s)
      else if nonempty (renderedHtml s) then ArticleBody (renderedHtml s)
      else SelectHint
  end.

End MainSection.

(** * Theorems *)

(** ** Loops *)

(** A loop invariant rule: if every iteration preserves [I], which also
    sees the indices visited so far, the loop ends normally in a state
    where [I] holds of the whole range. *)
Lemma forM_invariant {S : Type} (I : list Z → S → Prop)
    (body : Z → S → option S) (l : list Z) (s : S) :
  I [] s →
  (∀ seen i rest s1, l = seen ++ i :: rest → I seen s1 →
     ∃ s2, body i s1 = Some s2 ∧ I (seen ++ [i]) s2) →
  ∃ s', forM l body s = Some s' ∧ I l s'.
Proof.
  intros H0 Hstep.
  cut (∀ rest seen s1, l = seen ++ rest → I seen s1 →
         ∃ s', forM rest body s1 = Some s' ∧ I l s').
  { intros H. apply (H l [] s); [done | exact H0]. }
  induction rest as [|i rest IH]; intros seen s1 Hl HI.
  - rewrite app_nil_r in Hl. subst. exists s1. done.
  - destruct (Hstep seen i rest s1 Hl HI) as (s2 & Hb & HI2).
    simpl. rewrite Hb. apply (IH (seen ++ [i])); [|done].
    by rewrite <- app_assoc.
Qed.

Lemma forM_ext {S : Type} (l : list Z) (f g : Z → S → option S) s :
  (∀ i s, i ∈ l → f i s = g i s) → forM l f s = forM l g s.
Proof.
  revert s. induction l as [|i l IH]; intros s H; simpl; [done|].
  rewrite (H i s) by left. destruct (g i s); [|done].
  apply IH. intros. apply H. by right.
Qed.

(** ** Regular expressions *)

Module RegexFacts.
Import JS Regex.

(** What it means for a pattern to match the word [w] at position [pos]
    with [rest] following, taking the captures from [caps] to [caps']. *)
Inductive sem : re → nat → jstring → jstring → captures → captures → Prop :=
  | sem_eps pos rest caps : sem Eps pos [] rest caps caps
  | sem_chr p c pos rest caps :
      p c = true → sem (Chr p) pos [c] rest caps caps
  | sem_cat r1 r2 pos w1 w2 rest caps caps1 caps2 :
      sem r1 pos w1 (w2 ++ rest) caps caps1 →
      sem r2 (pos + length w1) w2 rest caps1 caps2 →
      sem (Cat r1 r2) pos (w1 ++ w2) rest caps caps2
  | sem_alt_l r1 r2 pos w rest caps caps' :
      sem r1 pos w rest caps caps' → sem (Alt r1 r2) pos w rest caps caps'
  | sem_alt_r r1 r2 pos w rest caps caps' :
      sem r2 pos w rest caps caps' → sem (Alt r1 r2) pos w rest caps caps'
  | sem_star g p pos w rest caps :
      Forall (λ c, p c = true) w → sem (Star g p) pos w rest caps caps
  | sem_group n r pos w rest caps caps1 :
      sem r pos w rest caps caps1 →
      sem (Group n r) pos w rest caps (<[n := w]> caps1)
  | sem_bos rest caps : sem Bos 0 [] rest caps caps
  | sem_eos pos caps : sem Eos pos [] [] caps caps.

(** *** The matcher finds only matches *)

Lemma star_greedy_sound p pos s k res :
  star_greedy p pos s k = Some res →
  ∃ w rest, s = w ++ rest ∧ Forall (λ c, p c = true) w
            ∧ k (pos + length w)%nat rest = Some res.
Proof.
  revert pos. induction s as [|c s IH]; intros pos H; simpl in H.
  - exists [], []. rewrite Nat.add_0_r. done.
  - destruct (p c) eqn:Hc.
    + destruct (star_greedy p (S pos) s k) as [res'|] eqn:Hrec.
      * injection H as <-. destruct (IH _ Hrec) as (w & rest & -> & Hw & Hk).
        exists (c :: w), rest. split; [done|]. split; [by constructor|].
        simpl length. by rewrite Nat.add_succ_r.
      * exists [], (c :: s). rewrite Nat.add_0_r. done.
    + exists [], (c :: s). rewrite Nat.add_0_r. done.
Qed.

Lemma star_lazy_sound p pos s k res :
  star_lazy p pos s k = Some res →
  ∃ w rest, s = w ++ rest ∧ Forall (λ c, p c = true) w
            ∧ k (pos + length w)%nat rest = Some res.
Proof.
  revert pos. induction s as [|c s IH]; intros pos H; simpl in H.
  - destruct (k pos []) eqn:Hk; [|done]. injection H as <-.
    exists [], []. rewrite Nat.add_0_r. done.
  - destruct (k pos (c :: s)) eqn:Hk.
    + injection H as <-. exists [], (c :: s). rewrite Nat.add_0_r. done.
    + destruct (p c) eqn:Hc; [|done].
      destruct (IH _ H) as (w & rest & -> & Hw & Hk').
      exists (c :: w), rest. split; [done|]. split; [by constructor|].
      simpl length. by rewrite Nat.add_succ_r.
Qed.

Lemma run_sound r pos s caps k res :
  run r pos s caps k = Some res →
  ∃ w rest caps', s = w ++ rest ∧ sem r pos w rest caps caps'
                  ∧ k (pos + length w)%nat rest caps' = Some res.
Proof.
  revert pos s caps k res.
  induction r as [|p|r1 IH1 r2 IH2|r1 IH1 r2 IH2|g p|n r IH| |];
    intros pos s caps k res H; simpl in H.
  - exists [], s, caps. rewrite Nat.add_0_r. split; [done|].
    split; [constructor | done].
  - destruct s as [|c s]; [done|]. destruct (p c) eqn:Hc; [|done].
    exists [c], s, caps. split; [done|]. split; [by constructor|].
    simpl length. by rewrite Nat.add_1_r.
  - destruct (IH1 _ _ _ _ _ H) as (w1 & rest1 & caps1 & -> & Hs1 & Hk1).
    destruct (IH2 _ _ _ _ _ Hk1) as (w2 & rest & caps2 & -> & Hs2 & Hk2).
    exists (w1 ++ w2), rest, caps2. split; [by rewrite app_assoc|].
    split; [by econstructor|].
    rewrite length_app, Nat.add_assoc. done.
  - destruct (run r1 pos s caps k) as [res'|] eqn:H1.
    + injection H as <-.
      destruct (IH1 _ _ _ _ _ H1) as (w & rest & caps' & -> & Hs & Hk).
      exists w, rest, caps'. split; [done|]. split; [by apply sem_alt_l|done].
    + destruct (IH2 _ _ _ _ _ H) as (w & rest & caps' & -> & Hs & Hk).
      exists w, rest, caps'. split; [done|]. split; [by apply sem_alt_r|done].
  - destruct g.
    + destruct (star_greedy_sound _ _ _ _ _ H) as (w & rest & -> & Hw & Hk).
      exists w, rest, caps. split; [done|]. split; [by constructor|done].
    + destruct (star_lazy_sound _ _ _ _ _ H) as (w & rest & -> & Hw & Hk).
      exists w, rest, caps. split; [done|]. split; [by constructor|done].
  - destruct (IH _ _ _ _ _ H) as (w & rest & caps' & -> & Hs & Hk).
    exists w, rest, (<[n := w]> caps'). split; [done|].
    split; [by constructor|].
    replace (pos + length w - pos)%nat with (length w) in Hk by lia.
    rewrite take_app_length in Hk. done.
  - destruct (Nat.eqb_spec pos 0) as [->|]; [|done].
    exists [], s, caps. split; [done|]. split; [constructor|done].
  - destruct s; [|done].
    exists [], [], caps. rewrite Nat.add_0_r. split; [done|].
    split; [constructor|done].
Qed.

(** *** The matcher misses no match *)

Lemma star_greedy_complete p pos s k :
  star_greedy p pos s k = None →
  ∀ w rest, s = w ++ rest → Forall (λ c, p c = true) w →
            k (pos + length w)%nat rest = None.
Proof.
  revert pos. induction s as [|c s IH]; intros pos H w rest Hs Hw;
    simpl in H.
  - symmetry in Hs. apply app_eq_nil in Hs as [-> ->].
    by rewrite Nat.add_0_r.
  - destruct w as [|c' w].
    + simpl in Hs. subst rest. rewrite Nat.add_0_r.
      destruct (p c); [|done].
      by destruct (star_greedy p (S pos) s k).
    + injection Hs as <- ->. apply Forall_cons in Hw as [Hc Hw].
      rewrite Hc in H.
      destruct (star_greedy p (S pos) (w ++ rest) k) eqn:Hrec; [done|].
      simpl length. rewrite Nat.add_succ_r. by apply (IH (S pos)).
Qed.

Lemma star_lazy_complete p pos s k :
  star_lazy p pos s k = None →
  ∀ w rest, s = w ++ rest → Forall (λ c, p c = true) w →
            k (pos + length w)%nat rest = None.
Proof.
  revert pos. induction s as [|c s IH]; intros pos H w rest Hs Hw;
    simpl in H.
  - symmetry in Hs. apply app_eq_nil in Hs as [-> ->].
    rewrite Nat.add_0_r. by destruct (k pos []).
  - destruct (k pos (c :: s)) eqn:Hk; [done|].
    destruct w as [|c' w].
    + simpl in Hs. subst rest. by rewrite Nat.add_0_r.
    + injection Hs as <- ->. apply Forall_cons in Hw as [Hc Hw].
      rewrite Hc in H. simpl length. rewrite Nat.add_succ_r.
      by apply (IH (S pos)).
Qed.

Lemma run_complete r pos s caps k :
  run r pos s caps k = None →
  ∀ w rest caps', s = w ++ rest → sem r pos w rest caps caps' →
                  k (pos + length w)%nat rest caps' = None.
Proof.
  revert pos s caps k.
  induction r as [|p|r1 IH1 r2 IH2|r1 IH1 r2 IH2|g p|n r IH| |];
    intros pos s caps k H w rest caps' Hs Hsem; simpl in H;
    inversion Hsem; subst; clear Hsem.
  - by rewrite Nat.add_0_r.
  - simpl in H. match goal with Hp : p _ = true |- _ => rewrite Hp in H end.
    simpl length. by rewrite Nat.add_1_r.
  - rewrite length_app, Nat.add_assoc.
    eapply IH2; [|reflexivity|eassumption].
    eapply (IH1 _ _ _ _ H); [|eassumption]. by rewrite app_assoc.
  - destruct (run r1 pos (w ++ rest) caps k) eqn:H1; [done|].
    by eapply IH1.
  - destruct (run r1 pos (w ++ rest) caps k) eqn:H1; [done|].
    by eapply IH2.
  - destruct g.
    + by eapply (star_greedy_complete _ _ _ _ H).
    + by eapply (star_lazy_complete _ _ _ _ H).
  - match goal with Hr : sem r _ _ _ _ _ |- _ =>
      pose proof (IH _ _ _ _ H _ _ _ eq_refl Hr) as Hk end.
    simpl in Hk.
    replace (pos + length w - pos)%nat with (length w) in Hk by lia.
    by rewrite take_app_length in Hk.
  - done.
  - by rewrite Nat.add_0_r.
Qed.

(** *** [exec] *)

Lemma exec_from_unfold r pos s :
  exec_from r pos s
  = match run r pos s ∅ accept with
    | Some (e, caps) => Some (mkMatch pos e caps)
    | None =>
        match s with
        | [] => None
        | _ :: s' => exec_from r (S pos) s'
        end
    end.
Proof. by destruct s. Qed.

Lemma exec_from_sound r pos s m :
  exec_from r pos s = Some m →
  ∃ pre w rest,
    s = pre ++ w ++ rest
    ∧ index m = (pos + length pre)%nat
    ∧ last m = (index m + length w)%nat
    ∧ sem r (index m) w rest ∅ (groups m).
Proof.
  revert pos. induction s as [|c s IH]; intros pos H; simpl in H.
  - destruct (run r pos [] ∅ accept) as [[e caps]|] eqn:Hrun; [|done].
    injection H as <-.
    destruct (run_sound _ _ _ _ _ _ Hrun) as (w & rest & caps' & Hs & Hsem & Hk).
    injection Hk as <- <-.
    exists [], w, rest. simpl. rewrite Nat.add_0_r. done.
  - destruct (run r pos (c :: s) ∅ accept) as [[e caps]|] eqn:Hrun.
    + injection H as <-.
      destruct (run_sound _ _ _ _ _ _ Hrun)
        as (w & rest & caps' & Hs & Hsem & Hk).
      injection Hk as <- <-.
      exists [], w, rest. simpl. rewrite Nat.add_0_r. done.
    + destruct (IH _ H) as (pre & w & rest & -> & Hi & Hl & Hsem).
      exists (c :: pre), w, rest. simpl length.
      rewrite Nat.add_succ_r. done.
Qed.

Lemma exec_from_complete r pos s :
  exec_from r pos s = None →
  ∀ pre w rest caps', s = pre ++ w ++ rest →
                      ¬ sem r (pos + length pre) w rest ∅ caps'.
Proof.
  revert pos. induction s as [|c s IH]; intros pos H pre w rest caps' Hs Hsem;
    simpl in H.
  - destruct (run r pos [] ∅ accept) as [[e caps]|] eqn:Hrun; [done|].
    symmetry in Hs. apply app_eq_nil in Hs as [-> Hs].
    rewrite Nat.add_0_r in Hsem.
    by pose proof (run_complete _ _ _ _ _ Hrun _ _ _ (eq_sym Hs) Hsem).
  - destruct (run r pos (c :: s) ∅ accept) as [[e caps]|] eqn:Hrun; [done|].
    destruct pre as [|c' pre].
    + rewrite Nat.add_0_r in Hsem. simpl in Hs.
      by pose proof (run_complete _ _ _ _ _ Hrun _ _ _ Hs Hsem).
    + injection Hs as <- ->. simpl length in Hsem.
      rewrite Nat.add_succ_r in Hsem. by eapply (IH (S pos)).
Qed.

Lemma exec_sound r s m :
  exec r s = Some m →
  ∃ pre w rest,
    s = pre ++ w ++ rest
    ∧ index m = length pre
    ∧ last m = (length pre + length w)%nat
    ∧ matched s m = w
    ∧ sem r (length pre) w rest ∅ (groups m).
Proof.
  intros H. destruct (exec_from_sound _ _ _ _ H)
    as (pre & w & rest & -> & Hi & Hl & Hsem).
  simpl in Hi. exists pre, w, rest. rewrite Hi in Hl, Hsem.
  repeat split; try done.
  unfold matched. rewrite Hi, Hl.
  replace (length pre + length w - length pre)%nat with (length w) by lia.
  rewrite drop_app_length. apply take_app_length.
Qed.

Lemma exec_complete r s :
  exec r s = None →
  ∀ pre w rest caps', s = pre ++ w ++ rest →
                      ¬ sem r (length pre) w rest ∅ caps'.
Proof. intros H. apply (exec_from_complete r 0 s H). Qed.

(** *** Priorities *)

Lemma run_cat r1 r2 pos s caps k :
  run (Cat r1 r2) pos s caps k
  = run r1 pos s caps (λ pos' s' caps', run r2 pos' s' caps' k).
Proof. reflexivity. Qed.

(** A lazy star stops at the first repetition count for which the rest
    of the pattern succeeds. *)
Lemma star_lazy_first p pos s k res :
  star_lazy p pos s k = Some res →
  ∃ w rest, s = w ++ rest ∧ Forall (λ c, p c = true) w
            ∧ k (pos + length w)%nat rest = Some res
            ∧ ∀ w0 rest0, s = w0 ++ rest0 → (length w0 < length w)%nat →
                          k (pos + length w0)%nat rest0 = None.
Proof.
  revert pos. induction s as [|c s IH]; intros pos H; simpl in H.
  - destruct (k pos []) eqn:Hk; [|done]. injection H as <-.
    exists [], []. rewrite Nat.add_0_r. repeat split; try done.
    intros w0 rest0 _ Hlt. simpl in Hlt. lia.
  - destruct (k pos (c :: s)) eqn:Hk.
    + injection H as <-. exists [], (c :: s). rewrite Nat.add_0_r.
      repeat split; try done. intros w0 rest0 _ Hlt. simpl in Hlt. lia.
    + destruct (p c) eqn:Hc; [|done].
      destruct (IH _ H) as (w & rest & -> & Hw & Hk' & Hmin).
      exists (c :: w), rest. split; [done|]. split; [by constructor|].
      simpl length. rewrite Nat.add_succ_r. split; [done|].
      intros w0 rest0 Hs Hlt. destruct w0 as [|c0 w0].
      * simpl in Hs. subst rest0. by rewrite Nat.add_0_r.
      * injection Hs as <- Hs. simpl length in *. rewrite Nat.add_succ_r.
        apply (Hmin w0 rest0 Hs). lia.
Qed.

Lemma run_lazy_group n p r2 pos s caps k res :
  run (Cat (Group n (Star false p)) r2) pos s caps k = Some res →
  ∃ w rest,
    s = w ++ rest
    ∧ run r2 (pos + length w) rest (<[n := w]> caps) k = Some res
    ∧ ∀ w0 rest0, s = w0 ++ rest0 → (length w0 < length w)%nat →
                  run r2 (pos + length w0) rest0 (<[n := w0]> caps) k = None.
Proof.
  intros H. rewrite run_cat in H. cbn [run] in H.
  apply star_lazy_first in H as (w & rest & -> & _ & Hk & Hmin).
  exists w, rest. split; [done|].
  replace (pos + length w - pos)%nat with (length w) in Hk by lia.
  rewrite take_app_length in Hk. split; [done|].
  intros w0 rest0 Hs Hlt. specialize (Hmin w0 rest0 Hs Hlt). cbv beta in Hmin.
  replace (pos + length w0 - pos)%nat with (length w0) in Hmin by lia.
  by rewrite Hs, take_app_length in Hmin.
Qed.

(** *** Reading the pattern syntax *)

Lemma sem_str l pos w rest caps caps' :
  sem (str l) pos w rest caps caps' → w = l ∧ caps' = caps.
Proof.
  revert pos w caps caps'. induction l as [|c l IH]; intros pos w caps caps' H;
    simpl in H.
  - by inversion H.
  - inversion H as [| |? ? ? w1 w2 ? ? caps1 ? H1 H2| | | | | |]; subst.
    inversion H1 as [|? c' ? ? ? Hc| | | | | | |]; subst.
    apply N.eqb_eq in Hc as <-.
    destruct (IH _ _ _ _ H2) as [-> ->]. done.
Qed.

Lemma str_sem l pos rest caps : sem (str l) pos l rest caps caps.
Proof.
  revert pos. induction l as [|c l IH]; intros pos; simpl.
  - constructor.
  - change (c :: l) with ([c] ++ l). econstructor.
    + constructor. apply N.eqb_refl.
    + apply IH.
Qed.

Lemma sem_plus p pos w rest caps caps' :
  sem (plus p) pos w rest caps caps' →
  w ≠ [] ∧ Forall (λ c, p c = true) w ∧ caps' = caps.
Proof.
  intros H.
  inversion H as [| |? ? ? w1 w2 ? ? caps1 ? H1 H2| | | | | |]; subst.
  inversion H1; subst. inversion H2; subst.
  split; [done|]. split; [by constructor|done].
Qed.

Lemma plus_sem (p : N → bool) pos w rest caps :
  w ≠ [] → Forall (λ c, p c = true) w → sem (plus p) pos w rest caps caps.
Proof.
  intros Hne Hw. destruct w as [|c w]; [done|].
  apply Forall_cons in Hw as [Hc Hw].
  change (c :: w) with ([c] ++ w). econstructor; by constructor.
Qed.

Lemma sem_star_inv g p pos w rest caps caps' :
  sem (Star g p) pos w rest caps caps' →
  Forall (λ c, p c = true) w ∧ caps' = caps.
Proof. intros H. by inversion H. Qed.

Lemma sem_opt_chr c pos w rest caps caps' :
  sem (opt (chr c)) pos w rest caps caps' →
  (w = [] ∨ w = [c]) ∧ caps' = caps.
Proof.
  intros H. inversion H as [| | |? ? ? ? ? ? ? H1|? ? ? ? ? ? ? H1| | | |];
    subst; inversion H1; subst.
  - match goal with Hc : (c =? _)%N = true |- _ =>
      apply N.eqb_eq in Hc as <- end.
    split; [by right|done].
  - split; [by left|done].
Qed.

Lemma sem_chr_inv c pos w rest caps caps' :
  sem (chr c) pos w rest caps caps' → w = [c] ∧ caps' = caps.
Proof.
  intros H. inversion H; subst.
  match goal with Hc : (c =? _)%N = true |- _ =>
    apply N.eqb_eq in Hc as <- end. done.
Qed.

End RegexFacts.

(** ** The notes loader *)

Module NotesFacts.
Import JS Regex RegexFacts Notes.

(** [ext] is [.md] or [.mdx] in any mix of cases. *)
Definition markdown_extension (ext : jstring) : bool :=
  match ext with
  | [dot; m; d] =>
      (dot =? 0x2E)%N && ((m =? 0x6D)%N || (m =? 0x4D)%N)
      && ((d =? 0x64)%N || (d =? 0x44)%N)
  | [dot; m; d; x] =>
      (dot =? 0x2E)%N && ((m =? 0x6D)%N || (m =? 0x4D)%N)
      && ((d =? 0x64)%N || (d =? 0x44)%N)
      && ((x =? 0x78)%N || (x =? 0x58)%N)
  | _ => false
  end.

Definition has_markdown_extension (name : jstring) : Prop :=
  ∃ stem ext, name = stem ++ ext ∧ markdown_extension ext = true.

Lemma sem_letter lo up pos w rest caps caps' :
  sem (letter lo up) pos w rest caps caps' →
  ∃ c, w = [c] ∧ ((c =? lo)%N || (c =? up)%N) = true ∧ caps' = caps.
Proof. intros H. inversion H; subst. by eexists. Qed.

Lemma letter_sem lo up c pos rest caps :
  ((c =? lo)%N || (c =? up)%N) = true →
  sem (letter lo up) pos [c] rest caps caps.
Proof. intros H. by constructor. Qed.

Lemma sem_markdown pos w rest caps caps' :
  sem MARKDOWN_PATTERN pos w rest caps caps' →
  markdown_extension w = true ∧ rest = [].
Proof.
  unfold MARKDOWN_PATTERN. intros H.
  inversion H as [| |? ? ? w1 w2 ? ? caps1 ? Hdot H2| | | | | |]; subst.
  apply sem_chr_inv in Hdot as [-> ->].
  inversion H2 as [| |? ? ? w3 w4 ? ? caps3 ? Hg He| | | | | |]; subst.
  inversion He; subst.
  inversion Hg as [| | | | | |? ? ? ? ? ? ? Halt| |]; subst.
  inversion Halt as [| | |? ? ? ? ? ? ? Hmd|? ? ? ? ? ? ? Hmdx| | | |]; subst.
  - inversion Hmd as [| |? ? ? ? ? ? ? ? ? Hm Hd| | | | | |]; subst.
    apply sem_letter in Hm as (m & -> & Hm & _).
    apply sem_letter in Hd as (d & -> & Hd & _).
    simpl. rewrite Hm, Hd. done.
  - inversion Hmdx as [| |? ? ? ? ? ? ? ? ? Hm Hdx| | | | | |]; subst.
    inversion Hdx as [| |? ? ? ? ? ? ? ? ? Hd Hx| | | | | |]; subst.
    apply sem_letter in Hm as (m & -> & Hm & _).
    apply sem_letter in Hd as (d & -> & Hd & _).
    apply sem_letter in Hx as (x & -> & Hx & _).
    simpl. rewrite Hm, Hd, Hx. done.
Qed.

Lemma markdown_sem pos ext caps :
  markdown_extension ext = true →
  ∃ caps', sem MARKDOWN_PATTERN pos ext [] caps caps'.
Proof.
  intros H. unfold markdown_extension in H.
  destruct ext as [|dot [|m [|d [|x [|? ?]]]]]; try done.
  - apply andb_true_iff in H as [H Hd]. apply andb_true_iff in H as [Hdot Hm].
    apply N.eqb_eq in Hdot as ->. eexists. unfold MARKDOWN_PATTERN.
    change [0x2E%N; m; d] with ([0x2E%N] ++ ([m] ++ [d]) ++ []).
    econstructor; [constructor; apply N.eqb_refl|].
    econstructor; [|constructor].
    constructor. apply sem_alt_l.
    econstructor; by apply letter_sem.
  - apply andb_true_iff in H as [H Hx]. apply andb_true_iff in H as [H Hd].
    apply andb_true_iff in H as [Hdot Hm].
    apply N.eqb_eq in Hdot as ->. eexists. unfold MARKDOWN_PATTERN.
    change [0x2E%N; m; d; x] with ([0x2E%N] ++ ([m] ++ [d] ++ [x]) ++ []).
    econstructor; [constructor; apply N.eqb_refl|].
    econstructor; [|constructor].
    constructor. apply sem_alt_r.
    econstructor; [by apply letter_sem|].
    econstructor; by apply letter_sem.
Qed.

(** A name ends in at most one markdown extension. *)
Lemma markdown_extension_unique stem1 ext1 stem2 ext2 :
  stem1 ++ ext1 = stem2 ++ ext2 →
  markdown_extension ext1 = true → markdown_extension ext2 = true →
  stem1 = stem2 ∧ ext1 = ext2.
Proof.
  intros Heq H1 H2.
  destruct (decide (length ext1 = length ext2)) as [Hlen|Hlen].
  { by apply app_inj_2. }
  exfalso.
  destruct ext1 as [|a1 [|b1 [|c1 [|d1 [|? ?]]]]]; try done;
  destruct ext2 as [|a2 [|b2 [|c2 [|d2 [|? ?]]]]]; try done.
  - change [a2; b2; c2; d2] with ([a2] ++ [b2; c2; d2]) in Heq.
    rewrite app_assoc in Heq. apply app_inj_2 in Heq as [_ Heq]; [|done].
    injection Heq as -> -> ->. simpl in H1, H2.
    repeat match goal with
           | H : _ && _ = true |- _ => apply andb_true_iff in H as [? ?]
           | H : _ || _ = true |- _ => apply orb_true_iff in H as [?|?]
           | H : (_ =? _)%N = true |- _ => apply N.eqb_eq in H
           end; lia.
  - change [a1; b1; c1; d1] with ([a1] ++ [b1; c1; d1]) in Heq.
    rewrite app_assoc in Heq. apply app_inj_2 in Heq as [_ Heq]; [|done].
    injection Heq as <- <- <-. simpl in H1, H2.
    repeat match goal with
           | H : _ && _ = true |- _ => apply andb_true_iff in H as [? ?]
           | H : _ || _ = true |- _ => apply orb_true_iff in H as [?|?]
           | H : (_ =? _)%N = true |- _ => apply N.eqb_eq in H
           end; lia.
Qed.

(** [MARKDOWN_PATTERN.test(name)] holds exactly of the names that end in a
    markdown extension. *)
Lemma test_markdown name :
  test MARKDOWN_PATTERN name = true ↔ has_markdown_extension name.
Proof.
  unfold test. split.
  - destruct (exec MARKDOWN_PATTERN name) as [m|] eqn:He; [|done]. intros _.
    destruct (exec_sound _ _ _ He) as (pre & w & rest & -> & _ & _ & _ & Hsem).
    apply sem_markdown in Hsem as [Hw ->].
    exists pre, w. by rewrite app_nil_r.
  - intros (stem & ext & -> & Hext).
    destruct (exec MARKDOWN_PATTERN (stem ++ ext)) as [m|] eqn:He; [done|].
    destruct (markdown_sem (length stem) ext ∅ Hext) as [caps' Hsem].
    exfalso. eapply (exec_complete _ _ He stem ext []); [|exact Hsem].
    by rewrite app_nil_r.
Qed.

(** [name.replace(MARKDOWN_PATTERN, "")] strips the extension. *)
Lemma remove_first_markdown stem ext :
  markdown_extension ext = true →
  remove_first MARKDOWN_PATTERN (stem ++ ext) = stem.
Proof.
  intros Hext. unfold remove_first.
  destruct (exec MARKDOWN_PATTERN (stem ++ ext)) as [m|] eqn:He.
  - destruct (exec_sound _ _ _ He)
      as (pre & w & rest & Hs & Hi & Hl & _ & Hsem).
    apply sem_markdown in Hsem as [Hw ->]. rewrite app_nil_r in Hs.
    destruct (markdown_extension_unique _ _ _ _ Hs Hext Hw) as [-> ->].
    rewrite Hi, Hl. rewrite take_app_length.
    rewrite <- length_app, drop_all. apply app_nil_r.
  - destruct (markdown_sem (length stem) ext ∅ Hext) as [caps' Hsem].
    exfalso. eapply (exec_complete _ _ He stem ext []); [|exact Hsem].
    by rewrite app_nil_r.
Qed.


Section Loading.
Variable toUpperCase : jstring → jstring.
Variable marked_parse : jstring → outcome jstring.
Variable introMarkdown : jstring.

(** The file passes both filters of [load]. *)
Definition listed (f : GitHubFile) : bool :=
  is_markdown_file f && truthy_url (download_url f).

Definition hyphen_or_underscore (c : N) : bool :=
  (c =? 0x2D)%N || (c =? 0x5F)%N.

Lemma select_articles_listed files :
  select_articles toUpperCase files
  = map (to_article toUpperCase) (filter (λ f, listed f = true) files).
Proof.
  unfold select_articles.
  induction files as [|f files IH]; [done|].
  rewrite !filter_cons.
  destruct (decide (is_markdown_file f = true)) as [Hmd|Hmd];
    destruct (decide (listed f = true)) as [Hl|Hl];
    unfold listed in Hl; simpl map; rewrite ?filter_cons; simpl article_url.
  - apply andb_true_iff in Hl as [_ Hu]. rewrite decide_True by done.
    by rewrite IH.
  - rewrite Hmd in Hl. simpl in Hl. rewrite decide_False by done. exact IH.
  - apply andb_true_iff in Hl as [Hl _]. done.
  - exact IH.
Qed.

Lemma listed_spec f :
  listed f = true ↔
  type f = lit "file" ∧ has_markdown_extension (name f)
  ∧ ∃ u, download_url f = Some u ∧ u ≠ [].
Proof.
  unfold listed, is_markdown_file.
  rewrite !andb_true_iff, bool_decide_eq_true, test_markdown.
  split.
  - intros [[Ht Hn] Hu]. split; [done|]. split; [done|].
    destruct (download_url f) as [[|c u]|]; try done. by eexists.
  - intros (Ht & Hn & u & -> & Hu). split; [done|].
    by destruct u.
Qed.

(** C8, amended: when the listing request succeeds (and the static
    introduction renders), the articles are, in listing order, the
    entries whose [type] is ["file"], whose name ends in [.md] or [.mdx]
    in any case, and whose [download_url] is truthy: neither [null] nor
    the empty string.  The slug of such an article is the file name
    without that extension; its title is the slug split at hyphens and
    underscores, each chunk with its first code unit upper-cased, the
    chunks joined by single spaces; URL and path are copied. *)
Theorem load_articles (status : Z) (files : list GitHubFile) (html : jstring) :
  marked_parse introMarkdown = Returned html →
  load toUpperCase marked_parse introMarkdown
       (Answered true status (Returned files))
  = (mkData (map (to_article toUpperCase)
                 (filter (λ f, listed f = true) files))
            (Some html), [])
  ∧ (∀ f, listed f = true ↔
          type f = lit "file" ∧ has_markdown_extension (name f)
          ∧ ∃ u, download_url f = Some u ∧ u ≠ [])
  ∧ (∀ f stem ext,
       name f = stem ++ ext → markdown_extension ext = true →
       slug (to_article toUpperCase f) = stem
       ∧ title (to_article toUpperCase f)
         = join_space
             (map (λ chunk, toUpperCase (take 1 chunk) ++ drop 1 chunk)
                  (split_on hyphen_or_underscore stem))
       ∧ article_url (to_article toUpperCase f) = download_url f
       ∧ article_path (to_article toUpperCase f) = path f).
Proof.
  intros Hintro. split; [|split].
  - unfold load. simpl negb. cbv iota. rewrite Hintro.
    by rewrite select_articles_listed.
  - exact listed_spec.
  - intros f stem ext Hname Hext. unfold to_article, formatTitle. simpl.
    rewrite Hname, remove_first_markdown by done. done.
Qed.

End Loading.

Definition upper_ascii (s : jstring) : jstring :=
  map (λ c, if ((0x61 <=? c) && (c <=? 0x7A))%N then (c - 32)%N else c) s.

Definition sample_file : GitHubFile :=
  mkFile (lit "my-first_note.MD") (lit "notes/my-first_note.MD") (lit "file")
         (Some (lit "https://example.org/raw/my-first_note.MD")).

Lemma load_articles_witness :
  (load upper_ascii Returned []
        (Answered true 200 (Returned [sample_file]))).1
  = mkData [mkArticle (lit "My First Note") (lit "my-first_note")
                      (download_url sample_file) (path sample_file)]
           (Some []).
Proof.
  destruct (load_articles upper_ascii Returned [] 200 [sample_file] []
              eq_refl) as (-> & _ & _).
  reflexivity.
Defined.

(** C8, as stated, fails for an entry whose [download_url] is the empty
    string: it is a file, its name matches the pattern and its URL is not
    [null], yet [Boolean("")] is false and the entry is dropped. *)
Lemma load_drops_empty_url :
  let f := mkFile (lit "a.md") (lit "a.md") (lit "file") (Some []) in
  type f = lit "file"
  ∧ test MARKDOWN_PATTERN (name f) = true
  ∧ download_url f ≠ None
  ∧ articles (load upper_ascii Returned []
                   (Answered true 200 (Returned [f]))).1 = [].
Proof. repeat split; try done; vm_compute; reflexivity. Qed.

End NotesFacts.

(** ** The article viewer *)

Module MainSectionFacts.
Import JS Regex RegexFacts MainSection.

(** *** Front matter *)

(** The part of the pattern after the capturing group. *)
Definition closing : re :=
  Cat (opt (chr CR))
  (Cat (chr LF)
  (Cat (str (lit "---"))
  (Cat (Star true is_space)
       (Alt (plus is_newline) Eos)))).

Lemma FRONT_MATTER_PATTERN_parts :
  FRONT_MATTER_PATTERN
  = Cat Bos
    (Cat (str (lit "---"))
    (Cat (Star true is_space)
    (Cat (plus is_newline)
    (Cat (Group 1 (Star false any_char)) closing)))).
Proof. reflexivity. Qed.

(** An opening delimiter: [---], white space, and at least one line
    break. *)
Definition opening_delimiter (opener : jstring) : Prop :=
  ∃ ws nls,
    opener = lit "---" ++ ws ++ nls
    ∧ Forall (λ c, is_space c = true) ws
    ∧ nls ≠ [] ∧ Forall (λ c, is_newline c = true) nls.

(** A closing delimiter followed by [rest]: a line break, [---], white
    space, and then line breaks or the end of the input. *)
Definition closing_delimiter (close rest : jstring) : Prop :=
  ∃ cr ws tail,
    close = cr ++ [LF] ++ lit "---" ++ ws ++ tail
    ∧ (cr = [] ∨ cr = [CR])
    ∧ Forall (λ c, is_space c = true) ws
    ∧ (tail ≠ [] ∧ Forall (λ c, is_newline c = true) tail
       ∨ tail = [] ∧ rest = []).

(** After the opening delimiter [opener], [md] continues with the text
    [raw] and a closing delimiter; [full] is the whole block and [rest]
    what follows it. *)
Definition front_matter_after (opener md full raw rest : jstring) : Prop :=
  ∃ close,
    md = full ++ rest ∧ full = opener ++ raw ++ close
    ∧ closing_delimiter close rest.

(** [md] starts with a front-matter block. *)
Definition front_matter (md full raw rest : jstring) : Prop :=
  ∃ opener, opening_delimiter opener
            ∧ front_matter_after opener md full raw rest.

Ltac inv_cat H H1 :=
  let T := fresh "T" in
  inversion H as [| |? ? ? ? ? ? ? ? ? H1 T| | | | | |]; subst; clear H;
  rename T into H.

Lemma sem_closing pos w rest caps caps' :
  sem closing pos w rest caps caps' →
  closing_delimiter w rest ∧ caps' = caps.
Proof.
  unfold closing. intros H.
  inv_cat H Hcr. apply sem_opt_chr in Hcr as [Hcr ->].
  inv_cat H Hlf. apply sem_chr_inv in Hlf as [-> ->].
  inv_cat H Hd. apply (sem_str (lit "---")) in Hd as [-> ->].
  inv_cat H Hws. apply sem_star_inv in Hws as [Hws ->].
  inversion H as [| | |? ? ? ? ? ? ? Ht|? ? ? ? ? ? ? Ht| | | |]; subst;
    clear H.
  - apply sem_plus in Ht as (Ht0 & Ht & ->). split; [|done].
    eexists _, _, _. split; [reflexivity|]. repeat split; try done. by left.
  - inversion Ht; subst. split; [|done].
    eexists _, _, _. split; [reflexivity|]. repeat split; try done. by right.
Qed.

Lemma closing_sem pos w rest caps :
  closing_delimiter w rest → sem closing pos w rest caps caps.
Proof.
  intros (cr & ws & tail & -> & Hcr & Hws & Htail). unfold closing.
  econstructor.
  { destruct Hcr as [-> | ->].
    - apply sem_alt_r. constructor.
    - apply sem_alt_l. constructor. apply N.eqb_refl. }
  econstructor; [constructor; apply N.eqb_refl|].
  econstructor; [apply str_sem|].
  econstructor; [by constructor|].
  destruct Htail as [[Ht0 Ht] | [-> ->]].
  - apply sem_alt_l. by apply plus_sem.
  - apply sem_alt_r. constructor.
Qed.

Lemma sem_front_matter pos w rest caps' :
  sem FRONT_MATTER_PATTERN pos w rest ∅ caps' →
  pos = 0%nat ∧ ∃ raw, caps' !! 1%nat = Some raw
                       ∧ front_matter (w ++ rest) w raw rest.
Proof.
  rewrite FRONT_MATTER_PATTERN_parts. intros H.
  inv_cat H Hbos. inversion Hbos; subst; clear Hbos.
  inv_cat H Hd1. apply (sem_str (lit "---")) in Hd1 as [-> ->].
  inv_cat H Hws1. apply sem_star_inv in Hws1 as [Hws1 ->].
  inv_cat H Hnl. apply sem_plus in Hnl as (Hnl0 & Hnl & ->).
  inv_cat H Hg.
  inversion Hg as [| | | | | |? ? ? ? ? ? ? Hraw| |]; subst; clear Hg.
  apply sem_star_inv in Hraw as [_ ->].
  apply sem_closing in H as [Hclose ->].
  split; [done|]. eexists. split; [apply lookup_insert_eq|].
  eexists. split; [by eexists _, _|].
  eexists. split; [reflexivity|]. split; [|done].
  simpl. by rewrite <- !app_assoc.
Qed.

Lemma front_matter_sem md full raw rest :
  front_matter md full raw rest →
  ∃ caps', sem FRONT_MATTER_PATTERN 0 full rest ∅ caps'.
Proof.
  intros (opener & (ws & nls & -> & Hws & Hnl0 & Hnl)
          & close & -> & -> & Hclose).
  eexists. rewrite FRONT_MATTER_PATTERN_parts.
  rewrite <- !app_assoc.
  change (lit "---" ++ ws ++ nls ++ raw ++ close)
    with ([] ++ lit "---" ++ ws ++ nls ++ raw ++ close).
  econstructor; [constructor|].
  econstructor; [apply str_sem|].
  econstructor; [by constructor|].
  econstructor; [by apply plus_sem|].
  econstructor; [constructor; constructor; by apply Forall_true|].
  by apply closing_sem.
Qed.

(** The pattern can only match at the start of the input. *)
Lemma exec_front_matter_run md m :
  exec FRONT_MATTER_PATTERN md = Some m →
  index m = 0%nat
  ∧ Regex.run FRONT_MATTER_PATTERN 0 md ∅ accept
    = Some (last m, groups m).
Proof.
  unfold exec. intros H.
  assert (∀ s, exec_from FRONT_MATTER_PATTERN 1 s = Some m → False) as Hlate.
  { intros s Hs.
    destruct (exec_from_sound _ _ _ _ Hs) as (pre & w & rest & _ & Hi & _ & Hsem).
    apply sem_front_matter in Hsem as [Hpos _]. lia. }
  rewrite exec_from_unfold in H.
  destruct (Regex.run FRONT_MATTER_PATTERN 0 md ∅ accept)
    as [[e caps]|] eqn:Hrun.
  - by injection H as <-.
  - destruct md as [|c md]; [done|]. by apply Hlate in H.
Qed.

(** What a match consists of: an opening delimiter, the captured text up
    to the first closing delimiter after it, and that delimiter. *)
Lemma run_front_matter md e caps :
  Regex.run FRONT_MATTER_PATTERN 0 md ∅ accept = Some (e, caps) →
  ∃ opener raw close rest,
    md = opener ++ raw ++ close ++ rest
    ∧ opening_delimiter opener ∧ closing_delimiter close rest
    ∧ caps !! 1%nat = Some raw
    ∧ e = length (opener ++ raw ++ close)
    ∧ ∀ raw0 close0 rest0,
        raw ++ close ++ rest = raw0 ++ close0 ++ rest0 →
        closing_delimiter close0 rest0 →
        (length raw ≤ length raw0)%nat.
Proof.
  rewrite FRONT_MATTER_PATTERN_parts. intros H.
  rewrite run_cat in H.
  apply run_sound in H as (w & s1 & c1 & -> & Hsem & H).
  inversion Hsem; subst; clear Hsem. cbv beta in H.
  rewrite run_cat in H.
  apply run_sound in H as (w & s2 & c2 & -> & Hsem & H).
  apply (sem_str (lit "---")) in Hsem as [-> ->]. cbv beta in H.
  rewrite run_cat in H.
  apply run_sound in H as (ws & s3 & c3 & -> & Hsem & H).
  apply sem_star_inv in Hsem as [Hws ->]. cbv beta in H.
  rewrite run_cat in H.
  apply run_sound in H as (nls & s4 & c4 & -> & Hsem & H).
  apply sem_plus in Hsem as (Hnl0 & Hnl & ->). cbv beta in H.
  apply run_lazy_group in H as (raw & s5 & -> & H & Hmin).
  apply run_sound in H as (close & rest & c5 & -> & Hsem & H).
  apply sem_closing in Hsem as [Hclose ->].
  injection H as <- <-.
  exists (lit "---" ++ ws ++ nls), raw, close, rest.
  split; [simpl; by rewrite <- !app_assoc|].
  split; [by eexists _, _|]. split; [done|].
  split; [apply lookup_insert_eq|].
  split; [rewrite !length_app; simpl; lia|].
  intros raw0 close0 rest0 Heq Hclose0.
  destruct (le_lt_dec (length raw) (length raw0)) as [|Hlt]; [done|].
  exfalso.
  specialize (Hmin raw0 (close0 ++ rest0) Heq Hlt).
  pose proof (run_complete _ _ _ _ _ Hmin close0 rest0 _ eq_refl
                (closing_sem _ _ _ _ Hclose0)) as Hacc.
  discriminate Hacc.
Qed.

(** The match [exec] returns. *)
Lemma exec_front_matter md m :
  exec FRONT_MATTER_PATTERN md = Some m →
  ∃ opener raw rest,
    groups m !! 1%nat = Some raw
    ∧ md = matched md m ++ rest
    ∧ opening_delimiter opener
    ∧ front_matter_after opener md (matched md m) raw rest
    ∧ ∀ full0 raw0 rest0,
        front_matter_after opener md full0 raw0 rest0 →
        (length raw ≤ length raw0)%nat.
Proof.
  intros H. destruct (exec_front_matter_run md m H) as [Hi Hrun].
  destruct (run_front_matter md _ _ Hrun)
    as (opener & raw & close & rest & Hmd & Hop & Hcl & Hraw & He & Hmin).
  assert (matched md m = opener ++ raw ++ close) as Hm.
  { unfold matched. rewrite Hi, Nat.sub_0_r, He. simpl drop.
    rewrite Hmd.
    replace (opener ++ raw ++ close ++ rest)
      with ((opener ++ raw ++ close) ++ rest) by (by rewrite <- !app_assoc).
    apply take_app_length. }
  exists opener, raw, rest. split; [done|].
  assert (md = matched md m ++ rest) as Hsplit.
  { rewrite Hm, Hmd. by rewrite <- !app_assoc. }
  split; [done|]. split; [done|]. split.
  { exists close. rewrite Hm. split; [|done]. by rewrite <- Hm. }
  intros full0 raw0 rest0 (close0 & Hmd0 & -> & Hcl0).
  apply (Hmin raw0 close0 rest0); [|done].
  rewrite Hmd in Hmd0. rewrite <- !app_assoc in Hmd0.
  by apply app_inv_head in Hmd0.
Qed.

Lemma exec_front_matter_None md :
  exec FRONT_MATTER_PATTERN md = None ↔
  ¬ ∃ full raw rest, front_matter md full raw rest.
Proof.
  split.
  - intros H (full & raw & rest & Hfm).
    destruct (front_matter_sem _ _ _ _ Hfm) as [caps' Hsem].
    destruct Hfm as (? & _ & ? & Hmd & _).
    by apply (exec_complete _ _ H [] full rest caps').
  - intros Hno. destruct (exec FRONT_MATTER_PATTERN md) as [m|] eqn:H; [|done].
    destruct (exec_front_matter md m H)
      as (opener & raw & rest & _ & _ & Hop & Hfm & _).
    exfalso. apply Hno. exists (matched md m), raw, rest, opener. done.
Qed.

(** A string with a front-matter block passes the first test of
    [parseFrontMatter]. *)
Lemma front_matter_startsWith md full raw rest :
  front_matter md full raw rest →
  startsWith (trimStart md) (lit "---") = true.
Proof.
  intros (opener & (ws & nls & -> & _) & close & -> & -> & _).
  vm_compute. reflexivity.
Qed.

Definition unchanged (md : jstring) : parsed * console :=
  (mkParsed md None, []).

(** C7, amended: [parseFrontMatter] returns its input unchanged, without
    metadata, when the input does not start (after leading white space)
    with [---] and when it has no front-matter block, which is exactly
    when the pattern fails to match.  When the input starts with a
    front-matter block (an opening delimiter [--- ws newlines], a text,
    and a closing delimiter [(CR)? LF --- ws (newlines | end)]), the
    pattern matches such a block, whose text [raw] ends at the first
    closing delimiter after the opening one; the YAML parser returning
    [v] for [raw], the result has as data [v] if it is an object and
    nothing otherwise, and as content the rest of the input after the
    block, leading white space trimmed. *)
Theorem parseFrontMatter_split
    (parseYaml : option jstring → outcome value) (md : jstring) :
  (startsWith (trimStart md) (lit "---") = false →
   parseFrontMatter parseYaml md = unchanged md)
  ∧ ((¬ ∃ full raw rest, front_matter md full raw rest) →
     exec FRONT_MATTER_PATTERN md = None
     ∧ parseFrontMatter parseYaml md = unchanged md)
  ∧ (∀ full raw rest,
       front_matter md full raw rest →
       ∃ m opener raw' rest',
         exec FRONT_MATTER_PATTERN md = Some m
         ∧ groups m !! 1%nat = Some raw'
         ∧ opening_delimiter opener
         ∧ front_matter_after opener md (matched md m) raw' rest'
         ∧ (∀ full0 raw0 rest0,
              front_matter_after opener md full0 raw0 rest0 →
              (length raw' ≤ length raw0)%nat)
         ∧ ∀ v, parseYaml (Some raw') = Returned v →
                parseFrontMatter parseYaml md
                = (mkParsed (trimStart rest')
                            (if is_object v then Some v else None), [])).
Proof.
  split; [|split].
  - intros H. unfold parseFrontMatter. by rewrite H.
  - intros H. apply exec_front_matter_None in H. split; [done|].
    unfold parseFrontMatter. rewrite H. by destruct (negb _).
  - intros full raw rest Hfm.
    destruct (exec FRONT_MATTER_PATTERN md) as [m|] eqn:He.
    + destruct (exec_front_matter md m He)
        as (opener & raw' & rest' & Hraw & Hmd & Hop & Hfm' & Hmin).
      exists m, opener, raw', rest'.
      split; [done|]. split; [done|]. split; [done|]. split; [done|].
      split; [done|].
      intros v Hv. unfold parseFrontMatter.
      rewrite (front_matter_startsWith _ _ _ _ Hfm), He. simpl negb.
      cbv iota zeta. rewrite Hraw, Hv. unfold slice.
      replace (drop (length (matched md m)) md) with rest'; [done|].
      rewrite Hmd at 2. by rewrite drop_app_length.
    + apply exec_front_matter_None in He. exfalso. apply He.
      by eexists _, _, _.
Qed.

(** C6: when the pattern matches and the YAML parser throws on the text
    between the delimiters, [parseFrontMatter] writes one line to the
    console and returns the whole input as content, without metadata;
    the exception goes no further. *)
Theorem parseFrontMatter_yaml_failure
    (parseYaml : option jstring → outcome value) (md : jstring)
    (m : match_result) (e : thrown) :
  exec FRONT_MATTER_PATTERN md = Some m →
  parseYaml (groups m !! 1%nat) = Threw e →
  (∃ raw rest, groups m !! 1%nat = Some raw
               ∧ front_matter md (matched md m) raw rest)
  ∧ parseFrontMatter parseYaml md
    = (mkParsed md None, [lit "Could not parse front matter"]).
Proof.
  intros He Hy.
  destruct (exec_front_matter md m He)
    as (opener & raw & rest & Hraw & Hmd & Hop & Hfm & _).
  assert (front_matter md (matched md m) raw rest) as Hfm'
    by (by exists opener).
  split; [by exists raw, rest|].
  unfold parseFrontMatter.
  rewrite (front_matter_startsWith _ _ _ _ Hfm'), He. simpl negb.
  cbv iota zeta. by rewrite Hy.
Qed.

(** A parser for documents that consist of one plain scalar, which YAML
    reads as a string. *)
Definition scalar_yaml (raw : option jstring) : outcome value :=
  match raw with
  | Some s => Returned (VString s)
  | None => Returned VUndefined
  end.

(** C7, as stated, fails when the YAML between the delimiters is not a
    mapping or a sequence: the block [hello] parses to the string
    ["hello"], and [typeof data === "object"] rejects it, so the body is
    returned with no data at all. *)
Lemma parseFrontMatter_drops_scalar :
  let md := lit "---" ++ [LF] ++ lit "hello" ++ [LF] ++ lit "---" ++ [LF]
            ++ lit "body" in
  option_map (λ m, groups m !! 1%nat) (exec FRONT_MATTER_PATTERN md)
  = Some (Some (lit "hello"))
  ∧ scalar_yaml (Some (lit "hello")) = Returned (VString (lit "hello"))
  ∧ parseFrontMatter scalar_yaml md = (mkParsed (lit "body") None, []).
Proof. vm_compute. done. Qed.

(** A note with a title in its front matter, and a YAML parser that
    accepts only that block. *)
Definition sample_note : jstring :=
  lit "---" ++ [LF] ++ lit "title: x" ++ [CR; LF] ++ lit "---  " ++ [LF; LF]
  ++ lit "  body".

Definition sample_yaml (raw : option jstring) : outcome value :=
  if bool_decide (raw = Some (lit "title: x")) then
    Returned (VObject [(lit "title", VString (lit "x"))])
  else Threw (ErrorObject (lit "bad indentation")).

Definition broken_note : jstring :=
  lit "---" ++ [LF] ++ lit "title: [" ++ [LF] ++ lit "---" ++ [LF]
  ++ lit "body".

Example parseFrontMatter_sample :
  parseFrontMatter sample_yaml sample_note
  = (mkParsed (lit "body")
              (Some (VObject [(lit "title", VString (lit "x"))])), []).
Proof. vm_compute. reflexivity. Qed.

Lemma parseFrontMatter_yaml_failure_witness :
  parseFrontMatter sample_yaml broken_note
  = (mkParsed broken_note None, [lit "Could not parse front matter"]).
Proof.
  apply (parseFrontMatter_yaml_failure sample_yaml broken_note
           (mkMatch 0 17 (<[1%nat := lit "title: ["]> ∅))
           (ErrorObject (lit "bad indentation"))).
  - vm_compute. reflexivity.
  - vm_compute. reflexivity.
Defined.

(** *** The request counter *)

Lemma NoDup_fmap_filter {A B : Type} (f : A → B) (P : A → Prop)
    `{∀ x, Decision (P x)} (l : list A) :
  NoDup (map f l) → NoDup (map f (filter P l)).
Proof.
  induction l as [|x l IH]; [done|]. simpl map. intros Hnd.
  apply NoDup_cons in Hnd as [Hx Hnd]. rewrite filter_cons.
  destruct (decide (P x)); [|by apply IH].
  simpl map. apply NoDup_cons. split; [|by apply IH].
  intros Hin. apply Hx. apply list_elem_of_fmap in Hin as (y & -> & Hy).
  apply list_elem_of_fmap. exists y. split; [done|].
  by apply list_elem_of_filter in Hy as [_ Hy].
Qed.

Lemma NoDup_fmap_eq {A B : Type} (f : A → B) (l : list A) x y :
  NoDup (map f l) → x ∈ l → y ∈ l → f x = f y → x = y.
Proof.
  induction l as [|z l IH]; intros Hnd Hx Hy Hf.
  - by apply elem_of_nil in Hx.
  - simpl in Hnd. apply NoDup_cons in Hnd as [Hz Hnd].
    apply elem_of_cons in Hx as [->|Hx]; apply elem_of_cons in Hy as [->|Hy].
    + done.
    + exfalso. apply Hz. rewrite Hf. apply list_elem_of_fmap. by exists y.
    + exfalso. apply Hz. rewrite <- Hf. apply list_elem_of_fmap. by exists x.
    + by apply IH.
Qed.

Definition failed (r : response) : bool :=
  match r with
  | Rejected _ => true
  | Answered ok _ => negb ok
  end.

Definition failure_text (r : response) : jstring :=
  match r with
  | Rejected e => error_text e
  | Answered _ _ => lit "Unable to fetch the selected article."
  end.

Definition listing_failed (lr : Notes.listing_response) : bool :=
  match lr with
  | Notes.Rejected _ => true
  | Notes.Answered ok _ _ => negb ok
  end.

(** The guard of [selectArticle] lets the call through: the component
    runs in the browser and the article has a truthy [download_url]. *)
Definition passes_guard (browser : bool) (article : option Article) : bool :=
  match article with
  | Some a => browser && Notes.truthy_url (download_url a)
  | None => false
  end.

Section System.
Variable browser : bool.
Variable parseYaml : option jstring → outcome value.
Variable marked_parse : jstring → outcome jstring.
Variable ToString : value → jstring.
Variable articles : list Article.

#[local] Abbreviation begin := (selectArticle_begin browser).
#[local] Abbreviation settle := (selectArticle_settle parseYaml marked_parse ToString).
#[local] Abbreviation Step :=
  (step browser parseYaml marked_parse ToString articles).
#[local] Abbreviation Run :=
  (run browser parseYaml marked_parse ToString articles).

(** A call of [selectArticle] either returns at the guard and changes
    nothing, or adds one to the counter, takes the new value as its id
    and resets the view state, all before the fetch is issued. *)
Lemma begin_spec article s :
  match begin article s with
  | (s', Some q) =>
      currentRequest s' = currentRequest s + 1
      ∧ requestId q = currentRequest s'
      ∧ isLoading s' = true ∧ errorMessage s' = [] ∧ activeMeta s' = None
      ∧ renderedHtml s' = renderedHtml s
      ∧ browser = true
      ∧ ∃ a, article = Some a ∧ download_url a = Some (url q) ∧ url q ≠ []
             ∧ activeSlug s' = Some (slug a)
  | (s', None) => s' = s
  end.
Proof.
  unfold selectArticle_begin.
  destruct article as [a|]; [|done].
  destruct (download_url a) as [u|] eqn:Hu; [|done].
  destruct browser; simpl; [|done].
  destruct u as [|c u]; simpl; [done|].
  repeat split; try done. exists a. done.
Qed.

Lemma begin_guard article s :
  (passes_guard browser article = true →
   ∃ s' q, begin article s = (s', Some q)
           ∧ currentRequest s' = currentRequest s + 1
           ∧ requestId q = currentRequest s')
  ∧ (passes_guard browser article = false → begin article s = (s, None)).
Proof.
  unfold passes_guard, selectArticle_begin, Notes.truthy_url.
  destruct article as [a|]; [|done].
  destruct (download_url a) as [u|]; [|by destruct browser].
  destruct browser, u; simpl; try done.
  split; [|done]. intros _. by eexists _, _.
Qed.

Lemma settle_counter id r s :
  currentRequest (settle id r s).1 = currentRequest s.
Proof.
  unfold selectArticle_settle. destruct (render _ _ _ r) as [[[html meta]|e] out];
    simpl; repeat (destruct (_ =? _); simpl); done.
Qed.

(** The response of a request that is no longer the latest leaves the
    article, its metadata and the loading flag alone; its error, if it
    has one, is written all the same. *)
Lemma settle_stale id r s :
  id ≠ currentRequest s →
  let s' := (settle id r s).1 in
  renderedHtml s' = renderedHtml s ∧ activeMeta s' = activeMeta s
  ∧ isLoading s' = isLoading s ∧ activeSlug s' = activeSlug s
  ∧ errorMessage s' = match (render parseYaml marked_parse ToString r).1 with
                      | Returned _ => errorMessage s
                      | Threw e => error_text e
                      end.
Proof.
  intros Hid. apply Z.eqb_neq in Hid. unfold selectArticle_settle.
  destruct (render _ _ _ r) as [[[html meta]|e] out]; simpl;
    rewrite ?Hid; simpl; rewrite ?Hid; done.
Qed.

(** The ids given out grow, none exceeds the counter, and no two fetches
    in flight share one. *)
Definition ordered (sys : system) : Prop :=
  StronglySorted (λ newer older, older < newer) (issued sys)
  ∧ (∀ id, id ∈ issued sys → 0 < id ≤ currentRequest (comp sys))
  ∧ 0 ≤ currentRequest (comp sys)
  ∧ NoDup (map requestId (inflight sys))
  ∧ (∀ q, q ∈ inflight sys → requestId q ∈ issued sys).

Lemma start_ordered : ordered start.
Proof.
  repeat split; simpl; try done.
  - constructor.
  - by apply elem_of_nil in H.
  - by apply elem_of_nil in H.
  - apply NoDup_nil_2.
  - intros q Hq. by apply elem_of_nil in Hq.
Qed.

Lemma call_ordered article sys :
  ordered sys →
  ordered (call_selectArticle browser article sys)
  ∧ currentRequest (comp sys)
    ≤ currentRequest (comp (call_selectArticle browser article sys)).
Proof.
  intros (Hs & Hb & H0 & Hnd & Hin). unfold call_selectArticle.
  pose proof (begin_spec article (comp sys)) as Hbegin.
  destruct (begin article (comp sys)) as [s' [q|]]; simpl.
  - destruct Hbegin as (Hc & Hq & _). rewrite Hc.
    split; [|lia]. unfold ordered. simpl. rewrite Hq, Hc.
    split; [|split; [|split; [|split]]].
    + constructor; [done|]. apply Forall_forall. intros id Hid.
      specialize (Hb id Hid). lia.
    + intros id Hid. apply elem_of_cons in Hid as [->|Hid]; [lia|].
      specialize (Hb id Hid). lia.
    + lia.
    + rewrite map_app. apply NoDup_app. split; [done|]. split.
      { intros id Hid Hid'. apply list_elem_of_singleton in Hid'.
        apply list_elem_of_fmap in Hid as (q' & -> & Hq').
        specialize (Hb _ (Hin q' Hq')). simpl in Hid'. lia. }
      simpl. apply NoDup_singleton.
    + intros q' Hq'. apply elem_of_app in Hq' as [Hq'|Hq'].
      { right. by apply Hin. }
      apply list_elem_of_singleton in Hq' as ->. rewrite Hq, Hc. by left.
  - subst s'. split; [|lia]. done.
Qed.

Lemma step_ordered e sys sys' :
  ordered sys → Step e sys = Some sys' →
  ordered sys' ∧ currentRequest (comp sys) ≤ currentRequest (comp sys').
Proof.
  intros Ho Hstep.
  destruct e as [|article|id r| |]; simpl in Hstep.
  - destruct articles as [|first ?]; injection Hstep as <-;
      [split; [done|lia] | by apply call_ordered].
  - injection Hstep as <-. by apply call_ordered.
  - destruct Ho as (Hs & Hb & H0 & Hnd & Hin).
    destruct (bool_decide _); [|done].
    pose proof (settle_counter id r (comp sys)) as Hc.
    destruct (settle id r (comp sys)) as [s' out]. simpl in Hc.
    injection Hstep as <-. simpl. rewrite Hc. split; [|lia].
    unfold ordered. simpl. rewrite Hc.
    split; [done|]. split; [done|]. split; [done|]. split.
    + by apply NoDup_fmap_filter.
    + intros q Hq. apply list_elem_of_filter in Hq as [_ Hq]. by apply Hin.
  - destruct articles as [|first ?]; [injection Hstep as <-; split; [done|lia]|].
    destruct (_ && _); injection Hstep as <-;
      [by apply call_ordered | split; [done|lia]].
  - destruct (_ && _); injection Hstep as <-; [|split; [done|lia]].
    simpl. split; [|lia]. exact Ho.
Qed.

Lemma run_ordered es sys sys' :
  ordered sys → Run es sys = Some sys' →
  ordered sys' ∧ currentRequest (comp sys) ≤ currentRequest (comp sys').
Proof.
  revert sys. induction es as [|e es IH]; intros sys Ho Hrun; simpl in Hrun.
  - injection Hrun as <-. split; [done|lia].
  - destruct (Step e sys) as [sys1|] eqn:Hstep; [|done].
    destruct (step_ordered _ _ _ Ho Hstep) as [Ho1 Hle1].
    destruct (IH _ Ho1 Hrun) as [Ho' Hle']. split; [done|lia].
Qed.


(** C4, amended: along every run of the component the request ids given
    out are strictly increasing and bounded by the counter; a call of
    [selectArticle] that passes its guard (in the browser, for an article
    with a truthy [download_url]) adds exactly one to [currentRequest]
    before it fetches and takes the new value, larger than every id given
    out before, as its id, while a call stopped by the guard fetches
    nothing and changes nothing; the completion of a fetch never changes
    the counter; and at most one fetch in flight holds the current value
    of the counter. *)
Theorem request_ids_increase (es : list event) (sys : system) :
  Run es start = Some sys →
  StronglySorted (λ newer older, older < newer) (issued sys)
  ∧ (∀ id, id ∈ issued sys → id ≤ currentRequest (comp sys))
  ∧ (∀ article,
       passes_guard browser article = true →
       ∃ s' q, begin article (comp sys) = (s', Some q)
               ∧ currentRequest s' = currentRequest (comp sys) + 1
               ∧ requestId q = currentRequest s'
               ∧ ∀ id, id ∈ issued sys → id < requestId q)
  ∧ (∀ article,
       passes_guard browser article = false →
       begin article (comp sys) = (comp sys, None))
  ∧ (∀ id r, currentRequest (settle id r (comp sys)).1
             = currentRequest (comp sys))
  ∧ (∀ q1 q2, q1 ∈ inflight sys → q2 ∈ inflight sys →
              requestId q1 = currentRequest (comp sys) →
              requestId q2 = currentRequest (comp sys) → q1 = q2).
Proof.
  intros Hrun.
  destruct (run_ordered _ _ _ start_ordered Hrun)
    as [(Hs & Hb & H0 & Hnd & Hin) _].
  split; [done|]. split; [intros id Hid; by apply Hb|].
  split; [|split; [|split]].
  - intros article Hg.
    destruct (proj1 (begin_guard article (comp sys)) Hg)
      as (s' & q & Hbegin & Hc & Hq).
    exists s', q. split; [done|]. split; [done|]. split; [done|].
    intros id Hid. specialize (Hb id Hid). lia.
  - intros article Hg. by apply begin_guard.
  - intros id r. apply settle_counter.
  - intros q1 q2 H1 H2 E1 E2.
    apply (NoDup_fmap_eq requestId (inflight sys)); try done. congruence.
Qed.

(** C5, amended: when the fetch of the latest request is rejected or
    answers with a non-success status, [errorMessage] receives a message
    (the error's own message, the fixed text for a non-success status or
    for a thrown value that is no [Error]), [isLoading] is cleared and the
    panel shows that message (articles being listed and the message not
    empty).  For [load]: a rejected or non-success listing request writes
    one line to the console and returns an empty article list without any
    message, and the panel shows the hint for an empty list.  Every
    exception is caught on both paths. *)
Theorem fetch_failures_degrade (s : state) (r : response)
    (toUpperCase : jstring → jstring) (introMarkdown : jstring)
    (lr : Notes.listing_response) :
  (failed r = true →
     let s' := (settle (currentRequest s) r s).1 in
     errorMessage s' = failure_text r
     ∧ isLoading s' = false
     ∧ currentRequest s' = currentRequest s
     ∧ (articles ≠ [] → failure_text r ≠ [] →
        main_panel articles s' = ErrorText (failure_text r)))
  ∧ (listing_failed lr = true →
     ∃ line, Notes.load toUpperCase marked_parse introMarkdown lr
             = (Notes.mkData [] None, [line])
             ∧ line ≠ []
             ∧ main_panel [] s = AddFilesHint).
Proof.
  split.
  - intros Hf. cbv zeta.
    assert (render parseYaml marked_parse ToString r
            = (Threw (match r with
                      | Rejected e => e
                      | Answered _ _ =>
                          ErrorObject
                            (lit "Unable to fetch the selected article.")
                      end), [])) as Hr.
    { destruct r as [e|ok text]; [done|]. simpl in Hf.
      apply negb_true_iff in Hf as ->. done. }
    assert (error_text (match r with
                        | Rejected e => e
                        | Answered _ _ =>
                            ErrorObject
                              (lit "Unable to fetch the selected article.")
                        end) = failure_text r) as Ht.
    { by destruct r. }
    unfold selectArticle_settle. rewrite Hr. simpl. rewrite Ht.
    rewrite Z.eqb_refl. simpl.
    split; [done|]. split; [done|]. split; [done|].
    intros Ha Hne. unfold main_panel. destruct articles; [done|]. simpl.
    by destruct (failure_text r).
  - intros Hf. destruct lr as [e|ok status json]; simpl in *.
    + eexists. split; [reflexivity|]. done.
    + apply negb_true_iff in Hf as ->. simpl.
      eexists. split; [reflexivity|]. done.
Qed.

End System.

Definition article_a : Article :=
  Notes.mkArticle (lit "A") (lit "a") (Some (lit "https://example.org/a.md"))
                  (lit "a.md").
Definition article_b : Article :=
  Notes.mkArticle (lit "B") (lit "b") (Some (lit "https://example.org/b.md"))
                  (lit "b.md").
Definition no_tags (v : value) : jstring := [].

(** The component is mounted and fetches the first article, A; the user
    clicks B at once; the fetch of B completes first and succeeds, then
    the fetch of A fails. *)
Definition overtaken : list event :=
  [Mounted; Select (Some article_b);
   Settle 2 (Answered true (Returned (lit "# B")));
   Settle 1 (Answered false (Returned []))].

(** The component after two selections in a row. *)
Definition two_pending : system :=
  mkSystem (mkState (Some (lit "b")) [] true [] 2 None)
           [mkRequest 1 (lit "https://example.org/a.md");
            mkRequest 2 (lit "https://example.org/b.md")]
           [2; 1] [].

Lemma request_ids_increase_witness :
  run true sample_yaml Returned no_tags [article_a; article_b]
      [Mounted; Select (Some article_b)] start
  = Some two_pending
  ∧ StronglySorted (λ newer older, older < newer) (issued two_pending).
Proof.
  assert (run true sample_yaml Returned no_tags [article_a; article_b]
              [Mounted; Select (Some article_b)] start
          = Some two_pending) as Hrun by (vm_compute; reflexivity).
  split; [exact Hrun|].
  exact (proj1 (request_ids_increase true sample_yaml Returned no_tags
                  [article_a; article_b] [Mounted; Select (Some article_b)]
                  two_pending Hrun)).
Defined.

(** An article whose [download_url] is the empty string. *)
Definition article_without_url : Article :=
  Notes.mkArticle (lit "Draft") (lit "draft") (Some []) (lit "draft.md").

(** C4, as stated, fails for a call that the guard stops: it returns
    before the increment, so the counter keeps its value and no request
    id is given out. *)
Lemma guarded_call_keeps_counter :
  selectArticle_begin true (Some article_without_url) initial
  = (initial, None)
  ∧ run true sample_yaml Returned no_tags [article_a; article_b]
        [Select (Some article_without_url)] start
    = Some start.
Proof. split; reflexivity. Qed.

(** C3 fails on the code: the [catch] branch of [selectArticle] assigns
    [errorMessage] without comparing the request id, unlike the success
    path and the [finally] block.  Here the latest request (for B) has
    succeeded and its article is rendered, yet the late failure of the
    stale request for A leaves its message in [errorMessage], and the
    panel shows that error in place of B. *)
Theorem stale_failure_overwrites_error :
  ∃ sys, run true sample_yaml Returned no_tags [article_a; article_b] overtaken
             start = Some sys
    ∧ inflight sys = []
    ∧ currentRequest (comp sys) = 2
    ∧ activeSlug (comp sys) = Some (lit "b")
    ∧ renderedHtml (comp sys) = lit "# B"
    ∧ isLoading (comp sys) = false
    ∧ errorMessage (comp sys) = lit "Unable to fetch the selected article."
    ∧ main_panel [article_a; article_b] (comp sys)
      = ErrorText (lit "Unable to fetch the selected article.").
Proof. eexists. split; [vm_compute; reflexivity|]. repeat split. Qed.

Lemma fetch_failures_degrade_witness :
  errorMessage
    (selectArticle_settle sample_yaml Returned no_tags 1
       (Answered false (Returned []))
       (selectArticle_begin true (Some article_a) initial).1).1
  = lit "Unable to fetch the selected article."
  ∧ ∃ line, Notes.load (λ s, s) Returned [] (Notes.Answered false 403 (Returned []))
            = (Notes.mkData [] None, [line]).
Proof.
  destruct (fetch_failures_degrade sample_yaml Returned no_tags [article_a]
              (selectArticle_begin true (Some article_a) initial).1
              (Answered false (Returned [])) (λ s, s) []
              (Notes.Answered false 403 (Returned []))) as [H1 H2].
  split.
  - apply H1. reflexivity.
  - destruct (H2 eq_refl) as (line & Hl & _). by exists line.
Defined.

(** C5, as stated, fails for [load]: when the listing request is refused
    the result carries no message at all, only an empty article list (and
    no introduction), and what the panel then shows is the hint for an
    empty list, not an error. *)
Lemma load_failure_shows_no_error :
  let d := (Notes.load (λ s, s) Returned []
              (Notes.Answered false 403 (Returned []))).1 in
  Notes.articles d = [] ∧ Notes.introHtml d = None
  ∧ main_panel (Notes.articles d) initial = AddFilesHint.
Proof. repeat split. Qed.

End MainSectionFacts.

(** ** The Game of Life backdrop *)

Module LifeFacts.
Import Life.

(** *** Wrap-around arithmetic *)

Lemma wrap_m1 x c :
  0 ≤ x < c → (x + -1) mod c = if x =? 0 then c - 1 else x - 1.
Proof.
  intros H. destruct (Z.eqb_spec x 0) as [->|Hx].
  - symmetry. apply (Z.mod_unique_pos _ _ (-1)); lia.
  - rewrite Z.mod_small; lia.
Qed.

Lemma wrap_p1 x c :
  0 ≤ x < c → (x + 1) mod c = if x =? c - 1 then 0 else x + 1.
Proof.
  intros H. destruct (Z.eqb_spec x (c - 1)) as [->|Hx].
  - replace (c - 1 + 1) with (0 + 1 * c) by lia.
    rewrite Z_mod_plus_full. apply Z.mod_0_l. lia.
  - rewrite Z.mod_small; lia.
Qed.

Lemma wrap_0 x c : 0 ≤ x < c → (x + 0) mod c = x.
Proof. intros H. rewrite Z.add_0_r. apply Z.mod_small. lia. Qed.

Lemma wrap_range x i c : 0 < c → 0 ≤ (x + i) mod c < c.
Proof. intros H. apply Z.mod_pos_bound. lia. Qed.

Lemma js_rem_wrap x i c :
  0 ≤ x < c → -1 ≤ i ≤ 1 → js_rem (x + i + c) c = Some ((x + i) mod c).
Proof.
  intros Hx Hi. unfold js_rem. destruct (Z.eqb_spec c 0); [lia|].
  f_equal. rewrite Z.rem_mod_nonneg by lia.
  replace (x + i + c) with (x + i + 1 * c) by lia. apply Z_mod_plus_full.
Qed.

(** *** Reading cells *)

(** The cell at row [r], column [c], for indices known to be numbers;
    [Undefined] when there is none. *)
Definition cell_at (h : gmap loc row) (g : list loc) (r c : Z) : cell :=
  default Undefined (read_cell h g (Some r) (Some c)).

Definition alive (h : gmap loc row) (g : list loc) (p : Z * Z) : bool :=
  truthy (cell_at h g p.1 p.2).

(** Every row reference of [g] is an array in [h]. *)
Definition rows_allocated (h : gmap loc row) (g : list loc) : Prop :=
  ∀ l, l ∈ g → is_Some (h !! l).

Lemma elem_Some {A : Type} (l : list A) (i : Z) :
  0 ≤ i < Z.of_nat (length l) → ∃ a, elem l (Some i) = Some a ∧ a ∈ l.
Proof.
  intros H. unfold elem. destruct (Z.ltb_spec i 0); [lia|].
  destruct (lookup_lt_is_Some_2 l (Z.to_nat i)) as [a Ha]; [lia|].
  exists a. split; [done|]. by eapply list_elem_of_lookup_2.
Qed.

Lemma elem_elem_of {A : Type} (l : list A) (i : option Z) (a : A) :
  elem l i = Some a → a ∈ l.
Proof.
  destruct i as [z|]; simpl; [|done]. destruct (z <? 0); [done|].
  apply list_elem_of_lookup_2.
Qed.

Lemma read_cell_Some h g r c :
  rows_allocated h g → 0 ≤ r < Z.of_nat (length g) →
  read_cell h g (Some r) c = Some (default Undefined (read_cell h g (Some r) c)).
Proof.
  intros Hal Hr. unfold read_cell.
  destruct (elem_Some g r Hr) as (l & -> & Hl).
  destruct (Hal l Hl) as [rw ->]. done.
Qed.

(** *** The neighbourhood of a cell *)

(** The eight offsets [(i, j)] in the order the two loops visit them. *)
Definition offsets : list (Z * Z) :=
  [(-1, -1); (-1, 0); (-1, 1); (0, -1); (0, 1); (1, -1); (1, 0); (1, 1)].

(** The neighbours of column [x], row [y] on the torus, as
    [(row, column)] pairs. *)
Definition neighbours (nrows ncols x y : Z) : list (Z * Z) :=
  map (λ o, ((y + o.2) mod nrows, (x + o.1) mod ncols)) offsets.

Definition live_count (h : gmap loc row) (g : list loc) (ps : list (Z * Z))
  : Z :=
  Z.of_nat (length (filter (λ p, alive h g p = true) ps)).

Lemma live_count_cons h g p ps :
  live_count h g (p :: ps) = Z.b2z (alive h g p) + live_count h g ps.
Proof.
  unfold live_count. rewrite filter_cons.
  destruct (alive h g p); case_decide; try congruence; simpl length; simpl Z.b2z; lia.
Qed.

Lemma read_cell_neighbour (s : state) g x y i j :
  0 ≤ x < cols s → 0 ≤ y < rows s →
  length g = Z.to_nat (rows s) → rows_allocated (heap s) g →
  -1 ≤ i ≤ 1 → -1 ≤ j ≤ 1 →
  read_cell (heap s) g (js_rem (y + j + rows s) (rows s))
            (js_rem (x + i + cols s) (cols s))
  = Some (cell_at (heap s) g ((y + j) mod rows s) ((x + i) mod cols s)).
Proof.
  intros Hx Hy Hlen Hal Hi Hj.
  rewrite !js_rem_wrap by lia. unfold cell_at.
  apply read_cell_Some; [done|].
  pose proof (wrap_range y j (rows s)). lia.
Qed.

(** One iteration of the inner loop adds the cell at offset [(i, j)]
    unless that is the centre. *)
Lemma countNeighbors_body (s : state) g x y i j sum :
  0 ≤ x < cols s → 0 ≤ y < rows s →
  length g = Z.to_nat (rows s) → rows_allocated (heap s) g →
  -1 ≤ i ≤ 1 → -1 ≤ j ≤ 1 →
  (if (i =? 0) && (j =? 0) then Some sum
   else
     match read_cell (heap s) g (js_rem (y + j + rows s) (rows s))
                     (js_rem (x + i + cols s) (cols s)) with
     | None => None
     | Some c => Some (if truthy c then sum + 1 else sum)
     end)
  = Some (sum + if (i =? 0) && (j =? 0) then 0
                else Z.b2z (alive (heap s) g
                              ((y + j) mod rows s, (x + i) mod cols s))).
Proof.
  intros Hx Hy Hlen Hal Hi Hj.
  destruct ((i =? 0) && (j =? 0)); [f_equal; lia|].
  rewrite read_cell_neighbour by done. unfold alive. cbn [fst snd].
  destruct (truthy _); simpl Z.b2z; f_equal; lia.
Qed.

(** [countNeighbors] sums the live cells over the wrapped offsets. *)
Lemma countNeighbors_sum (s : state) g x y :
  0 ≤ x < cols s → 0 ≤ y < rows s →
  length g = Z.to_nat (rows s) → rows_allocated (heap s) g →
  countNeighbors s g x y
  = Some (live_count (heap s) g (neighbours (rows s) (cols s) x y)).
Proof.
  intros Hx Hy Hlen Hal.
  unfold countNeighbors, neighbours, offsets.
  change (seqZ (-1) 3) with [-1; 0; 1].
  cbn [forM].
  repeat (rewrite (countNeighbors_body s g x y) by (done || lia);
          cbv beta iota).
  cbn [map fst snd Z.eqb andb].
  rewrite !live_count_cons. unfold live_count at 1.
  rewrite filter_nil. simpl length. f_equal. lia.
Qed.


(** *** [countNeighbors] on the torus *)


Ltac wrap_cases x y nrows ncols :=
  unfold neighbours, offsets; cbn [map fst snd];
  rewrite !wrap_m1, !wrap_0, !wrap_p1 by lia;
  destruct (Z.eqb_spec x 0), (Z.eqb_spec x (ncols - 1)),
           (Z.eqb_spec y 0), (Z.eqb_spec y (nrows - 1)); try lia.

Ltac pair_neq := let H := fresh in intros H; injection H; intros; lia.

Lemma neighbours_not_self nrows ncols x y :
  2 ≤ nrows → 2 ≤ ncols → 0 ≤ x < ncols → 0 ≤ y < nrows →
  (y, x) ∉ neighbours nrows ncols x y.
Proof.
  intros Hr Hc Hx Hy.
  wrap_cases x y nrows ncols;
    rewrite !not_elem_of_cons; repeat split;
    try pair_neq; apply not_elem_of_nil.
Qed.

Lemma neighbours_NoDup nrows ncols x y :
  3 ≤ nrows → 3 ≤ ncols → 0 ≤ x < ncols → 0 ≤ y < nrows →
  NoDup (neighbours nrows ncols x y).
Proof.
  intros Hr Hc Hx Hy.
  wrap_cases x y nrows ncols;
    repeat (apply NoDup_cons; split;
            [rewrite ?not_elem_of_cons; repeat split;
             try pair_neq; apply not_elem_of_nil|]);
    apply NoDup_nil_2.
Qed.

(** A grid of one row and one column holding [b]. *)
Definition one_cell (b : bool) : state :=
  mkState 1 1 15 [0%nat] [1%nat] true None true
          (<[0%nat := [Bool b]]> (<[1%nat := [Bool false]]> ∅)) 0 15 15.

(** C2, as stated, fails on a grid with a single row or column: there
    every wrapped offset is the cell itself, and the cell is counted.  The
    two grids below differ in nothing but the cell whose neighbours are
    counted, and the counts differ. *)
Lemma countNeighbors_counts_itself :
  countNeighbors (one_cell true) [0%nat] 0 0 = Some 8 ∧
  countNeighbors (one_cell false) [0%nat] 0 0 = Some 0.
Proof. split; vm_compute; reflexivity. Qed.

(** C2, amended: for a cell [(x, y)] of the grid, [countNeighbors] returns
    the number of offsets [(i, j)] other than [(0, 0)], with [i] and [j]
    in [-1 .. 1], whose wrapped cell [grid[(y + j) mod rows][(x + i) mod
    cols]] is live.  With at least two rows and two columns none of these
    eight cells is [(x, y)] itself; with at least three of each they are
    eight different cells, so the result is the number of live
    neighbours on the torus. *)
Theorem countNeighbors_toroidal (s : state) (g : list loc) (x y : Z) :
  0 ≤ x < cols s → 0 ≤ y < rows s →
  length g = Z.to_nat (rows s) → rows_allocated (heap s) g →
  countNeighbors s g x y
    = Some (live_count (heap s) g (neighbours (rows s) (cols s) x y))
  ∧ length (neighbours (rows s) (cols s) x y) = 8%nat
  ∧ (2 ≤ rows s → 2 ≤ cols s → (y, x) ∉ neighbours (rows s) (cols s) x y)
  ∧ (3 ≤ rows s → 3 ≤ cols s → NoDup (neighbours (rows s) (cols s) x y)).
Proof.
  intros Hx Hy Hlen Hal. split; [by apply countNeighbors_sum|].
  split; [reflexivity|]. split; intros Hr Hc.
  - by apply neighbours_not_self.
  - by apply neighbours_NoDup.
Qed.

(** A three by three grid with a vertical bar in the middle column. *)
Definition blinker : state :=
  mkState 3 3 15 [0%nat; 1%nat; 2%nat] [3%nat; 4%nat; 5%nat] true None true
    (list_to_map
       [(0%nat, [Bool false; Bool true; Bool false]);
        (1%nat, [Bool false; Bool true; Bool false]);
        (2%nat, [Bool false; Bool true; Bool false]);
        (3%nat, [Bool false; Bool false; Bool false]);
        (4%nat, [Bool false; Bool false; Bool false]);
        (5%nat, [Bool false; Bool false; Bool false])]) 0 45 45.

Lemma blinker_allocated : rows_allocated (heap blinker) (grid blinker).
Proof.
  intros l Hl. simpl in Hl.
  repeat (apply elem_of_cons in Hl as [->|Hl]; [by eexists|]).
  by apply elem_of_nil in Hl.
Qed.

Lemma countNeighbors_toroidal_witness :
  countNeighbors blinker (grid blinker) 0 1 = Some 3.
Proof.
  destruct (countNeighbors_toroidal blinker (grid blinker) 0 1) as [H _].
  - simpl; lia.
  - simpl; lia.
  - reflexivity.
  - exact blinker_allocated.
  - rewrite H. reflexivity.
Defined.

(** *** The generation step *)


Definition is_bool (c : cell) : Prop :=
  match c with Bool _ => True | Undefined => False end.

Record wf (s : state) : Prop := {
  wf_rows : 0 ≤ rows s;
  wf_cols : 0 ≤ cols s;
  wf_grid : length (grid s) = Z.to_nat (rows s);
  wf_next : length (nextGrid s) = Z.to_nat (rows s);
  wf_nodup : NoDup (grid s ++ nextGrid s);
  wf_heap : ∀ l, l ∈ grid s ++ nextGrid s →
            ∃ rw, heap s !! l = Some rw ∧ length rw = Z.to_nat (cols s) ∧
                  Forall is_bool rw
}.

Lemma read_cell_frame h1 h2 g r c :
  (∀ l, l ∈ g → h1 !! l = h2 !! l) → read_cell h1 g r c = read_cell h2 g r c.
Proof.
  intros H. unfold read_cell. destruct (elem g r) as [l|] eqn:E; [|done].
  rewrite (H l); [done|]. by eapply elem_elem_of.
Qed.

Lemma read_cell_frame_at h1 h2 g r c :
  (∀ l, elem g r = Some l → h1 !! l = h2 !! l) →
  read_cell h1 g r c = read_cell h2 g r c.
Proof.
  intros H. unfold read_cell. destruct (elem g r) as [l|] eqn:E; [|done].
  by rewrite (H l).
Qed.

Lemma countNeighbors_frame (s st : state) g x y :
  cols st = cols s → rows st = rows s →
  (∀ l, l ∈ g → heap st !! l = heap s !! l) →
  countNeighbors st g x y = countNeighbors s g x y.
Proof.
  intros Hc Hr Hh. unfold countNeighbors.
  apply forM_ext; intros i sum _. apply forM_ext; intros j sum' _.
  rewrite Hc, Hr, (read_cell_frame _ _ _ _ _ Hh). done.
Qed.

Lemma wf_allocated s : wf s → rows_allocated (heap s) (grid s).
Proof.
  intros W l Hl. destruct (wf_heap s W l) as (rw & -> & _); [|done].
  apply elem_of_app. by left.
Qed.

(** The cell the step writes at row [i], column [j]. *)
Definition newcell (s : state) (i j : Z) : cell :=
  match countNeighbors s (grid s) j i with
  | Some n => rule (cell_at (heap s) (grid s) i j) n
  | None => Undefined
  end.

Lemma cell_at_bool s i j :
  wf s → 0 ≤ i < rows s → 0 ≤ j < cols s →
  ∃ b, read_cell (heap s) (grid s) (Some i) (Some j) = Some (Bool b).
Proof.
  intros W Hi Hj. unfold read_cell.
  destruct (elem_Some (grid s) i) as (l & -> & Hl).
  { rewrite (wf_grid s W). lia. }
  destruct (wf_heap s W l) as (rw & -> & Hlen & Hb).
  { apply elem_of_app. by left. }
  destruct (elem_Some rw j) as (c & -> & Hc); [lia|].
  rewrite Forall_forall in Hb. specialize (Hb c Hc).
  destruct c; [done|]. by eexists.
Qed.

Lemma rule_bool (b : bool) n :
  rule (Bool b) n = Bool (if b then (n =? 2) || (n =? 3) else n =? 3).
Proof.
  unfold rule. simpl truthy.
  destruct b; simpl;
    destruct (Z.ltb_spec n 2), (Z.ltb_spec 3 n), (Z.eqb_spec n 2),
             (Z.eqb_spec n 3); simpl; try lia; reflexivity.
Qed.

Lemma newcell_bool s i j :
  wf s → 0 ≤ i < rows s → 0 ≤ j < cols s → is_bool (newcell s i j).
Proof.
  intros W Hi Hj. unfold newcell.
  rewrite countNeighbors_sum; [| lia | lia | apply W | by apply wf_allocated].
  destruct (cell_at_bool s i j W Hi Hj) as [b Hb].
  unfold cell_at. rewrite Hb. simpl. rewrite rule_bool. done.
Qed.

(** All variables but the heap and the count of random draws are those
    of [s]. *)
Definition same_vars (s st : state) : Prop :=
  set_draws 0 (set_heap ∅ st) = set_draws 0 (set_heap ∅ s).

Lemma same_vars_fields s st :
  same_vars s st →
  cols st = cols s ∧ rows st = rows s ∧ grid st = grid s ∧
  nextGrid st = nextGrid s.
Proof.
  intros H. repeat split.
  - exact (f_equal cols H).
  - exact (f_equal rows H).
  - exact (f_equal grid H).
  - exact (f_equal nextGrid H).
Qed.

Lemma same_vars_set_heap s st h : same_vars s st → same_vars s (set_heap h st).
Proof. intros H. exact H. Qed.

Lemma same_vars_refl s : same_vars s s.
Proof. reflexivity. Qed.

Lemma same_vars_trans s1 s2 s3 :
  same_vars s1 s2 → same_vars s2 s3 → same_vars s1 s3.
Proof. unfold same_vars. congruence. Qed.

Lemma same_vars_set_grids s s' g ng :
  same_vars s s' → same_vars (set_grids g ng s) (set_grids g ng s').
Proof.
  unfold same_vars, set_grids, set_draws, set_heap. simpl.
  intros H. injection H. intros. congruence.
Qed.

Lemma row_set_in_range rw j v :
  0 ≤ j < Z.of_nat (length rw) → row_set rw j v = <[Z.to_nat j := v]> rw.
Proof.
  intros H. unfold row_set. destruct (Z.ltb_spec j 0); [lia|].
  destruct (Nat.ltb_spec (Z.to_nat j) (length rw)); [done | lia].
Qed.

(** One iteration of the inner loop of [computeNextGeneration]. *)
Lemma generation_cell (s st : state) (li : loc) rw i j :
  wf s → same_vars s st →
  (∀ l, l ∈ grid s → heap st !! l = heap s !! l) →
  0 ≤ i < rows s → 0 ≤ j < cols s →
  nextGrid s !! Z.to_nat i = Some li →
  heap st !! li = Some rw → length rw = Z.to_nat (cols s) →
  match countNeighbors st (grid st) j i with
  | None => None
  | Some neighbors =>
      match read_cell (heap st) (grid st) (Some i) (Some j) with
      | None => None
      | Some currentCell =>
          write_cell (nextGrid st) i j (rule currentCell neighbors) st
      end
  end
  = Some (set_heap (<[li := <[Z.to_nat j := newcell s i j]> rw]> (heap st)) st).
Proof.
  intros W Hv Hg Hi Hj Hli Hrw Hlen.
  destruct (same_vars_fields s st Hv) as (Hc & Hr & -> & ->).
  rewrite (countNeighbors_frame s st) by done.
  rewrite (read_cell_frame _ _ _ _ _ Hg).
  unfold newcell.
  rewrite countNeighbors_sum; [| lia | lia | apply W | by apply wf_allocated].
  destruct (cell_at_bool s i j W Hi Hj) as [b Hb].
  unfold cell_at. rewrite Hb. simpl default.
  unfold write_cell, elem. destruct (Z.ltb_spec i 0); [lia|].
  rewrite Hli, Hrw. rewrite row_set_in_range by lia. done.
Qed.

(** The inner loop fills row [i] of [nextGrid] and touches no other
    array. *)
Lemma generation_row (s st : state) (li : loc) i :
  wf s → same_vars s st →
  (∀ l, l ∈ grid s → heap st !! l = heap s !! l) →
  (∀ l, l ∈ nextGrid s →
        ∃ rw, heap st !! l = Some rw ∧ length rw = Z.to_nat (cols s) ∧
              Forall is_bool rw) →
  0 ≤ i < rows s → nextGrid s !! Z.to_nat i = Some li →
  ∃ st' rw',
    forM (seqZ 0 (cols st)) (λ j st1,
      match countNeighbors st1 (grid st1) j i with
      | None => None
      | Some neighbors =>
          match read_cell (heap st1) (grid st1) (Some i) (Some j) with
          | None => None
          | Some currentCell =>
              write_cell (nextGrid st1) i j (rule currentCell neighbors) st1
          end
      end) st = Some st'
    ∧ same_vars s st'
    ∧ (∀ l, l ≠ li → heap st' !! l = heap st !! l)
    ∧ heap st' !! li = Some rw'
    ∧ length rw' = Z.to_nat (cols s)
    ∧ Forall is_bool rw'
    ∧ (∀ j, 0 ≤ j < cols s → rw' !! Z.to_nat j = Some (newcell s i j)).
Proof.
  intros W Hv Hg Hn Hi Hli.
  destruct (same_vars_fields s st Hv) as (Hc & _).
  assert (li ∈ nextGrid s) as Hin by (by eapply list_elem_of_lookup_2).
  assert (li ∉ grid s) as Hnotin.
  { intros Hl. pose proof (wf_nodup s W) as Hnd.
    apply NoDup_app in Hnd as (_ & Hd & _). by apply (Hd li). }
  set (body := λ (j : Z) (st1 : state), _).
  set (I := λ (seen : list Z) (st1 : state),
         same_vars s st1
         ∧ (∀ l, l ≠ li → heap st1 !! l = heap st !! l)
         ∧ ∃ rw, heap st1 !! li = Some rw ∧ length rw = Z.to_nat (cols s)
                 ∧ Forall is_bool rw
                 ∧ ∀ j, j ∈ seen → rw !! Z.to_nat j = Some (newcell s i j)).
  destruct (forM_invariant I body (seqZ 0 (cols st)) st) as (st' & Hrun & HI).
  - split; [done|]. split; [done|].
    destruct (Hn li Hin) as (rw & Hrw & Hlen & Hb).
    exists rw. repeat split; try done. intros j Hj. by apply elem_of_nil in Hj.
  - intros seen j rest st1 Hsplit (Hv1 & Hoff & rw & Hrw & Hlen & Hb & Hseen).
    assert (0 ≤ j < cols s) as Hj.
    { assert (j ∈ seqZ 0 (cols st)) as Hjin.
      { rewrite Hsplit. apply elem_of_app. right. left. }
      apply elem_of_seqZ in Hjin. lia. }
    exists (set_heap (<[li := <[Z.to_nat j := newcell s i j]> rw]> (heap st1)) st1).
    split.
    + subst body. cbv beta. apply generation_cell; try done.
      intros l Hl. rewrite Hoff; [by apply Hg|]. congruence.
    + split; [by apply same_vars_set_heap|]. split.
      * intros l Hl. simpl. rewrite lookup_insert_ne by done. by apply Hoff.
      * exists (<[Z.to_nat j := newcell s i j]> rw). simpl.
        rewrite lookup_insert_eq. split; [done|].
        rewrite length_insert. split; [done|]. split.
        { apply Forall_insert; [done|]. by apply newcell_bool. }
        intros j' Hj'. destruct (decide (j' = j)) as [->|Hne].
        { apply list_lookup_insert_eq. lia. }
        rewrite list_lookup_insert_ne.
        { apply Hseen. apply elem_of_app in Hj' as [Hj'|Hj']; [done|].
          apply list_elem_of_singleton in Hj'. done. }
        assert (j' ∈ seqZ 0 (cols st)) as Hjin.
        { rewrite Hsplit. apply elem_of_app in Hj' as [Hj'|Hj'].
          - apply elem_of_app. by left.
          - apply list_elem_of_singleton in Hj'. done. }
        apply elem_of_seqZ in Hjin. lia.
  - destruct HI as (Hv' & Hoff & rw' & Hrw' & Hlen' & Hb' & Hall).
    exists st', rw'. repeat split; try done.
    intros j Hj. apply Hall. apply elem_of_seqZ. lia.
Qed.

(** The two nested loops: every cell of [nextGrid] receives the value the
    rule gives for the old grid, and no array of [grid] is written. *)
Lemma generation_loops (s : state) :
  wf s →
  ∃ st,
    forM (seqZ 0 (rows s)) (λ i,
      forM (seqZ 0 (cols s)) (λ j st1,
        match countNeighbors st1 (grid st1) j i with
        | None => None
        | Some neighbors =>
            match read_cell (heap st1) (grid st1) (Some i) (Some j) with
            | None => None
            | Some currentCell =>
                write_cell (nextGrid st1) i j (rule currentCell neighbors) st1
            end
        end)) s = Some st
    ∧ same_vars s st
    ∧ (∀ l, l ∉ nextGrid s → heap st !! l = heap s !! l)
    ∧ (∀ l, l ∈ nextGrid s →
            ∃ rw, heap st !! l = Some rw ∧ length rw = Z.to_nat (cols s) ∧
                  Forall is_bool rw)
    ∧ (∀ i j, 0 ≤ i < rows s → 0 ≤ j < cols s →
         read_cell (heap st) (nextGrid s) (Some i) (Some j)
         = Some (newcell s i j)).
Proof.
  intros W.
  assert (∀ l, l ∈ grid s → l ∉ nextGrid s) as Hdisj.
  { pose proof (wf_nodup s W) as Hnd. by apply NoDup_app in Hnd as (_ & Hd & _). }
  assert (NoDup (nextGrid s)) as Hnd.
  { pose proof (wf_nodup s W) as Hnd. by apply NoDup_app in Hnd as (_ & _ & Hd). }
  set (body := λ (i : Z), forM _ _).
  set (I := λ (seen : list Z) (st : state),
         same_vars s st
         ∧ (∀ l, l ∉ nextGrid s → heap st !! l = heap s !! l)
         ∧ (∀ l, l ∈ nextGrid s →
                 ∃ rw, heap st !! l = Some rw ∧ length rw = Z.to_nat (cols s)
                       ∧ Forall is_bool rw)
         ∧ (∀ i j, i ∈ seen → 0 ≤ j < cols s →
              read_cell (heap st) (nextGrid s) (Some i) (Some j)
              = Some (newcell s i j))).
  destruct (forM_invariant I body (seqZ 0 (rows s)) s) as (st & Hrun & HI).
  - split; [done|]. split; [done|]. split.
    + intros l Hl. apply (wf_heap s W). apply elem_of_app. by right.
    + intros i j Hi. by apply elem_of_nil in Hi.
  - intros seen i rest st1 Hsplit (Hv & Hoff & Hn & Hseen).
    assert (0 ≤ i < rows s) as Hi.
    { assert (i ∈ seqZ 0 (rows s)) as Hin.
      { rewrite Hsplit. apply elem_of_app. right. left. }
      apply elem_of_seqZ in Hin. lia. }
    destruct (lookup_lt_is_Some_2 (nextGrid s) (Z.to_nat i)) as [li Hli].
    { rewrite (wf_next s W). lia. }
    destruct (generation_row s st1 li i W Hv) as
      (st2 & rw' & Hrun & Hv2 & Hoff2 & Hrw' & Hlen' & Hb' & Hall);
      try done.
    { intros l Hl. apply Hoff. by apply Hdisj. }
    exists st2. split.
    { subst body. cbv beta.
      destruct (same_vars_fields s st1 Hv) as (Hc & _).
      rewrite <- Hc. exact Hrun. }
    split; [done|]. split.
    { intros l Hl. rewrite Hoff2; [by apply Hoff|].
      intros ->. apply Hl. by eapply list_elem_of_lookup_2. }
    split.
    { intros l Hl. destruct (decide (l = li)) as [->|Hne].
      - exists rw'. done.
      - rewrite Hoff2 by done. by apply Hn. }
    intros i' j Hi' Hj.
    assert (0 ≤ i' < rows s) as Hi'r.
    { assert (i' ∈ seqZ 0 (rows s)) as Hin.
      { rewrite Hsplit. apply elem_of_app in Hi' as [Hi'|Hi'].
        - apply elem_of_app. by left.
        - apply list_elem_of_singleton in Hi'. subst.
          apply elem_of_app. right. left. }
      apply elem_of_seqZ in Hin. lia. }
    destruct (decide (i' = i)) as [->|Hne].
    + unfold read_cell, elem. destruct (Z.ltb_spec i 0); [lia|].
      rewrite Hli, Hrw'. destruct (Z.ltb_spec j 0); [lia|].
      rewrite (Hall j Hj). done.
    + apply elem_of_app in Hi' as [Hi'|Hi'];
        [|apply list_elem_of_singleton in Hi'; done].
      rewrite <- (Hseen i' j Hi' Hj).
      apply read_cell_frame_at.
      intros l Hl. apply Hoff2. intros ->.
      apply Hne. assert (Z.to_nat i' = Z.to_nat i); [|lia].
      unfold elem in Hl. destruct (Z.ltb_spec i' 0); [lia|].
      by eapply (NoDup_lookup (nextGrid s)).
  - destruct HI as (Hv & Hoff & Hn & Hall).
    exists st. repeat split; try done.
    intros i j Hi Hj. apply Hall; [|done]. apply elem_of_seqZ. lia.
Qed.

(** The whole step, in the form the other proofs use. *)
Lemma generation_step (s : state) :
  wf s →
  ∃ s', computeNextGeneration s = Some s'
    ∧ wf s'
    ∧ same_vars (set_grids (nextGrid s) (grid s) s) s'
    ∧ ∀ i j, 0 ≤ i < rows s → 0 ≤ j < cols s →
        ∃ (b : bool) (n : Z),
          read_cell (heap s) (grid s) (Some i) (Some j) = Some (Bool b)
          ∧ countNeighbors s (grid s) j i = Some n
          ∧ read_cell (heap s') (nextGrid s) (Some i) (Some j)
            = Some (Bool (if b then (n =? 2) || (n =? 3) else n =? 3))
          ∧ read_cell (heap s') (grid s) (Some i) (Some j) = Some (Bool b).
Proof.
  intros W.
  destruct (generation_loops s W) as (st & Hrun & Hv & Hoff & Hn & Hall).
  destruct (same_vars_fields s st Hv) as (Hc & Hr & Hg & Hng).
  assert (∀ l, l ∈ grid s → l ∉ nextGrid s) as Hdisj.
  { pose proof (wf_nodup s W) as Hnd. by apply NoDup_app in Hnd as (_ & Hd & _). }
  exists (set_grids (nextGrid st) (grid st) st).
  split; [unfold computeNextGeneration; by rewrite Hrun|].
  split.
  { split; simpl; rewrite ?Hc, ?Hr, ?Hg, ?Hng; try apply W.
    - pose proof (wf_nodup s W) as Hnd. apply NoDup_app in Hnd as (H1 & H2 & H3).
      apply NoDup_app. repeat split; try done.
      intros l Hl1 Hl2. by apply (H2 l).
    - intros l Hl. apply elem_of_app in Hl as [Hl|Hl]; [by apply Hn|].
      rewrite Hoff by (by apply Hdisj). apply (wf_heap s W).
      apply elem_of_app. by left. }
  split.
  { rewrite Hg, Hng. by apply same_vars_set_grids. }
  simpl heap. intros i j Hi Hj.
  destruct (cell_at_bool s i j W Hi Hj) as [b Hb].
  exists b, (live_count (heap s) (grid s) (neighbours (rows s) (cols s) j i)).
  assert (countNeighbors s (grid s) j i
          = Some (live_count (heap s) (grid s)
                    (neighbours (rows s) (cols s) j i))) as Hcount.
  { apply countNeighbors_sum; [lia | lia | apply W | by apply wf_allocated]. }
  split; [done|]. split; [done|]. split.
  - rewrite (Hall i j Hi Hj). unfold newcell, cell_at.
    rewrite Hcount, Hb. simpl default. by rewrite rule_bool.
  - rewrite <- Hb. apply read_cell_frame. intros l Hl.
    apply Hoff. by apply Hdisj.
Qed.

(** C1, amended: on a well-formed grid [computeNextGeneration] returns,
    and the new [grid] holds at every cell what the Game of Life rule gives
    for the old grid: with [n] the number of live cells among the eight
    wrapped neighbour positions of the cell in the old grid, a live cell
    is alive afterwards iff [n] is 2 or 3, a dead cell iff [n] is 3.
    With at least three rows and three columns the eight positions are
    eight different cells, none of them the cell itself, so that [n] is
    the number of live neighbour cells; on a smaller torus a neighbour
    cell takes several of the eight positions and is counted as often.
    The old values are those of the grid before the step: the loops write
    only the arrays of [nextGrid], and after the swap [nextGrid] still
    holds the previous generation untouched. *)
Theorem computeNextGeneration_rule (s : state) :
  wf s →
  ∃ s', computeNextGeneration s = Some s'
    ∧ wf s'
    ∧ grid s' = nextGrid s ∧ nextGrid s' = grid s
    ∧ rows s' = rows s ∧ cols s' = cols s
    ∧ ∀ i j, 0 ≤ i < rows s → 0 ≤ j < cols s →
        ∃ (b : bool) (n : Z),
          read_cell (heap s) (grid s) (Some i) (Some j) = Some (Bool b)
          ∧ n = live_count (heap s) (grid s)
                           (neighbours (rows s) (cols s) j i)
          ∧ read_cell (heap s') (grid s') (Some i) (Some j)
            = Some (Bool (if b then (n =? 2) || (n =? 3) else n =? 3))
          ∧ read_cell (heap s') (nextGrid s') (Some i) (Some j)
            = Some (Bool b)
          ∧ length (neighbours (rows s) (cols s) j i) = 8%nat
          ∧ (3 ≤ rows s → 3 ≤ cols s →
             NoDup (neighbours (rows s) (cols s) j i)
             ∧ (i, j) ∉ neighbours (rows s) (cols s) j i).
Proof.
  intros W.
  destruct (generation_step s W) as (s' & Hrun & W' & Hv & Hcells).
  destruct (same_vars_fields _ _ Hv) as (Hc & Hr & Hg & Hng).
  simpl in Hc, Hr, Hg, Hng.
  exists s'. rewrite Hg, Hng.
  split; [done|]. split; [done|]. split; [done|]. split; [done|].
  split; [done|]. split; [done|].
  intros i j Hi Hj.
  destruct (Hcells i j Hi Hj) as (b & n & Hold & Hn & Hnew & Hkept).
  rewrite countNeighbors_sum in Hn;
    [| done | done | apply W | by apply wf_allocated].
  injection Hn as Hn.
  exists b, n. split; [done|]. split; [done|]. split; [done|].
  split; [done|]. split; [reflexivity|].
  intros Hr3 Hc3. split.
  - by apply neighbours_NoDup.
  - apply neighbours_not_self; lia.
Qed.

Lemma blinker_wf : wf blinker.
Proof.
  split; simpl; try lia; try reflexivity.
  - repeat (apply NoDup_cons; split;
            [rewrite ?not_elem_of_cons; repeat split; try lia;
             apply not_elem_of_nil|]).
    apply NoDup_nil_2.
  - intros l Hl.
    repeat (apply elem_of_cons in Hl as [->|Hl];
            [eexists; split; [reflexivity|];
             split; [reflexivity|]; by repeat constructor|]).
    by apply elem_of_nil in Hl.
Qed.

Lemma computeNextGeneration_rule_witness :
  ∃ s', computeNextGeneration blinker = Some s'
        ∧ read_cell (heap s') (grid s') (Some 1) (Some 0) = Some (Bool true).
Proof.
  destruct (computeNextGeneration_rule blinker blinker_wf)
    as (s' & Hrun & _ & _ & _ & _ & _ & Hcell).
  exists s'. split; [exact Hrun|].
  destruct (Hcell 1 0) as (b & n & Hb & Hn & Hnew & _); [simpl; lia..|].
  vm_compute in Hb. vm_compute in Hn.
  injection Hb as <-. subst n. exact Hnew.
Defined.

(** A two by two grid whose cells are alive but for the first. *)
Definition crowded : state :=
  mkState 2 2 15 [0%nat; 1%nat] [2%nat; 3%nat] true None true
    (list_to_map
       [(0%nat, [Bool false; Bool true]);
        (1%nat, [Bool true; Bool true]);
        (2%nat, [Bool false; Bool false]);
        (3%nat, [Bool false; Bool false])]) 0 30 30.

(** C1, as stated, fails on a torus with fewer than three rows or columns:
    the dead cell of this grid has three live neighbour cells, the three
    other cells of the grid, yet they fill all eight wrapped positions,
    the count is 8 and the cell is not born. *)
Lemma crowded_cell_is_not_born :
  ∃ s', computeNextGeneration crowded = Some s'
    ∧ read_cell (heap crowded) (grid crowded) (Some 0) (Some 0)
      = Some (Bool false)
    ∧ read_cell (heap crowded) (grid crowded) (Some 0) (Some 1)
      = Some (Bool true)
    ∧ read_cell (heap crowded) (grid crowded) (Some 1) (Some 0)
      = Some (Bool true)
    ∧ read_cell (heap crowded) (grid crowded) (Some 1) (Some 1)
      = Some (Bool true)
    ∧ countNeighbors crowded (grid crowded) 0 0 = Some 8
    ∧ read_cell (heap s') (grid s') (Some 0) (Some 0) = Some (Bool false).
Proof.
  eexists. split; [vm_compute; reflexivity|].
  repeat split; vm_compute; reflexivity.
Qed.

(** *** Building and seeding the grid *)

Lemma Array_valid_range n : Array_valid n = true ↔ 0 ≤ n < 2 ^ 32.
Proof. unfold Array_valid. rewrite andb_true_iff, Z.leb_le, Z.ltb_lt. done. Qed.

Lemma new_rows_spec n c s :
  Array_valid c = true →
  ∃ ls s', new_rows n c s = Some (ls, s')
    ∧ length ls = n ∧ NoDup ls
    ∧ (∀ l, l ∈ ls → heap s !! l = None ∧
                      heap s' !! l = Some (replicate (Z.to_nat c) (Bool false)))
    ∧ (∀ l, l ∉ ls → heap s' !! l = heap s !! l)
    ∧ same_vars s s'.
Proof.
  intros Hc. revert s. induction n as [|n IH]; intros s.
  - exists [], s. simpl. repeat split; try done.
    + apply NoDup_nil_2.
    + by apply elem_of_nil in H.
    + by apply elem_of_nil in H.
  - simpl. rewrite Hc. unfold alloc.
    set (l := fresh (dom (heap s))).
    set (s1 := set_heap _ s).
    assert (heap s !! l = None) as Hfresh.
    { apply not_elem_of_dom. apply is_fresh. }
    destruct (IH s1) as (ls & s2 & -> & Hlen & Hnd & Hnew & Hold & Hv).
    assert (l ∉ ls) as Hl.
    { intros Hin. destruct (Hnew l Hin) as [Hnone _].
      subst s1. simpl in Hnone. by rewrite lookup_insert_eq in Hnone. }
    exists (l :: ls), s2. repeat split; try done.
    + simpl. by rewrite Hlen.
    + by apply NoDup_cons.
    + apply elem_of_cons in H as [->|H]; [done|].
      destruct (Hnew l0 H) as [Hnone _]. subst s1. simpl in Hnone.
      rewrite lookup_insert_ne in Hnone; [done|]. congruence.
    + apply elem_of_cons in H as [->|H].
      * rewrite Hold by done. subst s1. simpl. by rewrite lookup_insert_eq.
      * by apply Hnew.
    + intros l0 Hl0. apply not_elem_of_cons in Hl0 as [Hne Hl0].
      rewrite Hold by done. subst s1. simpl. by rewrite lookup_insert_ne.
Qed.

Lemma new_grid_spec r c s :
  Array_valid r = true → Array_valid c = true →
  ∃ ls s', new_grid r c s = Some (ls, s')
    ∧ length ls = Z.to_nat r ∧ NoDup ls
    ∧ (∀ l, l ∈ ls → heap s !! l = None ∧
                      heap s' !! l = Some (replicate (Z.to_nat c) (Bool false)))
    ∧ (∀ l, l ∉ ls → heap s' !! l = heap s !! l)
    ∧ same_vars s s'.
Proof.
  intros Hr Hc. unfold new_grid. rewrite Hr. by apply new_rows_spec.
Qed.

(** Column [j] lies in the band that [initializeGrid] leaves empty. *)
Definition centre (c j : Z) : bool :=
  negb (lt_num j (leftColumnEnd c) || ge_num j (rightColumnStart c)).

Definition row_ok (c : Z) (rw : row) : Prop :=
  length rw = Z.to_nat c ∧ Forall is_bool rw ∧
  ∀ j, 0 ≤ j < c → centre c j = true → rw !! Z.to_nat j = Some (Bool false).

Lemma row_ok_fresh c : 0 ≤ c → row_ok c (replicate (Z.to_nat c) (Bool false)).
Proof.
  intros Hc. split; [apply length_replicate|]. split.
  - apply Forall_replicate. exact I.
  - intros j Hj _. apply lookup_replicate_2. lia.
Qed.

Section Seeding.
Variable Math_random : nat → float.

(** What the seeding loops keep true. *)
Definition seeded (s3 st : state) : Prop :=
  same_vars s3 st ∧
  ∀ l, l ∈ grid s3 ++ nextGrid s3 →
       ∃ rw, heap st !! l = Some rw ∧ row_ok (cols s3) rw.

Lemma seed_cell (s3 st : state) i j :
  length (grid s3) = Z.to_nat (rows s3) →
  seeded s3 st → 0 ≤ i < rows s3 → 0 ≤ j < cols s3 →
  ∃ st',
    (if lt_num j (leftColumnEnd (cols s3))
        || ge_num j (rightColumnStart (cols s3)) then
       let r := Math_random (draws st) in
       write_cell (grid st) i j (Bool (0.8 <? r)%float)
                  (set_draws (S (draws st)) st)
     else Some st) = Some st'
    ∧ seeded s3 st'.
Proof.
  intros Hlen [Hv Hrows] Hi Hj.
  destruct (lt_num j _ || ge_num j _) eqn:Hside; [|by exists st].
  destruct (same_vars_fields s3 st Hv) as (Hc & Hr & Hg & Hng).
  cbv zeta. unfold write_cell. rewrite Hg.
  destruct (elem_Some (grid s3) i) as (l & -> & Hl); [lia|].
  destruct (Hrows l) as (rw & Hrw & Hlenrw & Hb & Hcentre).
  { apply elem_of_app. by left. }
  simpl heap. rewrite Hrw. eexists. split; [reflexivity|].
  split; [done|]. intros l' Hl'. simpl.
  destruct (decide (l' = l)) as [->|Hne].
  - rewrite lookup_insert_eq. eexists. split; [reflexivity|].
    rewrite row_set_in_range by lia. split; [by rewrite length_insert|].
    split; [by apply Forall_insert|].
    intros j' Hj' Hc'. rewrite list_lookup_insert_ne; [by apply Hcentre|].
    intros Heq. assert (j' = j) as -> by lia.
    unfold centre in Hc'. rewrite Hside in Hc'. done.
  - rewrite lookup_insert_ne by done. by apply Hrows.
Qed.

Lemma seed_loops (s3 : state) :
  length (grid s3) = Z.to_nat (rows s3) →
  seeded s3 s3 →
  ∃ st,
    forM (seqZ 0 (rows s3)) (λ i,
      forM (seqZ 0 (cols s3)) (λ j st,
        if lt_num j (leftColumnEnd (cols s3))
           || ge_num j (rightColumnStart (cols s3)) then
          let r := Math_random (draws st) in
          write_cell (grid st) i j (Bool (0.8 <? r)%float)
                     (set_draws (S (draws st)) st)
        else Some st)) s3 = Some st
    ∧ seeded s3 st.
Proof.
  intros Hlen H0.
  apply (forM_invariant (λ _ st, seeded s3 st)); [done|].
  intros seen i rest s1 Hsplit Hs1.
  assert (0 ≤ i < rows s3) as Hi.
  { assert (i ∈ seqZ 0 (rows s3)) as Hin.
    { rewrite Hsplit. apply elem_of_app. right. left. }
    apply elem_of_seqZ in Hin. lia. }
  apply (forM_invariant (λ _ st, seeded s3 st)); [done|].
  intros seen' j rest' s2 Hsplit' Hs2.
  assert (0 ≤ j < cols s3) as Hj.
  { assert (j ∈ seqZ 0 (cols s3)) as Hin.
    { rewrite Hsplit'. apply elem_of_app. right. left. }
    apply elem_of_seqZ in Hin. lia. }
  by apply seed_cell.
Qed.

(** [initializeGrid] builds two disjoint grids of [rows] by [cols]
    booleans and leaves the centre band of [grid] dead. *)
Lemma initializeGrid_spec (s : state) :
  Array_valid (rows s) = true → Array_valid (cols s) = true →
  ∃ s', initializeGrid Math_random s = Some s'
    ∧ wf s'
    ∧ same_vars (set_grids (grid s') (nextGrid s') s) s'
    ∧ ∀ l, l ∈ grid s' → ∃ rw, heap s' !! l = Some rw ∧ row_ok (cols s) rw.
Proof.
  intros Hr Hc. unfold initializeGrid.
  destruct (new_grid_spec (rows s) (cols s) s Hr Hc)
    as (g & s1 & -> & Hglen & Hgnd & Hgnew & Hgold & Hv1).
  destruct (same_vars_fields s s1 Hv1) as (Hc1 & Hr1 & _ & _).
  rewrite Hc1, Hr1.
  destruct (new_grid_spec (rows s) (cols s) s1 Hr Hc)
    as (ng & s2 & -> & Hnlen & Hnnd & Hnnew & Hnold & Hv2).
  destruct (same_vars_fields s1 s2 Hv2) as (Hc2 & Hr2 & _ & _).
  apply Array_valid_range in Hr, Hc.
  set (s3 := set_grids g ng s2).
  assert (cols s3 = cols s) as Hc3 by (simpl; congruence).
  assert (rows s3 = rows s) as Hr3 by (simpl; congruence).
  assert (∀ l, l ∈ g → l ∉ ng) as Hdisj.
  { intros l Hl Hl'. destruct (Hgnew l Hl) as [_ Hsome].
    destruct (Hnnew l Hl') as [Hnone _]. congruence. }
  destruct (seed_loops s3) as (st & Hrun & Hv & Hrows).
  { simpl. congruence. }
  { split; [apply same_vars_refl|]. simpl. intros l Hl. rewrite Hc2, Hc1.
    exists (replicate (Z.to_nat (cols s)) (Bool false)).
    split; [|apply row_ok_fresh; lia].
    apply elem_of_app in Hl as [Hl|Hl].
    - rewrite Hnold by (by apply Hdisj). by apply Hgnew.
    - by apply Hnnew. }
  exists st. split; [exact Hrun|].
  destruct (same_vars_fields s3 st Hv) as (Hc4 & Hr4 & Hg4 & Hng4).
  rewrite Hc3 in Hrows. simpl in Hg4, Hng4, Hrows.
  split.
  { split; rewrite ?Hc4, ?Hr4, ?Hg4, ?Hng4, ?Hc3, ?Hr3; try lia.
    - apply NoDup_app. repeat split; done.
    - intros l Hl. destruct (Hrows l Hl) as (rw & Hrw & Hlen & Hb & _).
      exists rw. done. }
  split.
  { rewrite Hg4, Hng4. eapply same_vars_trans; [|exact Hv].
    apply same_vars_set_grids. by eapply same_vars_trans. }
  rewrite Hg4. intros l Hl. apply Hrows. apply elem_of_app. by left.
Qed.

End Seeding.




(** *** The grid follows the viewport *)

(** The grid and the canvas have the dimensions the window gives. *)
Definition dims_match (s : state) : Prop :=
  rows s = floor_div (innerHeight s) (cellSize s)
  ∧ cols s = floor_div (innerWidth s) (cellSize s)
  ∧ length (grid s) = Z.to_nat (rows s)
  ∧ length (nextGrid s) = Z.to_nat (rows s)
  ∧ (∀ l, l ∈ grid s ++ nextGrid s →
          ∃ rw, heap s !! l = Some rw ∧ length rw = Z.to_nat (cols s))
  ∧ canvas s = Some (mkCanvas (cols s * cellSize s) (rows s * cellSize s)).

(** [window.innerWidth] and [window.innerHeight] are non-negative
    32-bit integers. *)
Definition window_ok (w h : Z) : Prop := 0 ≤ w < 2 ^ 31 ∧ 0 ≤ h < 2 ^ 31.

Definition event_ok (e : event) : Prop :=
  match e with
  | Resize w h => window_ok w h
  | Tick => True
  end.

Lemma same_vars_config s st :
  same_vars s st →
  cellSize st = cellSize s ∧ canvas st = canvas s ∧ browser st = browser s
  ∧ isRunning st = isRunning s ∧ innerWidth st = innerWidth s
  ∧ innerHeight st = innerHeight s.
Proof.
  intros H. repeat split.
  - exact (f_equal cellSize H).
  - exact (f_equal canvas H).
  - exact (f_equal browser H).
  - exact (f_equal isRunning H).
  - exact (f_equal innerWidth H).
  - exact (f_equal innerHeight H).
Qed.

(** The invariant of the mounted component. *)
Definition mounted (s : state) : Prop :=
  wf s ∧ dims_match s ∧ cellSize s = 15 ∧ browser s = true
  ∧ window_ok (innerWidth s) (innerHeight s).

Lemma wf_dims s :
  wf s →
  length (grid s) = Z.to_nat (rows s)
  ∧ length (nextGrid s) = Z.to_nat (rows s)
  ∧ (∀ l, l ∈ grid s ++ nextGrid s →
          ∃ rw, heap s !! l = Some rw ∧ length rw = Z.to_nat (cols s)).
Proof.
  intros W. split; [apply W|]. split; [apply W|].
  intros l Hl. destruct (wf_heap s W l Hl) as (rw & Hrw & Hlen & _).
  by exists rw.
Qed.

Section Viewport.
Variable Math_random : nat → float.

(** Measuring the window, sizing the canvas and rebuilding the grid: the
    common part of [onMount] and [handleResize]. *)
Lemma measure_and_build (s : state) cv :
  cellSize s = 15 → browser s = true → canvas s = Some cv →
  window_ok (innerWidth s) (innerHeight s) →
  ∃ s',
    initializeGrid Math_random
      (resize_canvas (set_dims (floor_div (innerWidth s) (cellSize s))
                               (floor_div (innerHeight s) (cellSize s)) s))
    = Some s'
    ∧ mounted s'.
Proof.
  intros Hcs Hbr Hcv [Hw Hh].
  set (s1 := resize_canvas _).
  assert (s1 = set_canvas
                 (Some (mkCanvas (innerWidth s / 15 * 15)
                                 (innerHeight s / 15 * 15)))
                 (set_dims (innerWidth s / 15) (innerHeight s / 15) s))
    as Hs1.
  { subst s1. unfold resize_canvas. simpl canvas. rewrite Hcv.
    unfold floor_div. simpl. rewrite Hcs. done. }
  destruct (initializeGrid_spec Math_random s1) as (s' & Hrun & W & Hv & _).
  { rewrite Hs1. simpl. apply Array_valid_range.
    split; [apply Z.div_pos; lia|].
    apply Z.div_lt_upper_bound; lia. }
  { rewrite Hs1. simpl. apply Array_valid_range.
    split; [apply Z.div_pos; lia|].
    apply Z.div_lt_upper_bound; lia. }
  exists s'. split; [done|].
  destruct (same_vars_fields _ _ Hv) as (Hc' & Hr' & _ & _).
  destruct (same_vars_config _ _ Hv) as (Hcs' & Hcv' & Hbr' & _ & Hw' & Hh').
  rewrite Hs1 in Hc', Hr', Hcs', Hcv', Hbr', Hw', Hh'.
  simpl in Hc', Hr', Hcs', Hcv', Hbr', Hw', Hh'.
  destruct (wf_dims s' W) as (Hg & Hng & Hrows).
  split; [done|]. split.
  { unfold dims_match, floor_div.
    rewrite Hr' in Hg, Hng. rewrite Hc' in Hrows.
    rewrite Hc', Hr', Hcs', Hcv', Hw', Hh', Hcs. done. }
  rewrite Hcs', Hbr', Hw', Hh'. done.
Qed.

Lemma onMount_mounted cv w h :
  window_ok w h →
  ∃ s', onMount Math_random (initial (Some cv) w h) = Some s' ∧ mounted s'.
Proof.
  intros Hwin. unfold onMount.
  apply (measure_and_build (set_browser true (initial (Some cv) w h)) cv);
    done.
Qed.

Lemma step_mounted e s :
  event_ok e → mounted s →
  ∃ s', step Math_random e s = Some s' ∧ mounted s'.
Proof.
  intros He (W & Hd & Hcs & Hbr & Hwin).
  destruct e as [w h|]; simpl.
  - unfold handleResize. simpl browser. rewrite Hbr. simpl negb. cbv iota.
    destruct Hd as (_ & _ & _ & _ & _ & Hcv).
    by eapply (measure_and_build (set_window w h s)).
  - unfold animate. destruct (isRunning s).
    + destruct (generation_step s W) as (s' & Hrun & W' & Hv & _).
      exists s'. split; [done|].
      destruct (same_vars_fields _ _ Hv) as (Hc' & Hr' & _ & _).
      destruct (same_vars_config _ _ Hv)
        as (Hcs' & Hcv' & Hbr' & _ & Hw' & Hh').
      simpl in Hc', Hr', Hcs', Hcv', Hbr', Hw', Hh'.
      destruct (wf_dims s' W') as (Hg & Hng & Hrows).
      destruct Hd as (Hdr & Hdc & _ & _ & _ & Hcv).
      split; [done|]. split.
      { unfold dims_match.
        rewrite Hr' in Hg, Hng. rewrite Hc' in Hrows.
        rewrite Hcs', Hcv', Hw', Hh', Hc', Hr'. done. }
      rewrite Hcs', Hbr', Hw', Hh'. done.
    + exists s. done.
Qed.

Lemma run_mounted es s :
  Forall event_ok es → mounted s →
  ∃ s', run Math_random es s = Some s' ∧ mounted s'.
Proof.
  intros Hes. revert s. induction Hes as [|e es He Hes IH]; intros s Hs.
  - exists s. done.
  - destruct (step_mounted e s He Hs) as (s1 & Hstep & Hs1).
    simpl. rewrite Hstep. by apply IH.
Qed.

End Viewport.

(** C9: mounting the component in a window, and every sequence of resize
    events and timer ticks after it, runs without an exception and leaves
    [grid] and [nextGrid] with [rows = floor(innerHeight / cellSize)] rows
    of [cols = floor(innerWidth / cellSize)] cells each, and the canvas
    [cols * cellSize] wide and [rows * cellSize] high. *)
Theorem grid_matches_viewport (Math_random : nat → float)
    (cv : canvas_el) (w h : Z) (es : list event) :
  window_ok w h → Forall event_ok es →
  ∃ s1 s2,
    onMount Math_random (initial (Some cv) w h) = Some s1
    ∧ dims_match s1
    ∧ run Math_random es s1 = Some s2
    ∧ dims_match s2.
Proof.
  intros Hwin Hes.
  destruct (onMount_mounted Math_random cv w h Hwin) as (s1 & Hm & Hs1).
  destruct (run_mounted Math_random es s1 Hes Hs1) as (s2 & Hr & Hs2).
  exists s1, s2. split; [done|]. split; [apply Hs1|].
  split; [done|]. apply Hs2.
Qed.

Lemma grid_matches_viewport_witness :
  ∃ s1 s2,
    onMount (λ _, 0.9%float) (initial (Some (mkCanvas 300 150)) 100 50)
      = Some s1
    ∧ dims_match s1
    ∧ run (λ _, 0.9%float) [Tick; Resize 47 31; Tick] s1 = Some s2
    ∧ dims_match s2.
Proof.
  apply grid_matches_viewport.
  - unfold window_ok. lia.
  - repeat constructor; simpl; lia.
Defined.
End LifeFacts.

(** * Further properties of the code *)

(** A loop that ends normally has kept every property its iterations
    keep. *)
Lemma forM_preserves {S : Type} (P : S → Prop) (body : Z → S → option S)
    (l : list Z) (s s' : S) :
  (∀ i s1 s2, i ∈ l → body i s1 = Some s2 → P s1 → P s2) →
  forM l body s = Some s' → P s → P s'.
Proof.
  revert s. induction l as [|i l IH]; intros s Hstep Hrun HP; simpl in Hrun.
  - by injection Hrun as <-.
  - destruct (body i s) as [s1|] eqn:Hb; [|done].
    apply (IH s1); [|done|].
    + intros j s2 s3 Hj. apply Hstep. by right.
    + apply (Hstep i s s1); [by left|done..].
Qed.

(** ** The Game of Life backdrop, continued *)

Module LifeMore.
Import Life LifeFacts.

(** A grid of a single cell holding [b], with its second buffer. *)
Definition lonely (b : bool) : state :=
  mkState 1 1 15 [0%nat] [1%nat] true None true
          (<[0%nat := [Bool b]]> (<[1%nat := [Bool false]]> ∅)) 0 15 15.

Lemma lonely_wf b : wf (lonely b).
Proof.
  split; simpl; try lia; try reflexivity.
  - repeat (apply NoDup_cons; split;
            [rewrite ?not_elem_of_cons; repeat split; try lia;
             apply not_elem_of_nil|]).
    apply NoDup_nil_2.
  - intros l Hl.
    repeat (apply elem_of_cons in Hl as [->|Hl];
            [eexists; split; [reflexivity|];
             split; [reflexivity|]; by repeat constructor|]).
    by apply elem_of_nil in Hl.
Qed.

(** *** Neighbour counts *)

Lemma neighbours_in_range nrows ncols x y p :
  0 < nrows → 0 < ncols → p ∈ neighbours nrows ncols x y →
  0 ≤ p.1 < nrows ∧ 0 ≤ p.2 < ncols.
Proof.
  intros Hr Hc Hp. unfold neighbours in Hp.
  apply list_elem_of_fmap in Hp as (o & -> & _). simpl.
  split; apply Z.mod_pos_bound; lia.
Qed.

Lemma live_count_bounds h g ps :
  0 ≤ live_count h g ps ≤ Z.of_nat (length ps).
Proof.
  unfold live_count. pose proof (length_filter (λ p, alive h g p = true) ps).
  lia.
Qed.

Lemma live_count_uniform h g ps (b : bool) :
  (∀ p, p ∈ ps → alive h g p = b) →
  live_count h g ps = if b then Z.of_nat (length ps) else 0.
Proof.
  intros H. induction ps as [|p ps IH].
  - by destruct b.
  - rewrite live_count_cons, (H p) by left.
    rewrite IH by (intros q Hq; apply H; by right).
    destruct b; simpl length; simpl Z.b2z; lia.
Qed.

(** X1: for a cell of the grid [countNeighbors] returns, and its result
    lies between 0 and 8. *)
Theorem countNeighbors_range (s : state) (g : list loc) (x y : Z) :
  0 ≤ x < cols s → 0 ≤ y < rows s →
  length g = Z.to_nat (rows s) → rows_allocated (heap s) g →
  ∃ n, countNeighbors s g x y = Some n ∧ 0 ≤ n ≤ 8.
Proof.
  intros Hx Hy Hlen Hal. eexists. split; [by apply countNeighbors_sum|].
  apply (live_count_bounds (heap s) g (neighbours (rows s) (cols s) x y)).
Qed.

Lemma countNeighbors_range_witness :
  ∃ n, countNeighbors blinker (grid blinker) 1 1 = Some n ∧ 0 ≤ n ≤ 8.
Proof.
  apply countNeighbors_range.
  - simpl; lia.
  - simpl; lia.
  - reflexivity.
  - exact blinker_allocated.
Defined.

(** Nothing can be read from an outer array without rows. *)
Lemma countNeighbors_nil (s : state) (x y : Z) :
  countNeighbors s [] x y = None.
Proof.
  unfold countNeighbors. change (seqZ (-1) 3) with [-1; 0; 1].
  cbn [forM Z.eqb andb]. unfold read_cell.
  by destruct (js_rem (y + -1 + rows s) (rows s)) as [z|];
    simpl; [destruct (z <? 0)|].
Qed.

(** X2: before the grid is built ([grid] is the empty array, while
    [rows] and [cols] are positive) a generation step throws: the first
    neighbour read hits [undefined]. *)
Theorem computeNextGeneration_unbuilt (s : state) :
  grid s = [] → 0 < rows s → 0 < cols s →
  computeNextGeneration s = None ∧ animate s = (if isRunning s then None else Some s).
Proof.
  intros Hg Hr Hc.
  assert (computeNextGeneration s = None) as H.
  { unfold computeNextGeneration.
    rewrite (seqZ_cons 0 (rows s)), (seqZ_cons 0 (cols s)) by lia.
    cbn [forM]. rewrite Hg, countNeighbors_nil. done. }
  split; [done|]. unfold animate. by rewrite H.
Qed.

Lemma computeNextGeneration_unbuilt_witness :
  computeNextGeneration (initial None 1280 720) = None.
Proof.
  apply (computeNextGeneration_unbuilt (initial None 1280 720));
    [reflexivity | simpl; lia | simpl; lia].
Defined.


(** *** Uniform grids *)

(** Every cell of the grid holds [b]. *)
Definition uniform (s : state) (b : bool) : Prop :=
  ∀ i j, 0 ≤ i < rows s → 0 ≤ j < cols s →
         read_cell (heap s) (grid s) (Some i) (Some j) = Some (Bool b).

(** X3: a grid without live cells stays so, and a grid of live cells
    only is empty after one step (every cell then has eight live
    neighbours, whatever the size of the torus). *)
Theorem uniform_grid_dies (s : state) (b : bool) :
  wf s → uniform s b →
  ∃ s', computeNextGeneration s = Some s' ∧ uniform s' false.
Proof.
  intros W Hu.
  destruct (generation_step s W) as (s' & Hrun & W' & Hv & Hcells).
  destruct (same_vars_fields _ _ Hv) as (Hc & Hr & Hg & Hng).
  simpl in Hc, Hr, Hg, Hng.
  exists s'. split; [done|]. intros i j Hi Hj. rewrite Hr in Hi.
  rewrite Hc in Hj. rewrite Hg.
  destruct (Hcells i j Hi Hj) as (b0 & n & Hold & Hn & Hnew & _).
  rewrite (Hu i j Hi Hj) in Hold. injection Hold as <-.
  rewrite countNeighbors_sum in Hn;
    [| lia | lia | apply W | by apply wf_allocated].
  rewrite (live_count_uniform _ _ _ b) in Hn.
  - injection Hn as <-. rewrite Hnew. by destruct b.
  - intros p Hp.
    apply neighbours_in_range in Hp as [Hp1 Hp2]; [|lia..].
    unfold alive, cell_at. by rewrite (Hu _ _ Hp1 Hp2).
Qed.

Lemma uniform_grid_dies_witness :
  ∃ s', computeNextGeneration (lonely true) = Some s' ∧ uniform s' false.
Proof.
  apply (uniform_grid_dies (lonely true) true).
  - exact (lonely_wf true).
  - intros i j Hi Hj. simpl in Hi, Hj.
    assert (i = 0) as -> by lia. assert (j = 0) as -> by lia. reflexivity.
Defined.

(** *** The two buffers *)

Lemma computeNextGeneration_dom (s s' : state) :
  wf s → computeNextGeneration s = Some s' → dom (heap s') = dom (heap s).
Proof.
  intros W Hrun.
  destruct (generation_loops s W) as (st & Hloops & _ & Hoff & Hn & _).
  unfold computeNextGeneration in Hrun. rewrite Hloops in Hrun.
  injection Hrun as <-. simpl. apply set_eq. intros l.
  rewrite !elem_of_dom.
  destruct (decide (l ∈ nextGrid s)) as [Hl|Hl].
  - destruct (Hn l Hl) as (rw & -> & _).
    destruct (wf_heap s W l) as (rw' & -> & _); [|done].
    apply elem_of_app. by right.
  - by rewrite Hoff.
Qed.

(** X4: a generation step allocates no array: it rewrites the rows of
    [nextGrid] in place and exchanges the two variables, so that after
    two steps [grid] and [nextGrid] hold the arrays they held before. *)
Theorem two_generations_reuse_buffers (s : state) :
  wf s →
  ∃ s1 s2,
    computeNextGeneration s = Some s1
    ∧ computeNextGeneration s1 = Some s2
    ∧ grid s1 = nextGrid s ∧ nextGrid s1 = grid s
    ∧ grid s2 = grid s ∧ nextGrid s2 = nextGrid s
    ∧ dom (heap s1) = dom (heap s) ∧ dom (heap s2) = dom (heap s).
Proof.
  intros W.
  destruct (generation_step s W) as (s1 & Hrun1 & W1 & Hv1 & _).
  destruct (generation_step s1 W1) as (s2 & Hrun2 & W2 & Hv2 & _).
  destruct (same_vars_fields _ _ Hv1) as (_ & _ & Hg1 & Hng1).
  destruct (same_vars_fields _ _ Hv2) as (_ & _ & Hg2 & Hng2).
  simpl in Hg1, Hng1, Hg2, Hng2.
  exists s1, s2. split; [done|]. split; [done|].
  split; [done|]. split; [done|].
  split; [congruence|]. split; [congruence|].
  pose proof (computeNextGeneration_dom s s1 W Hrun1) as Hd1.
  pose proof (computeNextGeneration_dom s1 s2 W1 Hrun2) as Hd2.
  split; [done|]. by rewrite Hd2.
Qed.

Lemma two_generations_reuse_buffers_witness :
  ∃ s1 s2,
    computeNextGeneration blinker = Some s1
    ∧ computeNextGeneration s1 = Some s2
    ∧ grid s2 = grid blinker.
Proof.
  destruct (two_generations_reuse_buffers blinker blinker_wf)
    as (s1 & s2 & H1 & H2 & _ & _ & Hg & _).
  exists s1, s2. split; [exact H1|]. split; [exact H2|exact Hg].
Defined.


(** *** Rebuilding the grid *)

Section Rebuild.
Variable Math_random : nat → float.

(** The seeding loops write rows of [grid] only. *)
Lemma seed_frame (s3 st : state) :
  forM (seqZ 0 (rows s3)) (λ i,
    forM (seqZ 0 (cols s3)) (λ j st,
      if lt_num j (leftColumnEnd (cols s3))
         || ge_num j (rightColumnStart (cols s3)) then
        let r := Math_random (draws st) in
        write_cell (grid st) i j (Bool (0.8 <? r)%float)
                   (set_draws (S (draws st)) st)
      else Some st)) s3 = Some st →
  grid st = grid s3 ∧ nextGrid st = nextGrid s3
  ∧ ∀ l, l ∉ grid s3 → heap st !! l = heap s3 !! l.
Proof.
  set (P := λ st : state,
         grid st = grid s3 ∧ nextGrid st = nextGrid s3
         ∧ ∀ l, l ∉ grid s3 → heap st !! l = heap s3 !! l).
  intros Hrun. apply (forM_preserves P) in Hrun; [apply Hrun | | done].
  intros i s1 s2 _ Hrow HP. apply (forM_preserves P) in Hrow; [done| |done].
  clear. intros j s1 s2 _ Hcell (Hg & Hng & Hfr).
  destruct (lt_num j _ || ge_num j _); [|by injection Hcell as <-].
  cbv zeta in Hcell. unfold write_cell in Hcell.
  destruct (elem (grid s1) (Some i)) as [l|] eqn:Hl; [|done].
  simpl heap in Hcell. destruct (heap s1 !! l) as [rw|]; [|done].
  injection Hcell as <-. split; [done|]. split; [done|].
  intros l' Hl'. simpl.
  rewrite lookup_insert_ne; [by apply Hfr|].
  intros ->. apply Hl'. rewrite <- Hg. by eapply elem_elem_of.
Qed.

(** X5: [initializeGrid] builds both grids from arrays that did not exist
    before and leaves every array that existed as it was: nothing of the
    previous grid is reused or overwritten when the window is resized. *)
Theorem initializeGrid_fresh (s : state) :
  Array_valid (rows s) = true → Array_valid (cols s) = true →
  ∃ s', initializeGrid Math_random s = Some s'
    ∧ (∀ l, l ∈ grid s' ++ nextGrid s' → heap s !! l = None)
    ∧ (∀ l, is_Some (heap s !! l) → heap s' !! l = heap s !! l).
Proof.
  intros Hr Hc.
  destruct (initializeGrid_spec Math_random s Hr Hc) as (s' & Hrun & _).
  exists s'. split; [done|].
  unfold initializeGrid in Hrun.
  destruct (new_grid_spec (rows s) (cols s) s Hr Hc)
    as (g & s1 & Hg & _ & _ & Hgnew & Hgold & Hv1).
  rewrite Hg in Hrun.
  destruct (same_vars_fields s s1 Hv1) as (Hc1 & Hr1 & _ & _).
  rewrite Hc1, Hr1 in Hrun.
  destruct (new_grid_spec (rows s) (cols s) s1 Hr Hc)
    as (ng & s2 & Hng & _ & _ & Hnnew & Hnold & Hv2).
  rewrite Hng in Hrun.
  destruct (seed_frame _ _ Hrun) as (Hgs & Hngs & Hframe).
  simpl in Hgs, Hngs, Hframe. rewrite Hgs, Hngs.
  assert (∀ l, l ∈ g ++ ng → heap s !! l = None) as Hnew.
  { intros l Hl. apply elem_of_app in Hl as [Hl|Hl]; [by apply Hgnew|].
    destruct (Hnnew l Hl) as [Hnone _].
    destruct (decide (l ∈ g)) as [Hlg|Hlg].
    - destruct (Hgnew l Hlg) as [_ Hsome]. congruence.
    - by rewrite <- (Hgold l Hlg). }
  split; [done|]. intros l [rw Hl].
  assert (l ∉ g ++ ng) as Hnot.
  { intros Hin. specialize (Hnew l Hin). congruence. }
  apply not_elem_of_app in Hnot as [Hng' Hnn'].
  rewrite Hframe, Hnold, Hgold by done. done.
Qed.

End Rebuild.

Lemma initializeGrid_fresh_witness :
  ∃ s', initializeGrid (λ _, 0.9%float) blinker = Some s'
        ∧ (∀ l, l ∈ grid s' ++ nextGrid s' → heap blinker !! l = None)
        ∧ (∀ l, is_Some (heap blinker !! l) →
                heap s' !! l = heap blinker !! l).
Proof.
  apply (initializeGrid_fresh (λ _, 0.9%float) blinker); reflexivity.
Defined.

End LifeMore.

(** ** Seeding the grid *)

Module LifeSeeding.
Import Life LifeFacts.








Section Seeds.
Variable Math_random : nat → float.





End Seeds.


End LifeSeeding.

(** ** Drawing and the life cycle of the canvas component *)

Module LifeComponentFacts.
Import Life LifeFacts LifeComponent.

(** A loop whose iterations append to a list appends their outputs in
    order. *)
Lemma forM_append {A : Type} (f : Z → list A)
    (body : Z → list A → option (list A)) (l : list Z) (acc : list A) :
  (∀ i acc, i ∈ l → body i acc = Some (acc ++ f i)) →
  forM l body acc = Some (acc ++ concat (map f l)).
Proof.
  revert acc. induction l as [|i l IH]; intros acc H; simpl.
  - by rewrite app_nil_r.
  - rewrite (H i acc) by left. rewrite IH by (intros; apply H; by right).
    by rewrite app_assoc.
Qed.

Lemma elem_of_concat {A : Type} (x : A) (ls : list (list A)) :
  x ∈ concat ls ↔ ∃ l, x ∈ l ∧ l ∈ ls.
Proof.
  induction ls as [|l ls IH]; simpl.
  - split; [by intros ?%elem_of_nil | by intros (l & _ & ?%elem_of_nil)].
  - rewrite elem_of_app, IH. split.
    + intros [Hx | (l' & Hx & Hl')].
      * exists l. split; [done | by left].
      * exists l'. split; [done | by right].
    + intros (l' & Hx & Hl'). apply elem_of_cons in Hl' as [->|Hl'];
        [by left | right; by exists l'].
Qed.

(** *** [drawGrid] *)

(** What is drawn for the cell in row [i], column [j]. *)
Definition cell_ops (s : state) (i j : Z) : list canvas_op :=
  if truthy (cell_at (heap s) (grid s) i j) then
    [BeginPath;
     Rect (j * cellSize s) (i * cellSize s) (cellSize s - 1) (cellSize s - 1);
     Stroke]
  else [].

Definition painted (s : state) : list canvas_op :=
  concat (map (λ i, concat (map (cell_ops s i) (seqZ 0 (cols s))))
              (seqZ 0 (rows s))).

Lemma drawGrid_ops (s : state) (cv : canvas_el) :
  wf s → canvas s = Some cv →
  drawGrid true s
  = Some ([ClearRect 0 0 (width cv) (height cv);
           StrokeStyle (JS.lit "#b6b6b6cc"); LineWidth 1] ++ painted s).
Proof.
  intros W Hcv. unfold drawGrid. rewrite Hcv. simpl negb. cbv iota.
  rewrite (wf_grid s W), Z2Nat.id by apply W.
  apply (forM_append (λ i, concat (map (cell_ops s i) (seqZ 0 (cols s))))).
  intros i ops Hi. apply elem_of_seqZ in Hi.
  unfold row_length.
  destruct (elem_Some (grid s) i) as (l & -> & Hl).
  { rewrite (wf_grid s W). lia. }
  destruct (wf_heap s W l) as (rw & Hrw & Hlen & _).
  { apply elem_of_app. by left. }
  rewrite Hrw, Hlen, Z2Nat.id by apply W.
  apply (forM_append (cell_ops s i)).
  intros j ops' Hj. apply elem_of_seqZ in Hj.
  destruct (cell_at_bool s i j W) as [b Hb]; [lia..|].
  rewrite Hb. unfold cell_ops, cell_at. rewrite Hb. simpl.
  destruct b; [done|]. by rewrite app_nil_r.
Qed.

Lemma elem_of_painted (s : state) (op : canvas_op) :
  op ∈ painted s ↔
  ∃ i j, 0 ≤ i < rows s ∧ 0 ≤ j < cols s ∧ op ∈ cell_ops s i j.
Proof.
  unfold painted. rewrite elem_of_concat. split.
  - intros (l & Hop & Hl). apply list_elem_of_fmap in Hl as (i & -> & Hi).
    apply elem_of_concat in Hop as (l' & Hop & Hl').
    apply list_elem_of_fmap in Hl' as (j & -> & Hj).
    apply elem_of_seqZ in Hi, Hj. exists i, j. split; [lia|]. split; [lia|done].
  - intros (i & j & Hi & Hj & Hop).
    exists (concat (map (cell_ops s i) (seqZ 0 (cols s)))). split.
    + apply elem_of_concat. exists (cell_ops s i j). split; [done|].
      apply (list_elem_of_fmap_2 (cell_ops s i)). apply elem_of_seqZ. lia.
    + apply (list_elem_of_fmap_2
               (λ i, concat (map (cell_ops s i) (seqZ 0 (cols s))))).
      apply elem_of_seqZ. lia.
Qed.

(** X7: on a mounted component [drawGrid] does not throw.  With a 2D
    context it issues exactly this sequence: it clears the whole canvas,
    sets the stroke colour and the line width, and then, row by row and
    from left to right within a row, begins a path, adds one square of
    side [cellSize - 1] at [(j * cellSize, i * cellSize)] and strokes it
    for each live cell (row [i], column [j]), and nothing for a dead cell.
    So a rectangle is drawn exactly for the live cells, once each, and
    every square lies inside the canvas.  Without a context it draws
    nothing. *)
Theorem drawGrid_paints_live_cells (s : state) :
  mounted s →
  ∃ ops cv,
    canvas s = Some cv
    ∧ drawGrid true s = Some ops
    ∧ ops = [ClearRect 0 0 (width cv) (height cv);
             StrokeStyle (JS.lit "#b6b6b6cc"); LineWidth 1]
            ++ concat
                 (map (λ i,
                    concat
                      (map (λ j,
                         match read_cell (heap s) (grid s) (Some i) (Some j)
                         with
                         | Some (Bool true) =>
                             [BeginPath;
                              Rect (j * cellSize s) (i * cellSize s)
                                   (cellSize s - 1) (cellSize s - 1);
                              Stroke]
                         | _ => []
                         end)
                         (seqZ 0 (cols s))))
                    (seqZ 0 (rows s)))
    ∧ drawGrid false s = Some []
    ∧ (∀ x y w h,
         Rect x y w h ∈ ops ↔
         ∃ i j, 0 ≤ i < rows s ∧ 0 ≤ j < cols s
                ∧ read_cell (heap s) (grid s) (Some i) (Some j)
                  = Some (Bool true)
                ∧ x = j * cellSize s ∧ y = i * cellSize s
                ∧ w = cellSize s - 1 ∧ h = cellSize s - 1)
    ∧ (∀ x y w h,
         Rect x y w h ∈ ops →
         0 ≤ x ∧ x + w < width cv ∧ 0 ≤ y ∧ y + h < height cv).
Proof.
  intros (W & Hd & Hcs & _).
  destruct Hd as (_ & _ & _ & _ & _ & Hcv).
  eexists _, _. split; [exact Hcv|].
  split; [by apply drawGrid_ops|].
  split.
  { f_equal. unfold painted. f_equal.
    apply list_fmap_ext. intros _ i Hi%list_elem_of_lookup_2.
    f_equal. apply list_fmap_ext. intros _ j Hj%list_elem_of_lookup_2.
    apply elem_of_seqZ in Hi, Hj.
    destruct (cell_at_bool s i j W) as [b Hb]; [lia..|].
    unfold cell_ops, cell_at. rewrite Hb. simpl. by destruct b. }
  split; [unfold drawGrid; by rewrite Hcv|].
  assert (∀ x y w h,
            Rect x y w h
            ∈ [ClearRect 0 0 (cols s * cellSize s) (rows s * cellSize s);
               StrokeStyle (JS.lit "#b6b6b6cc"); LineWidth 1] ++ painted s
            ↔ ∃ i j, 0 ≤ i < rows s ∧ 0 ≤ j < cols s
                     ∧ read_cell (heap s) (grid s) (Some i) (Some j)
                       = Some (Bool true)
                     ∧ x = j * cellSize s ∧ y = i * cellSize s
                     ∧ w = cellSize s - 1 ∧ h = cellSize s - 1) as Hrect.
  { intros x y w h. rewrite elem_of_app, elem_of_painted. split.
    - intros [Hhead | (i & j & Hi & Hj & Hop)].
      { repeat (apply elem_of_cons in Hhead as [Hhead|Hhead]; [done|]).
        by apply elem_of_nil in Hhead. }
      exists i, j. split; [done|]. split; [done|].
      destruct (cell_at_bool s i j W Hi Hj) as [b Hb].
      unfold cell_ops, cell_at in Hop. rewrite Hb in Hop. simpl in Hop.
      destruct b; [|by apply elem_of_nil in Hop].
      split; [done|].
      repeat (apply elem_of_cons in Hop as [Hop|Hop];
              [try done; by injection Hop as -> -> -> ->|]).
      by apply elem_of_nil in Hop.
    - intros (i & j & Hi & Hj & Hlive & -> & -> & -> & ->).
      right. exists i, j. split; [done|]. split; [done|].
      unfold cell_ops, cell_at. rewrite Hlive. simpl. right. left. }
  split; [exact Hrect|].
  intros x y w h Hin. apply Hrect in Hin
    as (i & j & Hi & Hj & _ & -> & -> & -> & ->).
  simpl. rewrite Hcs. nia.
Qed.

Lemma drawGrid_paints_live_cells_witness :
  ∃ s ops, onMount (λ _, 0.9%float) (initial (Some (mkCanvas 300 150)) 100 50)
           = Some s
           ∧ drawGrid true s = Some ops
           ∧ drawGrid false s = Some [].
Proof.
  destruct (onMount_mounted (λ _, 0.9%float) (mkCanvas 300 150) 100 50)
    as (s & Hm & Hs); [unfold window_ok; lia|].
  destruct (drawGrid_paints_live_cells s Hs)
    as (ops & cv & _ & Hops & _ & Hnone & _).
  exists s, ops. split; [exact Hm|]. split; [exact Hops|exact Hnone].
Defined.

(** *** The timer and the listener *)

(** No function assigns [isRunning]. *)
Lemma new_rows_isRunning n c s ls s' :
  new_rows n c s = Some (ls, s') → isRunning s' = isRunning s.
Proof.
  revert s ls. induction n as [|n IH]; intros s ls H; simpl in H.
  - by injection H as _ <-.
  - destruct (Array_valid c); [|done]. unfold alloc in H. cbv zeta in H.
    destruct (new_rows n c _) as [[ls1 s1]|] eqn:Hn; [|done].
    injection H as _ <-. by rewrite (IH _ _ Hn).
Qed.

Lemma write_cell_isRunning g i j v s s' :
  write_cell g i j v s = Some s' → isRunning s' = isRunning s.
Proof.
  unfold write_cell. destruct (elem g (Some i)) as [l|]; [|done].
  destruct (heap s !! l); [|done]. by intros [= <-].
Qed.

Lemma resize_canvas_isRunning s : isRunning (resize_canvas s) = isRunning s.
Proof. unfold resize_canvas. by destruct (canvas s). Qed.

Lemma initializeGrid_isRunning rnd s s' :
  initializeGrid rnd s = Some s' → isRunning s' = isRunning s.
Proof.
  unfold initializeGrid, new_grid. intros H.
  destruct (Array_valid (rows s)); [|done].
  destruct (new_rows _ _ s) as [[g s1]|] eqn:H1; [|done].
  destruct (Array_valid (rows s1)); [|done].
  destruct (new_rows _ _ s1) as [[ng s2]|] eqn:H2; [|done].
  cbv zeta in H.
  apply (forM_preserves (λ st, isRunning st = isRunning s)) in H; [done| |].
  - intros i sa sb _ Hrow Hsa.
    apply (forM_preserves (λ st, isRunning st = isRunning s)) in Hrow;
      [done| |done].
    intros j sc sd _ Hcell Hsc.
    destruct (_ || _); [|by injection Hcell as <-].
    apply write_cell_isRunning in Hcell. by rewrite Hcell.
  - simpl. rewrite (new_rows_isRunning _ _ _ _ _ H2).
    apply (new_rows_isRunning _ _ _ _ _ H1).
Qed.

Lemma computeNextGeneration_isRunning s s' :
  computeNextGeneration s = Some s' → isRunning s' = isRunning s.
Proof.
  unfold computeNextGeneration. intros H.
  destruct (forM _ _ s) as [st|] eqn:Hloops; [|done].
  injection H as <-. simpl.
  apply (forM_preserves (λ st, isRunning st = isRunning s)) in Hloops;
    [done| |done].
  intros i sa sb _ Hrow Hsa.
  apply (forM_preserves (λ st, isRunning st = isRunning s)) in Hrow;
    [done| |done].
  intros j sc sd _ Hcell Hsc.
  destruct (countNeighbors _ _ _ _); [|done].
  destruct (read_cell _ _ _ _); [|done].
  apply write_cell_isRunning in Hcell. by rewrite Hcell.
Qed.

(** Between mounting and teardown: the grid follows the window, the
    animation runs, the listener is registered and exactly one timeout is
    pending, the one [animationTimer] holds. *)
Definition active (c : component) : Prop :=
  mounted (vars c) ∧ isRunning (vars c) = true ∧ listening c = true
  ∧ ∃ id, timers c = [id] ∧ animationTimer c = Some id
          ∧ 0 < id < next_timer c.

(** After teardown: no timeout is pending and nothing listens. *)
Definition released (c : component) : Prop :=
  timers c = [] ∧ listening c = false.

Definition component_event_ok (e : LifeComponent.event) : Prop :=
  match e with
  | WindowResized w h => window_ok w h
  | _ => True
  end.

Lemma filter_other_singleton (id : Z) : filter (λ t, t ≠ id) [id] = [].
Proof.
  rewrite filter_cons, filter_nil.
  by rewrite decide_False by (intros H; by apply H).
Qed.

Section LifeCycle.
Variable Math_random : nat → float.
Variable has_context : bool.

Lemma drawGrid_mounted (s : state) :
  mounted s → ∃ ops, drawGrid has_context s = Some ops.
Proof.
  intros (W & Hd & _). destruct Hd as (_ & _ & _ & _ & _ & Hcv).
  destruct has_context.
  - eexists. by apply drawGrid_ops.
  - exists []. unfold drawGrid. by rewrite Hcv.
Qed.

Lemma mount_active cv w h :
  window_ok w h →
  ∃ c, mount Math_random has_context (unmounted (Some cv) w h) = Some c
       ∧ active c ∧ drawGrid has_context (vars c) = Some (drawn c).
Proof.
  intros Hwin. unfold mount, unmounted. simpl vars.
  destruct (onMount_mounted Math_random cv w h Hwin) as (s & Hon & Hs).
  rewrite Hon.
  destruct (drawGrid_mounted s Hs) as (ops & Hops). rewrite Hops.
  eexists. split; [reflexivity|]. split; [|exact Hops].
  split; [done|]. split.
  { simpl. unfold onMount in Hon. cbv zeta in Hon.
    apply initializeGrid_isRunning in Hon.
    by rewrite Hon, resize_canvas_isRunning. }
  split; [done|]. exists 1. simpl. repeat split; lia.
Qed.

Lemma onDestroy_released c : active c → released (onDestroy c).
Proof.
  intros ((_ & _ & _ & Hbr & _) & _ & _ & id & Ht & Ha & Hid).
  unfold onDestroy. rewrite Hbr, Ha. simpl negb. cbv iota.
  destruct (Z.eqb_spec id 0); [lia|]. unfold released, clearTimeout. simpl.
  split; [|done]. rewrite Ht. apply filter_other_singleton.
Qed.

Lemma onDestroy_stays_released c : released c → released (onDestroy c).
Proof.
  intros [Ht Hl]. unfold onDestroy.
  destruct (negb _); [done|]. unfold released. simpl. split; [|done].
  destruct (animationTimer c) as [id|]; [|done].
  destruct (id =? 0); [done|]. simpl. by rewrite Ht.
Qed.

Lemma timer_fires_active id c :
  active c → id ∈ timers c →
  ∃ c', timer_fires has_context id c = Some c' ∧ active c'
        ∧ computeNextGeneration (vars c) = Some (vars c')
        ∧ drawGrid has_context (vars c') = Some (drawn c').
Proof.
  intros (Hm & Hrun & Hl & id0 & Ht & Ha & Hid) Hin.
  rewrite Ht in Hin. apply list_elem_of_singleton in Hin as ->.
  unfold timer_fires, animate_and_draw. simpl vars. rewrite Ht, Hrun.
  rewrite filter_other_singleton.
  destruct (step_mounted Math_random Tick (vars c) I Hm) as (s' & Hs & Hm').
  simpl in Hs. unfold animate in Hs. rewrite Hrun in Hs. rewrite Hs.
  destruct (drawGrid_mounted s' Hm') as (ops & Hops).
  rewrite Hops. eexists. split; [reflexivity|].
  unfold active, schedule_animate. simpl.
  split; [|split; done].
  split; [done|].
  split; [by rewrite (computeNextGeneration_isRunning _ _ Hs)|].
  split; [done|]. exists (next_timer c). repeat split; lia.
Qed.

Lemma window_resized_active w h c :
  window_ok w h → active c →
  ∃ c', window_resized Math_random w h c = Some c' ∧ active c'
        ∧ drawn c' = drawn c.
Proof.
  intros Hwin (Hm & Hrun & Hl & id & Ht & Ha & Hid). unfold window_resized.
  destruct (step_mounted Math_random (Resize w h) (vars c) Hwin Hm)
    as (s' & Hs & Hm').
  simpl in Hs. rewrite Hs. eexists. split; [reflexivity|].
  split; [|done]. split; [done|]. split.
  { simpl. unfold handleResize in Hs.
    destruct (negb _); [injection Hs as <-; exact Hrun|]. cbv zeta in Hs.
    apply initializeGrid_isRunning in Hs.
    by rewrite Hs, resize_canvas_isRunning. }
  split; [done|]. by exists id.
Qed.

Lemma step_active e c :
  component_event_ok e → active c → enabled e c = true →
  ∃ c', LifeComponent.step Math_random has_context e c = Some c'
        ∧ (active c' ∨ released c').
Proof.
  intros He Hc Hen. unfold LifeComponent.step. rewrite Hen.
  destruct e as [id|w h|].
  - simpl in Hen. apply bool_decide_eq_true in Hen.
    destruct (timer_fires_active id c Hc Hen) as (c' & -> & Hc' & _).
    exists c'. split; [done|by left].
  - destruct (window_resized_active w h c He Hc) as (c' & -> & Hc' & _).
    exists c'. split; [done|by left].
  - eexists. split; [reflexivity|]. right. by apply onDestroy_released.
Qed.

Lemma step_released e c c' :
  released c → LifeComponent.step Math_random has_context e c = Some c' →
  e = Destroyed ∧ released c'.
Proof.
  intros Hc Hstep. pose proof Hc as [Ht Hl]. unfold LifeComponent.step in Hstep.
  destruct e as [id|w h|]; simpl in Hstep.
  - rewrite Ht in Hstep. rewrite bool_decide_eq_false_2 in Hstep; [done|].
    apply not_elem_of_nil.
  - by rewrite Hl in Hstep.
  - injection Hstep as <-. split; [done|]. by apply onDestroy_stays_released.
Qed.

Lemma run_active es c c' :
  Forall component_event_ok es → active c ∨ released c →
  LifeComponent.run Math_random has_context es c = Some c' →
  active c' ∨ released c'.
Proof.
  intros Hes. revert c. induction Hes as [|e es He Hes IH];
    intros c Hc Hrun; simpl in Hrun.
  - by injection Hrun as <-.
  - destruct (LifeComponent.step Math_random has_context e c) as [c1|]
      eqn:Hstep; [|done].
    apply (IH c1); [|done]. destruct Hc as [Hc|Hc].
    + destruct (enabled e c) eqn:Hen;
        [|unfold LifeComponent.step in Hstep; by rewrite Hen in Hstep].
      destruct (step_active e c He Hc Hen) as (c2 & Hs2 & Hc2). congruence.
    + right. by eapply step_released.
Qed.

(** X8: mounting leaves exactly one timeout pending and the resize
    listener registered, and so it stays through every timer tick and
    resize, none of which throws; [onDestroy] then clears the pending
    timeout and removes the listener, after which no timer can fire and no
    resize is delivered. *)
Theorem teardown_releases_timer_and_listener
    (cv : canvas_el) (w h : Z) :
  window_ok w h →
  ∃ c0,
    mount Math_random has_context (unmounted (Some cv) w h) = Some c0
    ∧ active c0
    ∧ (∀ es c, Forall component_event_ok es →
               LifeComponent.run Math_random has_context es c0 = Some c →
               active c ∨ released c)
    ∧ (∀ c e, active c → component_event_ok e → enabled e c = true →
              is_Some (LifeComponent.step Math_random has_context e c))
    ∧ (∀ c, active c → released (onDestroy c))
    ∧ (∀ c, released c →
            ∀ id w' h', enabled (TimerFires id) c = false
                        ∧ enabled (WindowResized w' h') c = false).
Proof.
  intros Hwin. destruct (mount_active cv w h Hwin) as (c0 & Hm & Hc0 & _).
  exists c0. split; [done|]. split; [done|].
  split; [|split; [|split]].
  - intros es c Hes Hrun. apply (run_active es c0 c Hes); [by left | done].
  - intros c e Hc He Hen.
    destruct (step_active e c He Hc Hen) as (c' & -> & _). by eexists.
  - apply onDestroy_released.
  - intros c [Ht Hl] id w' h'. simpl. rewrite Ht, Hl. split; [|done].
    apply bool_decide_eq_false_2, not_elem_of_nil.
Qed.

(** X9: the animation never pauses: every tick of a mounted component
    advances the grid by one generation and draws the new grid, and
    mounting draws the grid it has seeded; a resize rebuilds the grid and
    draws nothing. *)
Theorem tick_draws_next_generation (c : component) (id w h : Z) :
  active c → id ∈ timers c → window_ok w h →
  (∃ c', LifeComponent.step Math_random has_context (TimerFires id) c
         = Some c'
         ∧ computeNextGeneration (vars c) = Some (vars c')
         ∧ drawGrid has_context (vars c') = Some (drawn c'))
  ∧ (∃ c', LifeComponent.step Math_random has_context (WindowResized w h) c
           = Some c'
           ∧ drawn c' = drawn c).
Proof.
  intros Hc Hin Hwin. split.
  - destruct (timer_fires_active id c Hc Hin) as (c' & Hstep & _ & Hgen & Hdr).
    exists c'. unfold LifeComponent.step. simpl enabled.
    rewrite bool_decide_eq_true_2 by done. done.
  - destruct (window_resized_active w h c Hwin Hc) as (c' & Hstep & _ & Hdr).
    exists c'. unfold LifeComponent.step. simpl enabled.
    destruct Hc as (_ & _ & -> & _). by split.
Qed.

End LifeCycle.

Lemma tick_draws_next_generation_witness :
  ∃ c0 id c',
    mount (λ _, 0.9%float) true (unmounted (Some (mkCanvas 300 150)) 100 50)
    = Some c0
    ∧ LifeComponent.step (λ _, 0.9%float) true (TimerFires id) c0 = Some c'
    ∧ drawGrid true (vars c') = Some (drawn c').
Proof.
  destruct (mount_active (λ _, 0.9%float) true (mkCanvas 300 150) 100 50)
    as (c0 & Hm & Hc0 & _); [unfold window_ok; lia|].
  pose proof Hc0 as (_ & _ & _ & id & Ht & _).
  assert (id ∈ timers c0) as Hin by (rewrite Ht; left).
  assert (window_ok 100 50) as Hwin by (unfold window_ok; lia).
  destruct (tick_draws_next_generation (λ _, 0.9%float) true c0 id 100 50
              Hc0 Hin Hwin) as ((c' & Hstep & _ & Hdr) & _).
  exists c0, id, c'. split; [exact Hm|]. split; [exact Hstep|exact Hdr].
Defined.

Lemma teardown_releases_timer_and_listener_witness :
  ∃ c0, mount (λ _, 0.9%float) true
              (unmounted (Some (mkCanvas 300 150)) 100 50)
        = Some c0
        ∧ active c0.
Proof.
  destruct (teardown_releases_timer_and_listener (λ _, 0.9%float) true
              (mkCanvas 300 150) 100 50) as (c0 & Hm & Hc0 & _).
  - unfold window_ok. lia.
  - exists c0. split; [exact Hm|exact Hc0].
Defined.

End LifeComponentFacts.

(** ** The article viewer, continued *)

Module MainSectionMore.
Import JS Regex MainSection RegexFacts MainSectionFacts.

Lemma trimStart_suffix (s : jstring) :
  ∃ ws, s = ws ++ trimStart s ∧ Forall (λ c, is_space c = true) ws.
Proof.
  induction s as [|c s (ws & IH & Hws)]; [by exists []|]. simpl.
  destruct (is_space c) eqn:Hc.
  - exists (c :: ws). split; [by rewrite IH at 1|]. by constructor.
  - by exists [].
Qed.

(** X10: [parseFrontMatter] neither invents nor reorders text: the content
    it returns is the input or a suffix of it that starts with no white
    space; the data it returns is an object (or an array), never a
    scalar; it writes at most one line to the console, and when it does
    the content is the whole input, without data. *)
Theorem parseFrontMatter_content_is_suffix
    (parseYaml : option jstring → outcome value) (md : jstring) :
  let '(p, log) := parseFrontMatter parseYaml md in
  (∃ cut, md = cut ++ content p
          ∧ (cut = [] ∨ trimStart (content p) = content p))
  ∧ (∀ v, data p = Some v → is_object v = true)
  ∧ (log = [] ∨ log = [lit "Could not parse front matter"]
               ∧ content p = md ∧ data p = None).
Proof.
  unfold parseFrontMatter.
  destruct (negb _).
  { split; [exists []; split; [done|by left]|]. split; [done|by left]. }
  destruct (exec _ _) as [m|].
  2:{ split; [exists []; split; [done|by left]|]. split; [done|by left]. }
  cbv zeta. destruct (parseYaml _) as [v|e].
  2:{ split; [exists []; split; [done|by left]|]. split; [done|by right]. }
  simpl. split; [|split; [|by left]].
  - unfold slice.
    destruct (trimStart_suffix (drop (length (matched md m)) md))
      as (ws & Hws & _).
    exists (take (length (matched md m)) md ++ ws). split.
    + rewrite <- app_assoc, <- Hws. by rewrite take_drop.
    + right. clear. induction (drop _ md) as [|c s IH]; [done|]. simpl.
      destruct (is_space c) eqn:Hc; [done|]. simpl. by rewrite Hc.
  - intros w. destruct (is_object v) eqn:Hv; [|done]. by intros [= <-].
Qed.

(** X19: metadata comes only from a mapping and is never empty: when
    [toMeta] returns an object, the data was a mapping (not a sequence,
    which also passes [typeof data === "object"]), at least one of the
    five properties is set, each string property is the mapping's own,
    and no tag is the empty string. *)
Theorem toMeta_from_mapping
    (ToString : value → jstring) (data : option value) (m : ArticleMeta) :
  toMeta ToString data = Some m →
  has_keys m = true
  ∧ (∃ fields, data = Some (VObject fields)
               ∧ (∀ t, meta_title m = Some t →
                       get_field fields (lit "title") = VString t))
  ∧ (∀ tags, meta_tags m = Some tags → Forall (λ t, t ≠ []) tags).
Proof.
  unfold toMeta. destruct data as [d|]; [|done]. cbv zeta.
  destruct (has_keys _) eqn:Hkeys; [|done]. intros [= <-].
  split; [done|]. split.
  - destruct d as [| | | | |xs|fields]; try done.
    exists fields. split; [done|]. simpl. unfold string_prop. simpl.
    intros t. destruct (get_field fields (lit "title")); try done.
    by intros [= ->].
  - simpl. intros tags. destruct (get_prop d (lit "tags")); try done.
    intros [= <-]. apply Forall_forall. intros t Ht.
    apply list_elem_of_filter in Ht as [Ht _]. by destruct t.
Qed.

Lemma toMeta_from_mapping_witness :
  has_keys (mkMeta (Some (lit "x")) None None None (Some [lit "a"])) = true.
Proof.
  apply (toMeta_from_mapping (λ v, match v with VString s => s | _ => [] end)
           (Some (VObject [(lit "title", VString (lit "x"));
                           (lit "tags",
                            VArray [VString (lit "a"); VString []])]))).
  vm_compute. reflexivity.
Defined.

Section Viewer.
Variable browser : bool.
Variable parseYaml : option jstring → outcome value.
Variable marked_parse : jstring → outcome jstring.
Variable ToString : value → jstring.
Variable articles : list Article.

#[local] Abbreviation settle :=
  (selectArticle_settle parseYaml marked_parse ToString).
#[local] Abbreviation Step :=
  (step browser parseYaml marked_parse ToString articles).
#[local] Abbreviation Run :=
  (run browser parseYaml marked_parse ToString articles).

(** X11: a note that is front matter and nothing else is rendered with
    its front matter as the body: the content after the block is empty,
    so [parsed.content || markdown] hands the whole file to the renderer,
    while the metadata of the block is still extracted. *)
Theorem empty_body_renders_front_matter
    (md html : jstring) (m : match_result) (v : value) :
  exec FRONT_MATTER_PATTERN md = Some m →
  parseYaml (groups m !! 1%nat) = Returned v →
  trimStart (slice md (length (matched md m))) = [] →
  marked_parse md = Returned html →
  render parseYaml marked_parse ToString (Answered true (Returned md))
  = (Returned (html, toMeta ToString (if is_object v then Some v else None)),
     []).
Proof.
  intros Hm Hv Hrest Hhtml.
  destruct (exec_front_matter md m Hm)
    as (opener & raw & rest & _ & _ & Hop & Hfm & _).
  assert (startsWith (trimStart md) (lit "---") = true) as Hstart.
  { apply (front_matter_startsWith md (matched md m) raw rest).
    by exists opener. }
  unfold render. simpl negb. cbv iota.
  unfold parseFrontMatter. rewrite Hstart, Hm. simpl negb. cbv iota zeta.
  rewrite Hv, Hrest. simpl. by rewrite Hhtml.
Qed.

(** *** Responses and the loading flag *)

Lemma settle_loading id r s :
  isLoading (settle id r s).1
  = if id =? currentRequest s then false else isLoading s.
Proof.
  unfold selectArticle_settle.
  destruct (render _ _ _ r) as [[[html meta]|e] out];
    destruct (id =? currentRequest s) eqn:Hid; simpl; by rewrite ?Hid.
Qed.

(** X12: a response that is no longer the latest can change nothing but
    [errorMessage]: when it succeeded the state is left exactly as it
    was, and when it failed only the message is replaced. *)
Theorem stale_response_frame (id : Z) (r : response) (s : state) :
  id ≠ currentRequest s →
  (settle id r s).1
  = match (render parseYaml marked_parse ToString r).1 with
    | Returned _ => s
    | Threw e =>
        mkState (activeSlug s) (renderedHtml s) (isLoading s) (error_text e)
                (currentRequest s) (activeMeta s)
    end.
Proof.
  intros Hid. apply Z.eqb_neq in Hid. unfold selectArticle_settle.
  destruct (render _ _ _ r) as [[[html meta]|e] out]; cbv zeta;
    rewrite ?Hid; simpl; by rewrite ?Hid.
Qed.

(** The loading flag is set exactly while the latest request is in
    flight. *)
Definition loading_tracks_latest (sys : system) : Prop :=
  isLoading (comp sys) = true ↔
  ∃ q, q ∈ inflight sys ∧ requestId q = currentRequest (comp sys).

(** The ids given out are [1, 2, ..., currentRequest]. *)
Definition ids_consecutive (sys : system) : Prop :=
  0 ≤ currentRequest (comp sys)
  ∧ issued sys = reverse (seqZ 1 (currentRequest (comp sys))).

Lemma call_loading article sys :
  loading_tracks_latest sys →
  loading_tracks_latest (call_selectArticle browser article sys).
Proof.
  intros H. unfold call_selectArticle.
  pose proof (begin_spec browser article (comp sys)) as Hb.
  destruct (selectArticle_begin browser article (comp sys)) as [s' [q|]].
  - destruct Hb as (_ & Hq & Hl & _). unfold loading_tracks_latest. simpl.
    split; [|done]. intros _. exists q. split; [|done].
    apply elem_of_app. right. by left.
  - by subst s'.
Qed.

Lemma call_consecutive article sys :
  ids_consecutive sys →
  ids_consecutive (call_selectArticle browser article sys).
Proof.
  intros [H0 H]. unfold call_selectArticle.
  pose proof (begin_spec browser article (comp sys)) as Hb.
  destruct (selectArticle_begin browser article (comp sys)) as [s' [q|]].
  - destruct Hb as (Hc & Hq & _). unfold ids_consecutive. simpl.
    rewrite Hq, Hc, H. split; [lia|].
    rewrite seqZ_app by lia. rewrite reverse_app.
    change (seqZ (1 + currentRequest (comp sys)) 1)
      with [1 + currentRequest (comp sys)].
    simpl. f_equal. lia.
  - by subst s'.
Qed.

Lemma step_invariants e sys sys' :
  loading_tracks_latest sys ∧ ids_consecutive sys →
  Step e sys = Some sys' →
  loading_tracks_latest sys' ∧ ids_consecutive sys'.
Proof.
  intros [Hl Hc] Hstep. destruct e as [|article|id r| |]; simpl in Hstep.
  - destruct articles as [|first rest]; injection Hstep as <-; [done|].
    split; [by apply call_loading | by apply call_consecutive].
  - injection Hstep as <-.
    split; [by apply call_loading | by apply call_consecutive].
  - destruct (bool_decide _); [|done].
    pose proof (settle_loading id r (comp sys)) as Hld.
    pose proof (settle_counter parseYaml marked_parse ToString id r (comp sys))
      as Hcn.
    destruct (selectArticle_settle _ _ _ id r (comp sys)) as [s' out].
    simpl in Hld, Hcn. injection Hstep as <-. split.
    + unfold loading_tracks_latest, remove_request. simpl.
      rewrite Hld, Hcn. destruct (Z.eqb_spec id (currentRequest (comp sys)))
        as [Heq|Hne].
      * split; [done|]. intros (q & Hq & Hid).
        apply list_elem_of_filter in Hq as [Hq _]. congruence.
      * unfold loading_tracks_latest in Hl. rewrite Hl. split.
        -- intros (q & Hq & Hid). exists q. split; [|done].
           apply list_elem_of_filter. split; [congruence|done].
        -- intros (q & Hq & Hid). exists q. split; [|done].
           by apply list_elem_of_filter in Hq as [_ Hq].
    + unfold ids_consecutive. simpl. by rewrite Hcn.
  - destruct articles as [|first rest]; [by injection Hstep as <-|].
    destruct (_ && _); injection Hstep as <-; [|done].
    split; [by apply call_loading | by apply call_consecutive].
  - destruct (_ && _); injection Hstep as <-; done.
Qed.

Lemma run_invariants es sys sys' :
  loading_tracks_latest sys ∧ ids_consecutive sys →
  Run es sys = Some sys' →
  loading_tracks_latest sys' ∧ ids_consecutive sys'.
Proof.
  revert sys. induction es as [|e es IH]; intros sys H Hrun; simpl in Hrun.
  - by injection Hrun as <-.
  - destruct (Step e sys) as [sys1|] eqn:Hstep; [|done].
    apply (IH sys1); [|done]. by apply (step_invariants e sys).
Qed.

Lemma start_invariants : loading_tracks_latest start ∧ ids_consecutive start.
Proof.
  split.
  - split; [done|]. intros (q & Hq & _). by apply elem_of_nil in Hq.
  - done.
Qed.

(** X13: along every run of the component the loading flag is set exactly
    while the latest request is in flight; in particular the note
    "Loading article..." is gone once no fetch is pending, and it is shown
    (articles being listed) as long as the latest one is. *)
Theorem loading_while_latest_in_flight (es : list event) (sys : system) :
  Run es start = Some sys →
  (isLoading (comp sys) = true ↔
   ∃ q, q ∈ inflight sys ∧ requestId q = currentRequest (comp sys))
  ∧ (inflight sys = [] → isLoading (comp sys) = false)
  ∧ (∀ q, q ∈ inflight sys → requestId q = currentRequest (comp sys) →
          articles ≠ [] → main_panel articles (comp sys) = LoadingNote).
Proof.
  intros Hrun.
  destruct (run_invariants es start sys start_invariants Hrun) as [Hl _].
  split; [exact Hl|]. split.
  - intros Hnil. destruct (isLoading (comp sys)) eqn:Hld; [|done].
    destruct Hl as [Hl _]. destruct (Hl Hld) as (q & Hq & _).
    rewrite Hnil in Hq. by apply elem_of_nil in Hq.
  - intros q Hq Hid Hart. unfold main_panel.
    destruct articles; [done|].
    destruct Hl as [_ Hl]. rewrite Hl; [done|]. by exists q.
Qed.

(** X14: the counter counts the fetches: along every run the ids given
    out are exactly [1, 2, ..., currentRequest], newest first, without
    gaps. *)
Theorem request_ids_consecutive (es : list event) (sys : system) :
  Run es start = Some sys →
  issued sys = reverse (seqZ 1 (currentRequest (comp sys)))
  ∧ currentRequest (comp sys) = Z.of_nat (length (issued sys)).
Proof.
  intros Hrun.
  destruct (run_invariants es start sys start_invariants Hrun)
    as [_ [H0 Hc]].
  split; [done|]. rewrite Hc, length_reverse, length_seqZ. lia.
Qed.

(** *** The two effects *)

(** A call of [selectArticle] either sets [isLoading] or changes
    nothing. *)
Lemma call_cases article sys :
  isLoading (comp (call_selectArticle browser article sys)) = true
  ∨ call_selectArticle browser article sys = sys.
Proof.
  unfold call_selectArticle.
  pose proof (begin_spec browser article (comp sys)) as Hb.
  destruct (selectArticle_begin browser article (comp sys)) as [s' [q|]].
  - left. by destruct Hb as (_ & _ & Hl & _).
  - right. subst s'. by destruct sys.
Qed.

Lemma first_article_effect_after_call first rest sys :
  articles = first :: rest →
  Step FirstArticleEffect (call_selectArticle browser (Some first) sys)
  = Some (call_selectArticle browser (Some first) sys)
  ∨ call_selectArticle browser (Some first) sys = sys.
Proof.
  intros Hart. destruct (call_cases (Some first) sys) as [Hl|Heq];
    [left | by right].
  simpl. rewrite Hart, Hl. by rewrite andb_false_r.
Qed.

Lemma effects_settle_aux (sys : system) :
  (∀ sys1 sys2, Step FirstArticleEffect sys = Some sys1 →
                Step FirstArticleEffect sys1 = Some sys2 → sys2 = sys1)
  ∧ (∀ sys1 sys2, Step Mounted sys = Some sys1 →
                  Step FirstArticleEffect sys1 = Some sys2 → sys2 = sys1).
Proof.
  split.
  - intros sys1 sys2 H1 H2. simpl in H1.
    destruct articles as [|first rest] eqn:Hart.
    { injection H1 as <-. simpl in H2. congruence. }
    destruct (_ && _) eqn:Hcond; injection H1 as <-.
    + destruct (first_article_effect_after_call first rest sys Hart)
        as [Hno|Heq]; [rewrite Hart in Hno; congruence|].
      rewrite Heq in H2 |- *. simpl in H2. rewrite Hcond in H2.
      congruence.
    + simpl in H2. rewrite Hcond in H2. congruence.
  - intros sys1 sys2 H1 H2. simpl in H1.
    destruct articles as [|first rest] eqn:Hart.
    { injection H1 as <-. simpl in H2. congruence. }
    injection H1 as <-.
    destruct (first_article_effect_after_call first rest sys Hart)
      as [Hno|Heq]; [rewrite Hart in Hno; congruence|].
    rewrite Heq in H2 |- *. simpl in H2.
    destruct (_ && _); [|congruence].
    rewrite Heq in H2. congruence.
Qed.

Lemma first_article_effect_runs sys :
  ∃ sys', Step FirstArticleEffect sys = Some sys'.
Proof.
  simpl. destruct articles; [by eexists|]. destruct (_ && _); by eexists.
Qed.

(** Running an effect twice in a row, or the first-article effect right
    after [onMount], changes nothing the second time. *)
Lemma effects_rerun (sys : system) :
  (∀ sys1, Step FirstArticleEffect sys = Some sys1 →
           Step FirstArticleEffect sys1 = Some sys1)
  ∧ (∀ sys1, Step Mounted sys = Some sys1 →
             Step FirstArticleEffect sys1 = Some sys1)
  ∧ (∀ sys1, Step StaleSlugEffect sys = Some sys1 →
             (slug_set (comp sys1) = true →
              slug_listed articles (comp sys1) = true)
             ∧ Step StaleSlugEffect sys1 = Some sys1).
Proof.
  destruct (effects_settle_aux sys) as [Hfirst Hmount].
  split; [|split].
  - intros sys1 H1.
    destruct (first_article_effect_runs sys1) as (sys2 & H2).
    by rewrite H2, (Hfirst sys1 sys2 H1 H2).
  - intros sys1 H1.
    destruct (first_article_effect_runs sys1) as (sys2 & H2).
    by rewrite H2, (Hmount sys1 sys2 H1 H2).
  - intros sys1 H1. simpl in H1.
    destruct (slug_set (comp sys)) eqn:Hset;
      [destruct (slug_listed articles (comp sys)) eqn:Hlisted|];
      simpl in H1; injection H1 as <-; simpl.
    + split; [done|]. by rewrite Hset, Hlisted.
    + done.
    + split; [congruence|]. by rewrite Hset.
Qed.

Lemma settle_activeSlug id r s : activeSlug (settle id r s).1 = activeSlug s.
Proof.
  unfold selectArticle_settle.
  destruct (render _ _ _ r) as [[[html meta]|e] out];
    destruct (id =? currentRequest s) eqn:Hid; simpl; by rewrite ?Hid.
Qed.

Lemma settle_stale_success id r s res :
  id ≠ currentRequest s →
  (render parseYaml marked_parse ToString r).1 = Returned res →
  (settle id r s).1 = s.
Proof.
  intros Hid Hres. apply Z.eqb_neq in Hid. unfold selectArticle_settle.
  destruct (render _ _ _ r) as [[[html meta]|e] out]; [|done].
  cbv zeta. rewrite ?Hid. simpl. by rewrite ?Hid.
Qed.

Lemma run_app es1 es2 sys sys' :
  Run (es1 ++ es2) sys = Some sys' →
  ∃ sys1, Run es1 sys = Some sys1 ∧ Run es2 sys1 = Some sys'.
Proof.
  revert sys. induction es1 as [|e es1 IH]; intros sys H; simpl in H.
  - by exists sys.
  - destruct (Step e sys) as [sys0|] eqn:Hstep; [|done].
    destruct (IH sys0 H) as (sys1 & H1 & H2).
    exists sys1. simpl. by rewrite Hstep.
Qed.

Lemma run_app_2 es1 es2 sys sys1 sys' :
  Run es1 sys = Some sys1 → Run es2 sys1 = Some sys' →
  Run (es1 ++ es2) sys = Some sys'.
Proof.
  revert sys. induction es1 as [|e es1 IH]; intros sys H1 H2; simpl in H1.
  - by injection H1 as ->.
  - simpl. destruct (Step e sys) as [sys0|]; [|done]. by apply IH.
Qed.

(** What the two callbacks that select the first article can do. *)
Lemma first_article_effect_cases sys sys' :
  Step FirstArticleEffect sys = Some sys' →
  sys' = sys
  ∨ ∃ first, first ∈ articles ∧ isLoading (comp sys) = false
             ∧ slug_set (comp sys) = false
             ∧ sys' = call_selectArticle browser (Some first) sys.
Proof.
  intros H. simpl in H. destruct articles as [|first rest] eqn:Hart.
  { left. congruence. }
  destruct (browser && negb (slug_set (comp sys))
            && negb (isLoading (comp sys))) eqn:Hcond;
    [|left; congruence].
  apply andb_true_iff in Hcond as [Hcond Hl].
  apply andb_true_iff in Hcond as [_ Hs].
  right. exists first. split; [left|].
  split; [by destruct (isLoading (comp sys))|].
  split; [by destruct (slug_set (comp sys))|]. congruence.
Qed.

Lemma mounted_cases sys sys' :
  Step Mounted sys = Some sys' →
  sys' = sys
  ∨ ∃ first, first ∈ articles
             ∧ sys' = call_selectArticle browser (Some first) sys.
Proof.
  intros H. simpl in H. destruct articles as [|first rest] eqn:Hart.
  { left. congruence. }
  right. exists first. split; [left|congruence].
Qed.

Lemma stale_slug_effect_cases sys sys' :
  Step StaleSlugEffect sys = Some sys' →
  sys' = sys
  ∨ slug_listed articles (comp sys) = false
    ∧ inflight sys' = inflight sys ∧ issued sys' = issued sys
    ∧ currentRequest (comp sys') = currentRequest (comp sys).
Proof.
  intros H. simpl in H.
  destruct (slug_set (comp sys)); simpl in H; [|left; congruence].
  destruct (slug_listed articles (comp sys)); simpl in H;
    [left; congruence|].
  right. injection H as <-. done.
Qed.

(** *** When the effects are idle *)

(** Clicks come from the list. *)
Definition selects_listed (e : event) : Prop :=
  match e with
  | Select (Some a) => a ∈ articles
  | _ => True
  end.

(** No fetch has been issued yet, or [activeSlug] is the non-empty slug
    of a listed article. *)
Definition slug_settled (sys : system) : Prop :=
  issued sys = []
  ∨ slug_set (comp sys) = true ∧ slug_listed articles (comp sys) = true.

Lemma call_slug_settled a sys :
  a ∈ articles → slug a ≠ [] → slug_settled sys →
  slug_settled (call_selectArticle browser (Some a) sys).
Proof.
  intros Ha Hslug H. unfold call_selectArticle.
  pose proof (begin_spec browser (Some a) (comp sys)) as Hb.
  destruct (selectArticle_begin browser (Some a) (comp sys)) as [s' [q|]].
  - right. destruct Hb as (_ & _ & _ & _ & _ & _ & _ & a' & [= <-] & _ & _ & Hs).
    unfold slug_set, slug_listed. simpl. rewrite Hs. split.
    + by destruct (slug a).
    + apply bool_decide_eq_true_2. by apply (list_elem_of_fmap_2 slug).
  - by subst s'.
Qed.

Lemma step_slug_settled e sys sys' :
  Forall (λ a, slug a ≠ []) articles → selects_listed e →
  slug_settled sys → Step e sys = Some sys' → slug_settled sys'.
Proof.
  intros Hslugs He H Hstep. rewrite Forall_forall in Hslugs.
  destruct e as [|[a|]|id r| |].
  - apply mounted_cases in Hstep as [->|(first & Hf & ->)]; [done|].
    apply call_slug_settled; [done | by apply Hslugs | done].
  - simpl in Hstep. injection Hstep as <-.
    apply call_slug_settled; [done | by apply Hslugs | done].
  - simpl in Hstep. injection Hstep as <-. by destruct sys.
  - simpl in Hstep. destruct (bool_decide _); [|done].
    pose proof (settle_activeSlug id r (comp sys)) as Hs.
    destruct (selectArticle_settle _ _ _ id r (comp sys)) as [s' out].
    simpl in Hs. injection Hstep as <-.
    unfold slug_settled, slug_set, slug_listed in *. simpl. by rewrite Hs.
  - apply first_article_effect_cases in Hstep
      as [->|(first & Hf & _ & _ & ->)]; [done|].
    apply call_slug_settled; [done | by apply Hslugs | done].
  - apply stale_slug_effect_cases in Hstep as [->|(Hl & _ & Hi & _)]; [done|].
    destruct H as [H|[_ H]]; [|congruence]. left. congruence.
Qed.

Lemma run_slug_settled es sys sys' :
  Forall (λ a, slug a ≠ []) articles → Forall selects_listed es →
  slug_settled sys → Run es sys = Some sys' → slug_settled sys'.
Proof.
  intros Hslugs Hes. revert sys.
  induction Hes as [|e es He Hes IH]; intros sys H Hrun; simpl in Hrun.
  - by injection Hrun as <-.
  - destruct (Step e sys) as [sys1|] eqn:Hstep; [|done].
    apply (IH sys1); [|done]. by apply (step_slug_settled e sys).
Qed.

(** X15: when every listed article has a non-empty slug and the articles
    selected are listed ones, the two effects act only before the first
    fetch: once a fetch has been issued, [activeSlug] is the slug of a
    listed article and running either effect changes nothing, so the
    first-article effect issues at most the first fetch of a run. *)
Theorem effects_idle_after_first_fetch (es : list event) (sys : system) :
  Forall (λ a, slug a ≠ []) articles → Forall selects_listed es →
  Run es start = Some sys → issued sys ≠ [] →
  slug_set (comp sys) = true ∧ slug_listed articles (comp sys) = true
  ∧ Step FirstArticleEffect sys = Some sys
  ∧ Step StaleSlugEffect sys = Some sys.
Proof.
  intros Hslugs Hes Hrun Hissued.
  destruct (run_slug_settled es start sys Hslugs Hes) as [H|[Hset Hlisted]];
    [by left | done | done |].
  split; [done|]. split; [done|]. split.
  - destruct (first_article_effect_runs sys) as (sys' & Hstep).
    rewrite Hstep.
    apply first_article_effect_cases in Hstep
      as [->|(first & _ & _ & Hs & _)]; [done|congruence].
  - simpl. by rewrite Hset, Hlisted.
Qed.

(** *** An article without a slug *)

(** [n] rounds of: the pending fetch completes with [r], the
    first-article effect runs. *)
Fixpoint rounds (r : response) (k : Z) (n : nat) : list event :=
  match n with
  | O => []
  | S n' => Settle k r :: FirstArticleEffect :: rounds r (k + 1) n'
  end.

(** The first article, of empty slug, is selected and its fetch, the
    [k]-th, is the only one pending. *)
Definition refetching (k : Z) (sys : system) : Prop :=
  activeSlug (comp sys) = Some [] ∧ isLoading (comp sys) = true
  ∧ currentRequest (comp sys) = k
  ∧ ∃ q, inflight sys = [q] ∧ requestId q = k.

Lemma call_refetching first sys :
  passes_guard browser (Some first) = true → slug first = [] →
  inflight sys = [] →
  refetching (currentRequest (comp sys) + 1)
             (call_selectArticle browser (Some first) sys).
Proof.
  intros Hguard Hslug Hin. unfold call_selectArticle.
  destruct (begin_guard browser (Some first) (comp sys)) as [Hpass _].
  destruct (Hpass Hguard) as (s' & q & Hbegin & _).
  pose proof (begin_spec browser (Some first) (comp sys)) as Hb.
  rewrite Hbegin in Hb |- *.
  destruct Hb as (Hc & Hq & Hl & _ & _ & _ & _ & a' & [= <-] & _ & _ & Hs).
  unfold refetching. simpl. rewrite Hs, Hslug, Hin.
  split; [done|]. split; [done|]. split; [done|].
  exists q. split; [done|]. congruence.
Qed.

Lemma round_refetching first rest r k sys :
  articles = first :: rest →
  passes_guard browser (Some first) = true → slug first = [] →
  refetching k sys →
  ∃ sys', Run [Settle k r; FirstArticleEffect] sys = Some sys'
          ∧ refetching (k + 1) sys'.
Proof.
  intros Hart Hguard Hslug (Hs & Hl & Hc & q & Hin & Hq).
  assert (browser = true) as Hbr.
  { simpl in Hguard. by destruct browser. }
  pose proof (settle_activeSlug k r (comp sys)) as Hs1.
  pose proof (settle_loading k r (comp sys)) as Hl1.
  pose proof (settle_counter parseYaml marked_parse ToString k r (comp sys))
    as Hc1.
  rewrite Hc, Z.eqb_refl in Hl1.
  simpl. rewrite Hin. simpl. rewrite Hq.
  rewrite bool_decide_eq_true_2 by left.
  destruct (selectArticle_settle _ _ _ k r (comp sys)) as [s1 out].
  simpl in Hs1, Hl1, Hc1. rewrite Hart.
  unfold slug_set. simpl. rewrite Hs1, Hs, Hl1, Hbr. simpl.
  eexists. split; [reflexivity|].
  unfold remove_request. rewrite filter_cons, filter_nil.
  rewrite decide_False by (intros H; by apply H).
  rewrite <- Hc, <- Hc1, <- Hbr.
  apply (call_refetching first
           (mkSystem s1 [] (issued sys) (logged sys ++ out))); done.
Qed.

Lemma rounds_refetching first rest r n k sys :
  articles = first :: rest →
  passes_guard browser (Some first) = true → slug first = [] →
  refetching k sys →
  ∃ sys', Run (rounds r k n) sys = Some sys'
          ∧ refetching (k + Z.of_nat n) sys'.
Proof.
  intros Hart Hguard Hslug. revert k sys.
  induction n as [|n IH]; intros k sys H.
  - exists sys. split; [done|]. by rewrite Z.add_0_r.
  - destruct (round_refetching first rest r k sys Hart Hguard Hslug H)
      as (sys1 & Hrun1 & H1).
    destruct (IH (k + 1) sys1 H1) as (sys2 & Hrun2 & H2).
    exists sys2. split.
    + change (rounds r k (S n))
        with ([Settle k r; FirstArticleEffect] ++ rounds r (k + 1) n).
      by apply (run_app_2 _ _ sys sys1).
    + replace (k + Z.of_nat (S n)) with (k + 1 + Z.of_nat n) by lia. done.
Qed.

(** X21: when the first listed article has the empty slug (a file named
    [.md] or [.mdx]) and a [download_url], the component refetches it
    without end: [activeSlug] is then the empty string, which the
    first-article effect takes for no selection, so each time the pending
    fetch completes, whatever its response, the effect selects the
    article again.  After [n] completions the [n + 1]-th fetch is
    pending. *)
Theorem empty_slug_refetches_forever
    (first : Article) (rest : list Article) (r : response) (n : nat) :
  articles = first :: rest →
  passes_guard browser (Some first) = true → slug first = [] →
  ∃ sys, Run (Mounted :: rounds r 1 n) start = Some sys
         ∧ currentRequest (comp sys) = Z.of_nat n + 1
         ∧ isLoading (comp sys) = true
         ∧ ∃ q, inflight sys = [q] ∧ requestId q = Z.of_nat n + 1.
Proof.
  intros Hart Hguard Hslug.
  assert (refetching 1 (call_selectArticle browser (Some first) start)) as H1.
  { by apply (call_refetching first start). }
  destruct (rounds_refetching first rest r n 1 _ Hart Hguard Hslug H1)
    as (sys & Hrun & _ & Hl & Hc & Hq).
  exists sys. split.
  - assert (Step Mounted start
            = Some (call_selectArticle browser (Some first) start)) as Hstep.
    { unfold step. by rewrite Hart. }
    change (Mounted :: rounds r 1 n) with ([Mounted] ++ rounds r 1 n).
    apply (run_app_2 _ _ start
             (call_selectArticle browser (Some first) start)); [|exact Hrun].
    change (Run [Mounted] start)
      with (match Step Mounted start with
            | Some sys' => Some sys'
            | None => None
            end).
    by rewrite Hstep.
  - split; [lia|]. split; [done|].
    destruct Hq as (q & Hin & Hq). exists q. split; [done|lia].
Qed.

(** *** From the click to the panel *)

(** Between a selection and its response: responses of other requests
    that succeeded, and the effects. *)
Definition quiet (e : event) : Prop :=
  match e with
  | Settle _ r =>
      ∃ res, (render parseYaml marked_parse ToString r).1 = Returned res
  | FirstArticleEffect | StaleSlugEffect => True
  | Mounted | Select _ => False
  end.

(** The state a selection of [a] with request [id] leaves, or the request
    [id] has completed. *)
Definition awaiting (a : Article) (html0 : jstring) (id : Z) (sys : system)
  : Prop :=
  ordered sys
  ∧ (comp sys = mkState (Some (slug a)) html0 true [] id None
     ∨ (id ∉ map requestId (inflight sys)
        ∧ id ≤ currentRequest (comp sys))).

Lemma quiet_step a html0 id e sys sys' :
  a ∈ articles → quiet e → awaiting a html0 id sys →
  Step e sys = Some sys' → awaiting a html0 id sys'.
Proof.
  intros Ha He [Hord H] Hstep.
  split; [by destruct (step_ordered browser parseYaml marked_parse ToString
                         articles e sys sys' Hord Hstep)|].
  destruct e as [|article|id' r| |]; try done.
  - simpl in Hstep.
    destruct (bool_decide _); [|done].
    pose proof (settle_counter parseYaml marked_parse ToString id' r
                  (comp sys)) as Hc.
    pose proof (settle_stale_success id' r (comp sys)) as Hsame.
    destruct (selectArticle_settle _ _ _ id' r (comp sys)) as [s' out].
    simpl in Hc, Hsame. injection Hstep as <-. simpl.
    assert (∀ l, id ∉ map requestId l →
                 id ∉ map requestId (remove_request id' l)) as Hsub.
    { intros l Hl Hin. apply Hl.
      apply list_elem_of_fmap in Hin as (q & -> & Hq).
      apply list_elem_of_filter in Hq as [_ Hq].
      by apply (list_elem_of_fmap_2 requestId). }
    destruct H as [Hcomp|[Hnot Hle]].
    + destruct (decide (id' = id)) as [->|Hne].
      * right. split.
        -- intros Hin. apply list_elem_of_fmap in Hin as (q & Hq & Hin).
           apply list_elem_of_filter in Hin as [Hin _]. congruence.
        -- rewrite Hc, Hcomp. simpl. lia.
      * left. destruct He as [res Hres].
        rewrite (Hsame res); [done| |done]. rewrite Hcomp. done.
    + right. split; [by apply Hsub|]. by rewrite Hc.
  - apply first_article_effect_cases in Hstep
      as [->|(first & _ & Hl & _ & ->)]; [done|].
    destruct H as [Hcomp|[Hnot Hle]]; [by rewrite Hcomp in Hl|].
    right. unfold call_selectArticle.
    pose proof (begin_spec browser (Some first) (comp sys)) as Hb.
    destruct (selectArticle_begin browser (Some first) (comp sys))
      as [s' [q|]]; simpl.
    + destruct Hb as (Hc & Hq & _). split; [|lia].
      rewrite map_app, elem_of_app. intros [Hin|Hin]; [done|].
      apply list_elem_of_singleton in Hin. lia.
    + by subst s'.
  - apply stale_slug_effect_cases in Hstep as [->|(Hl & Hi & _ & Hc)]; [done|].
    destruct H as [Hcomp|[Hnot Hle]].
    + rewrite Hcomp in Hl. unfold slug_listed in Hl. simpl in Hl.
      rewrite bool_decide_eq_true_2 in Hl; [done|].
      by apply (list_elem_of_fmap_2 slug).
    + right. by rewrite Hi, Hc.
Qed.

Lemma quiet_run a html0 id es sys sys' :
  a ∈ articles → Forall quiet es → awaiting a html0 id sys →
  Run es sys = Some sys' → awaiting a html0 id sys'.
Proof.
  intros Ha Hes. revert sys.
  induction Hes as [|e es He Hes IH]; intros sys H Hrun; simpl in Hrun.
  - by injection Hrun as <-.
  - destruct (Step e sys) as [sys1|] eqn:Hstep; [|done].
    apply (IH sys1); [|done]. by apply (quiet_step a html0 id e sys).
Qed.

(** X20: an article of the list is selected in the browser and its
    response arrives and renders, and in between nothing happens but
    successful responses of earlier requests and runs of the effects (no
    other selection, no failed response).  Then the article is shown: the
    state holds its slug, the rendered HTML and the metadata, the loading
    flag and the error are cleared, and the panel shows the HTML, or the
    hint to select an article when the rendered HTML is the empty
    string. *)
Theorem selected_article_is_shown
    (es0 es : list event) (sys0 sys : system) (a : Article) (r : response)
    (html : jstring) (meta : option ArticleMeta) (out : console) :
  Run es0 start = Some sys0 →
  a ∈ articles → passes_guard browser (Some a) = true →
  Forall quiet es →
  render parseYaml marked_parse ToString r = (Returned (html, meta), out) →
  Run (Select (Some a) :: es ++ [Settle (currentRequest (comp sys0) + 1) r])
      sys0 = Some sys →
  comp sys = mkState (Some (slug a)) html false []
                     (currentRequest (comp sys0) + 1) meta
  ∧ main_panel articles (comp sys)
    = if nonempty html then ArticleBody html else SelectHint.
Proof.
  intros Hrun0 Ha Hguard Hes Hrender Hrun.
  set (id := currentRequest (comp sys0) + 1) in *.
  assert (ordered sys0) as Hord0.
  { by destruct (run_ordered browser parseYaml marked_parse ToString articles
                   es0 start sys0 start_ordered Hrun0). }
  simpl in Hrun.
  assert (awaiting a (renderedHtml (comp sys0)) id
                   (call_selectArticle browser (Some a) sys0)) as Haw.
  { split; [by destruct (call_ordered browser (Some a) sys0 Hord0)|].
    left. unfold call_selectArticle.
    destruct (begin_guard browser (Some a) (comp sys0)) as [Hpass _].
    destruct (Hpass Hguard) as (s' & q & Hbegin & _).
    pose proof (begin_spec browser (Some a) (comp sys0)) as Hb.
    rewrite Hbegin in Hb |- *. simpl.
    destruct Hb as (Hc & _ & Hl & He & Hm & Hh & _ & a' & [= <-] & _ & _ & Hs).
    destruct s'. simpl in *. subst. done. }
  apply run_app in Hrun as (sys2 & Hrun2 & Hlast).
  apply (quiet_run a _ id es _ sys2 Ha Hes) in Haw; [|done].
  destruct Haw as [_ Haw]. simpl in Hlast.
  destruct (bool_decide (id ∈ map requestId (inflight sys2))) eqn:Hin;
    [|done].
  apply bool_decide_eq_true in Hin.
  destruct Haw as [Hcomp|[Hnot _]]; [|done].
  assert ((settle id r (comp sys2)).1
          = mkState (Some (slug a)) html false [] id meta) as Hsettle.
  { rewrite Hcomp. unfold selectArticle_settle. rewrite Hrender. simpl.
    rewrite Z.eqb_refl. simpl. by rewrite Z.eqb_refl. }
  destruct (selectArticle_settle _ _ _ id r (comp sys2)) as [s' out'].
  simpl in Hsettle. injection Hlast as <-. simpl. rewrite Hsettle.
  split; [done|]. unfold main_panel. simpl.
  destruct articles; [by apply elem_of_nil in Ha|done].
Qed.

End Viewer.

(** A note that consists of its front matter. *)
Definition front_matter_only : jstring :=
  lit "---" ++ [LF] ++ lit "title: x" ++ [LF] ++ lit "---" ++ [LF].

Lemma empty_body_renders_front_matter_witness :
  render sample_yaml Returned no_tags (Answered true (Returned front_matter_only))
  = (Returned (front_matter_only,
               toMeta no_tags
                 (Some (VObject [(lit "title", VString (lit "x"))]))), []).
Proof.
  apply (empty_body_renders_front_matter sample_yaml Returned no_tags
           front_matter_only front_matter_only
           (mkMatch 0 17 (<[1%nat := lit "title: x"]> ∅))
           (VObject [(lit "title", VString (lit "x"))]));
    vm_compute; reflexivity.
Defined.

Lemma stale_response_frame_witness :
  (selectArticle_settle sample_yaml Returned no_tags 1
     (Answered true (Returned (lit "# A"))) (comp two_pending)).1
  = match (render sample_yaml Returned no_tags
             (Answered true (Returned (lit "# A")))).1 with
    | Returned _ => comp two_pending
    | Threw e =>
        mkState (activeSlug (comp two_pending))
                (renderedHtml (comp two_pending))
                (isLoading (comp two_pending)) (error_text e)
                (currentRequest (comp two_pending))
                (activeMeta (comp two_pending))
    end.
Proof.
  apply (stale_response_frame sample_yaml Returned no_tags 1
           (Answered true (Returned (lit "# A"))) (comp two_pending)).
  simpl. lia.
Defined.

Lemma loading_while_latest_in_flight_witness :
  run true sample_yaml Returned no_tags [article_a; article_b]
      [Mounted; Select (Some article_b)] start
  = Some two_pending
  ∧ (inflight two_pending = [] → isLoading (comp two_pending) = false).
Proof.
  assert (run true sample_yaml Returned no_tags [article_a; article_b]
              [Mounted; Select (Some article_b)] start
          = Some two_pending) as Hrun by (vm_compute; reflexivity).
  split; [exact Hrun|].
  exact (proj1 (proj2 (loading_while_latest_in_flight true sample_yaml
                         Returned no_tags [article_a; article_b]
                         [Mounted; Select (Some article_b)] two_pending
                         Hrun))).
Defined.

Lemma request_ids_consecutive_witness :
  run true sample_yaml Returned no_tags [article_a; article_b]
      [Mounted; Select (Some article_b)] start
  = Some two_pending
  ∧ issued two_pending = reverse (seqZ 1 (currentRequest (comp two_pending))).
Proof.
  assert (run true sample_yaml Returned no_tags [article_a; article_b]
              [Mounted; Select (Some article_b)] start
          = Some two_pending) as Hrun by (vm_compute; reflexivity).
  split; [exact Hrun|].
  exact (proj1 (request_ids_consecutive true sample_yaml Returned no_tags
                  [article_a; article_b] [Mounted; Select (Some article_b)]
                  two_pending Hrun)).
Defined.

Lemma effects_idle_after_first_fetch_witness :
  run true sample_yaml Returned no_tags [article_a; article_b]
      [Mounted; Select (Some article_b)] start
  = Some two_pending
  ∧ step true sample_yaml Returned no_tags [article_a; article_b]
         FirstArticleEffect two_pending = Some two_pending
  ∧ step true sample_yaml Returned no_tags [article_a; article_b]
         StaleSlugEffect two_pending = Some two_pending.
Proof.
  assert (run true sample_yaml Returned no_tags [article_a; article_b]
              [Mounted; Select (Some article_b)] start
          = Some two_pending) as Hrun by (vm_compute; reflexivity).
  split; [exact Hrun|].
  destruct (effects_idle_after_first_fetch true sample_yaml Returned no_tags
              [article_a; article_b] [Mounted; Select (Some article_b)]
              two_pending) as (_ & _ & Hfirst & Hstale).
  - repeat constructor; done.
  - repeat constructor.
  - exact Hrun.
  - done.
  - split; [exact Hfirst|exact Hstale].
Defined.

(** The article [load] makes of a file named [.md]. *)
Definition nameless_article : Article :=
  Notes.mkArticle [] [] (Some (lit "https://example.org/raw/.md"))
                  (lit ".md").

Lemma empty_slug_refetches_forever_witness :
  ∃ sys, run true sample_yaml Returned no_tags [nameless_article]
             [Mounted;
              Settle 1 (Answered true (Returned (lit "text")));
              FirstArticleEffect;
              Settle 2 (Answered true (Returned (lit "text")));
              FirstArticleEffect;
              Settle 3 (Answered true (Returned (lit "text")));
              FirstArticleEffect] start
         = Some sys
         ∧ currentRequest (comp sys) = 4
         ∧ isLoading (comp sys) = true.
Proof.
  destruct (empty_slug_refetches_forever true sample_yaml Returned no_tags
              [nameless_article] nameless_article []
              (Answered true (Returned (lit "text"))) 3
              eq_refl eq_refl eq_refl)
    as (sys & Hrun & Hc & Hl & _).
  exists sys. split; [exact Hrun|]. split; [exact Hc|exact Hl].
Defined.

(** The component after mounting: the first article is being fetched. *)
Definition first_pending : system :=
  mkSystem (mkState (Some (lit "a")) [] true [] 1 None)
           [mkRequest 1 (lit "https://example.org/a.md")] [1] [].

Lemma selected_article_is_shown_witness :
  run true sample_yaml Returned no_tags [article_a; article_b] [Mounted] start
  = Some first_pending
  ∧ ∃ sys,
      run true sample_yaml Returned no_tags [article_a; article_b]
          [Select (Some article_b);
           Settle 1 (Answered true (Returned (lit "# A")));
           FirstArticleEffect; StaleSlugEffect;
           Settle 2 (Answered true (Returned (lit "# B")))] first_pending
      = Some sys
      ∧ main_panel [article_a; article_b] (comp sys)
        = ArticleBody (lit "# B").
Proof.
  assert (run true sample_yaml Returned no_tags [article_a; article_b]
              [Mounted] start
          = Some first_pending) as Hrun0 by (vm_compute; reflexivity).
  split; [exact Hrun0|].
  destruct (run true sample_yaml Returned no_tags [article_a; article_b]
                [Select (Some article_b);
                 Settle 1 (Answered true (Returned (lit "# A")));
                 FirstArticleEffect; StaleSlugEffect;
                 Settle 2 (Answered true (Returned (lit "# B")))]
                first_pending) as [sys|] eqn:Hrun;
    [|vm_compute in Hrun; discriminate Hrun].
  exists sys. split; [reflexivity|].
  apply (selected_article_is_shown true sample_yaml Returned no_tags
           [article_a; article_b] [Mounted]
           [Settle 1 (Answered true (Returned (lit "# A")));
            FirstArticleEffect; StaleSlugEffect]
           first_pending sys article_b
           (Answered true (Returned (lit "# B"))) (lit "# B") None []).
  - exact Hrun0.
  - right. left.
  - reflexivity.
  - repeat constructor. by eexists.
  - vm_compute. reflexivity.
  - exact Hrun.
Defined.

End MainSectionMore.

(** ** The notes loader, continued *)

Module NotesMore.
Import JS Regex Notes RegexFacts NotesFacts.

(** Splitting at the characters of a class and joining with spaces
    replaces each of them by a space. *)
Lemma join_split (p : N → bool) (s : jstring) :
  join_space (split_on p s) = map (λ c, if p c then 0x20%N else c) s.
Proof.
  assert (∃ chunk chunks,
            split_on p s = chunk :: chunks
            ∧ chunk ++ concat (map (λ x, 0x20%N :: x) chunks)
              = map (λ c, if p c then 0x20%N else c) s)
    as (chunk & chunks & -> & H); [|done].
  induction s as [|c s (chunk & chunks & IH & H)]; [by exists [], []|].
  simpl. rewrite IH. destruct (p c).
  - exists [], (chunk :: chunks). split; [done|]. simpl. by rewrite <- H.
  - exists (c :: chunk), chunks. split; [done|]. simpl. by rewrite <- H.
Qed.

Section Titles.
Variable toUpperCase : jstring → jstring.
Variable marked_parse : jstring → outcome jstring.
Variable introMarkdown : jstring.

(** X16: for a file whose name, cut at hyphens and underscores, gives
    chunks that begin with code units that upper-casing leaves alone
    (capitals, digits), the title of the article is its slug with every
    hyphen and underscore replaced by one space: the two have the same
    length, and consecutive separators give consecutive spaces. *)
Theorem title_is_spaced_slug (f : GitHubFile) :
  Forall (λ chunk, toUpperCase (take 1 chunk) = take 1 chunk)
         (split_on hyphen_or_underscore (slug (to_article toUpperCase f))) →
  title (to_article toUpperCase f)
  = map (λ c, if hyphen_or_underscore c then 0x20%N else c)
        (slug (to_article toUpperCase f)).
Proof.
  simpl. intros H. unfold formatTitle.
  rewrite <- join_split. f_equal.
  change (λ c, (c =? 0x2D)%N || (c =? 0x5F)%N) with hyphen_or_underscore.
  induction H as [|chunk chunks Hc _ IH]; [done|].
  simpl. rewrite IH. f_equal. unfold capitalize, slice.
  by rewrite Hc, take_drop.
Qed.

(** X17: [load] is all or nothing.  Either it writes nothing to the
    console and returns the rendered introduction (with the articles), or
    it writes exactly one line and returns neither articles nor
    introduction; the latter also when only the introduction fails to
    render, whatever the listing held. *)
Theorem load_all_or_nothing (lr : listing_response) :
  (let '(d, log) := load toUpperCase marked_parse introMarkdown lr in
   (log = []
    ∧ ∃ html, introHtml d = Some html
              ∧ marked_parse introMarkdown = Returned html)
   ∨ (∃ line, log = [line] ∧ line ≠ []
              ∧ articles d = [] ∧ introHtml d = None))
  ∧ (∀ e, marked_parse introMarkdown = Threw e →
          ∃ line, load toUpperCase marked_parse introMarkdown lr
                  = (mkData [] None, [line])).
Proof.
  split.
  - unfold load. destruct lr as [e|ok status [files|e]].
    + right. by eexists.
    + destruct ok; simpl; [|right; by eexists].
      destruct (marked_parse introMarkdown) as [html|e] eqn:Hintro.
      * left. split; [done|]. by exists html.
      * right. by eexists.
    + destruct ok; simpl; right; by eexists.
  - intros e He. unfold load. rewrite He.
    destruct lr as [e'|ok status [files|e']]; [by eexists|..];
      destruct ok; by eexists.
Qed.

(** X18: every article that [load] returns passes the guard of
    [selectArticle] in the browser: selecting it issues a fetch of the
    file's own [download_url] under the next request id, makes its slug
    the active one and sets the loading flag. *)
Theorem loaded_articles_are_fetched
    (lr : listing_response) (a : Article) (s : MainSection.state) :
  a ∈ articles (load toUpperCase marked_parse introMarkdown lr).1 →
  ∃ u, article_url a = Some u ∧ u ≠ []
       ∧ MainSection.selectArticle_begin true (Some a) s
         = (MainSection.mkState (Some (slug a)) (MainSection.renderedHtml s)
                                true [] (MainSection.currentRequest s + 1)
                                None,
            Some (MainSection.mkRequest (MainSection.currentRequest s + 1) u)).
Proof.
  intros Ha.
  assert (truthy_url (article_url a) = true) as Hu.
  { unfold load in Ha.
    destruct lr as [e|ok status [files|e]];
      [by apply elem_of_nil in Ha| |destruct ok; by apply elem_of_nil in Ha].
    destruct ok; simpl in Ha; [|by apply elem_of_nil in Ha].
    destruct (marked_parse introMarkdown); simpl in Ha;
      [|by apply elem_of_nil in Ha].
    unfold select_articles in Ha. by apply list_elem_of_filter in Ha as [Ha _]. }
  unfold truthy_url in Hu. destruct (article_url a) as [u|] eqn:Hurl; [|done].
  exists u. split; [done|]. split; [by destruct u|].
  unfold MainSection.selectArticle_begin. rewrite Hurl, Hu. done.
Qed.

End Titles.

(** A dated note. *)
Definition dated_file : GitHubFile :=
  mkFile (lit "2024-01_Notes.md") (lit "2024-01_Notes.md") (lit "file")
         (Some (lit "https://example.org/raw/2024-01_Notes.md")).

Lemma title_is_spaced_slug_witness :
  title (to_article upper_ascii dated_file) = lit "2024 01 Notes".
Proof.
  rewrite (title_is_spaced_slug upper_ascii dated_file).
  - vm_compute. reflexivity.
  - vm_compute. repeat constructor.
Defined.

Lemma loaded_articles_are_fetched_witness :
  ∃ u, article_url (to_article upper_ascii sample_file) = Some u ∧ u ≠ []
       ∧ (MainSection.selectArticle_begin true
            (Some (to_article upper_ascii sample_file))
            MainSection.initial).2
         = Some (MainSection.mkRequest 1 u).
Proof.
  destruct (loaded_articles_are_fetched upper_ascii Returned []
              (Answered true 200 (Returned [sample_file]))
              (to_article upper_ascii sample_file) MainSection.initial)
    as (u & Hu & Hne & Hbegin).
  - assert (articles
              (load upper_ascii Returned []
                    (Answered true 200 (Returned [sample_file]))).1
            = [to_article upper_ascii sample_file]) as ->
      by (vm_compute; reflexivity).
    left.
  - exists u. split; [exact Hu|]. split; [exact Hne|].
    rewrite Hbegin. reflexivity.
Defined.

End NotesMore.
